(** * Anonymisation validator: k-anonymity, l-diversity, t-closeness,
      linkage attack and the assembled report.

    A shallow embedding of
    [backend/privacy_validator/anonymisation_validator.py] and of the column
    checks of [anonymisation_validator_cli.py].

    Conventions of the embedding.
    - A pandas frame is a header (column name and dtype) and a list of rows;
      its row index is the default [RangeIndex] (every frame of the
      repository comes from [pd.read_csv] or [pd.DataFrame(dict)]).  The
      helper columns that the linkage attack adds ([__aux_id__], [_merge])
      are kept apart from the columns of the frames, which are taken not to
      use these names nor [index].
    - A cell is a finite number, a text or the missing marker.  Floating
      point numbers are read as exact rationals ([Q]); the quantities that
      need a logarithm (Shannon entropy and [2 ** entropy]) are real numbers
      ([R]).
    - Python exceptions are values of [exn]; a call that may raise returns
      a [result].
    - Equivalence classes are listed in order of first appearance (pandas
      orders them by key); no statement below depends on that order. *)

From Stdlib Require Import String List Permutation Sorted Bool Arith ZArith QArith Qabs Qround.
From Stdlib Require Import Reals Qreals Psatz.
Import ListNotations.

Local Open Scope string_scope.
Local Open Scope list_scope.

(* ------------------------------------------------------------------ *)
(** ** Exceptions and results *)

Inductive exn : Type :=
| KeyError (name : string)
| ValueError (msg : string)
| UnboundLocalError (var : string)
| TypeError (msg : string)
| SystemExit (msg : string)
| IndexError (msg : string).

Inductive result (A : Type) : Type :=
| Ok (a : A)
| Raise (e : exn).

Arguments Ok {A} a.
Arguments Raise {A} e.

Definition rbind {A B} (r : result A) (k : A -> result B) : result B :=
  match r with
  | Ok a => k a
  | Raise e => Raise e
  end.

Notation "x <- r ;; k" := (rbind r (fun x => k))
  (at level 61, r at next level, right associativity).

Fixpoint mapM {A B} (f : A -> result B) (l : list A) : result (list B) :=
  match l with
  | [] => Ok []
  | a :: t =>
      b <- f a ;;
      bs <- mapM f t ;;
      Ok (b :: bs)
  end.

Definition is_ok {A} (r : result A) : bool :=
  match r with Ok _ => true | Raise _ => false end.

(* ------------------------------------------------------------------ *)
(** ** Data model: cells, series, frames *)

Inductive value : Type :=
| VNum (q : Q)
| VStr (s : string)
| VNaN.

(** Equality of cells as the group-by, [value_counts], [nunique] and
    [merge] of pandas see it: the missing marker equals itself. *)
Definition value_eqb (a b : value) : bool :=
  match a, b with
  | VNum x, VNum y => Qeq_bool x y
  | VStr x, VStr y => String.eqb x y
  | VNaN, VNaN => true
  | _, _ => false
  end.

Definition isna (v : value) : bool :=
  match v with VNaN => true | _ => false end.

Fixpoint key_eqb (a b : list value) : bool :=
  match a, b with
  | [], [] => true
  | x :: a', y :: b' => value_eqb x y && key_eqb a' b'
  | _, _ => false
  end.

(** The dtype of a column: [Numeric] stands for int64 and float64,
    [Object] for object columns; other dtypes are not represented. *)
Inductive dtype : Type := Numeric | Object.

Definition row : Type := list value.

Record DataFrame : Type := {
  columns : list (string * dtype);
  rows : list row
}.

Record Series : Type := {
  s_dtype : dtype;
  s_values : list value
}.

Fixpoint col_index (name : string) (cols : list (string * dtype)) : option (nat * dtype) :=
  match cols with
  | [] => None
  | (c, d) :: t =>
      if String.eqb name c then Some (O, d)
      else match col_index name t with
           | Some (i, d') => Some (S i, d')
           | None => None
           end
  end.

Definition has_column (df : DataFrame) (name : string) : bool :=
  match col_index name (columns df) with Some _ => true | None => false end.

Definition cell (i : nat) (r : row) : value := nth i r VNaN.

(** [df[col]] *)
Definition getitem (df : DataFrame) (col : string) : result Series :=
  match col_index col (columns df) with
  | Some (i, d) => Ok {| s_dtype := d; s_values := map (cell i) (rows df) |}
  | None => Raise (KeyError col)
  end.

Definition is_numeric_dtype (s : Series) : bool :=
  match s_dtype s with Numeric => true | Object => false end.

(** [s.dtype.kind in {'i', 'f'}]: the numeric columns of the embedding are
    the int64 and float64 columns. *)
Definition kind_is_int_or_float (s : Series) : bool :=
  match s_dtype s with Numeric => true | Object => false end.

(** [s.dropna()] of a numeric series, as numbers. *)
Fixpoint numbers (l : list value) : list Q :=
  match l with
  | [] => []
  | VNum q :: t => q :: numbers t
  | _ :: t => numbers t
  end.

Definition dropna (l : list value) : list value :=
  filter (fun v => negb (isna v)) l.

(* ------------------------------------------------------------------ *)
(** ** Grouping engine: [df.groupby(qi_cols, dropna=False)] *)

Definition key_index (df : DataFrame) (c : string) : result nat :=
  match col_index c (columns df) with
  | Some (i, _) => Ok i
  | None => Raise (KeyError c)
  end.

(** The key columns of a group-by.  pandas goes on in two cases that are
    errors here: a key list exactly as long as the frame, one of whose
    names is not a column, is read as an array of group labels, and an
    empty key list is accepted on a frame without rows.  The statements
    that read these two errors exclude both cases. *)
Definition resolve_keys (df : DataFrame) (qi_cols : list string) : result (list nat) :=
  match qi_cols with
  | [] => Raise (ValueError "No group keys passed!")
  | _ => mapM (key_index df) qi_cols
  end.

Definition key_of (idx : list nat) (r : row) : list value :=
  map (fun i => cell i r) idx.

(** One equivalence class: its key tuple and its member rows. *)
Definition group : Type := (list value * list row)%type.

Fixpoint add_to_groups (k : list value) (r : row) (gs : list group) : list group :=
  match gs with
  | [] => [(k, [r])]
  | (k', rs) :: t =>
      if key_eqb k k' then (k', rs ++ [r]) :: t
      else (k', rs) :: add_to_groups k r t
  end.

Definition group_rows (idx : list nat) (rs : list row) : list group :=
  fold_left (fun gs r => add_to_groups (key_of idx r) r gs) rs [].

Definition groupby (df : DataFrame) (qi_cols : list string) : result (list group) :=
  idx <- resolve_keys df qi_cols ;;
  Ok (group_rows idx (rows df)).

(** [df.groupby(qi_cols, dropna=False)[col]]: the classes, each reduced to
    its values of column [col]. *)
Definition groupby_col (df : DataFrame) (qi_cols : list string) (col : string)
  : result (list (list value * list value)) :=
  gs <- groupby df qi_cols ;;
  match col_index col (columns df) with
  | Some (i, _) => Ok (map (fun g => (fst g, map (cell i) (snd g))) gs)
  | None => Raise (KeyError col)
  end.

(* ------------------------------------------------------------------ *)
(** ** Reductions of a pandas series: min, max, mean *)

Definition Qsum (l : list Q) : Q := fold_right Qplus 0%Q l.

Definition Qmean (l : list Q) : Q := (Qsum l / inject_Z (Z.of_nat (length l)))%Q.

Definition Qminimum (l : list Q) : Q :=
  match l with
  | [] => 0%Q
  | a :: t => fold_left (fun m x => if Qle_bool x m then x else m) t a
  end.

Definition Qmaximum (l : list Q) : Q :=
  match l with
  | [] => 0%Q
  | a :: t => fold_left (fun m x => if Qle_bool m x then x else m) t a
  end.

Definition Zsum (l : list Z) : Z := fold_right Z.add 0%Z l.

Definition Zminimum (l : list Z) : Z :=
  match l with
  | [] => 0%Z
  | a :: t => fold_left Z.min t a
  end.

Definition len {A} (l : list A) : Z := Z.of_nat (length l).

(* ------------------------------------------------------------------ *)
(** ** Report records *)

Record KAnonymityReport : Type := {
  k_min : Z;
  k_avg : Q;
  eq_class_size_hist : list (Z * Z)
}.

(** [sizes.value_counts().sort_index().to_dict()]: class size to number of
    classes of that size, by ascending size. *)
Fixpoint hist_add (s : Z) (h : list (Z * Z)) : list (Z * Z) :=
  match h with
  | [] => [(s, 1%Z)]
  | (k, c) :: t =>
      if (s =? k)%Z then (k, (c + 1)%Z) :: t
      else if (s <? k)%Z then (s, 1%Z) :: (k, c) :: t
      else (k, c) :: hist_add s t
  end.

Definition value_counts_sorted (sizes : list Z) : list (Z * Z) :=
  fold_right hist_add [] sizes.

(** [AnonymisationValidator.k_anonymity] *)
Definition k_anonymity (df : DataFrame) (qi_cols : list string) : result KAnonymityReport :=
  grouped <- groupby df qi_cols ;;
  let eq_class_sizes := map (fun g => len (snd g)) grouped in
  let k_min := match eq_class_sizes with [] => 0%Z | _ => Zminimum eq_class_sizes end in
  let k_avg := match eq_class_sizes with
               | [] => 0%Q
               | _ => Qmean (map inject_Z eq_class_sizes)
               end in
  let hist := value_counts_sorted eq_class_sizes in
  Ok {| k_min := k_min; k_avg := k_avg; eq_class_size_hist := hist |}.

(** The frame of the test fixture [simple_df]. *)
Definition simple_df : DataFrame := {|
  columns := [("age_band", Object); ("zip", Object); ("disease", Object); ("income", Numeric)];
  rows := [ [VStr "20-29"; VStr "12345"; VStr "HIV"; VNum 50];
            [VStr "20-29"; VStr "12345"; VStr "Flu"; VNum 60];
            [VStr "30-39"; VStr "54321"; VStr "HIV"; VNum 70];
            [VStr "30-39"; VStr "54321"; VStr "HIV"; VNum 80];
            [VStr "30-39"; VStr "54321"; VStr "Cancer"; VNum 90] ]
|}.

(* ------------------------------------------------------------------ *)
(** ** L-diversity *)

(** [s.value_counts(dropna=False)]: each observed value with its number of
    occurrences (the missing marker is one value). *)
Fixpoint count_add (v : value) (t : list (value * Z)) : list (value * Z) :=
  match t with
  | [] => [(v, 1%Z)]
  | (w, c) :: t' =>
      if value_eqb v w then (w, (c + 1)%Z) :: t'
      else (w, c) :: count_add v t'
  end.

Definition value_counts (l : list value) : list (value * Z) :=
  fold_left (fun t v => count_add v t) l [].

(** [s.nunique(dropna=False)] *)
Definition nunique (l : list value) : Z := len (value_counts l).

(** [s.value_counts(normalize=True, dropna=False).values] *)
Definition value_probs (l : list value) : list Q :=
  map (fun vc => (inject_Z (snd vc) / inject_Z (len l))%Q) (value_counts l).

Definition Rsum (l : list R) : R := fold_right Rplus 0%R l.

Definition log2 (x : R) : R := (ln x / ln 2)%R.

(** [2 ** x] on floats *)
Definition pow2 (x : R) : R := Rpower 2 x.

Definition Qpositive (q : Q) : bool := negb (Qle_bool q 0).

(** [_safe_entropy] *)
Definition _safe_entropy (p : list Q) : R :=
  let p := filter Qpositive p in
  match p with
  | [] => 0%R
  | _ => (- Rsum (map (fun q => Q2R q * log2 (Q2R q)) p))%R
  end.

Definition Rminimum (l : list R) : R :=
  match l with
  | [] => 0%R
  | a :: t => fold_left Rmin t a
  end.

Definition Rmean (l : list R) : R := (Rsum l / INR (length l))%R.

Record LDiversityReport : Type := {
  method : string;
  l_min : Q;
  l_avg : Q;
  entropy_min : option R;
  entropy_avg : option R;
  entropy_effective_min : option R;
  entropy_effective_avg : option R
}.

(** A class key with a missing component.  [probs.groupby(level=...)] is
    called without [dropna=False], so pandas leaves such classes out. *)
Definition key_has_na (k : list value) : bool := existsb isna k.

(** [AnonymisationValidator.l_diversity] *)
Definition l_diversity (df : DataFrame) (qi_cols : list string) (sensitive_col : string)
    (method : string) : result LDiversityReport :=
  grp <- groupby_col df qi_cols sensitive_col ;;
  if String.eqb method "distinct" then
    let l_values := map (fun g => inject_Z (nunique (snd g))) grp in
    let l_min := match l_values with [] => 0%Q | _ => Qminimum l_values end in
    let l_avg := match l_values with [] => 0%Q | _ => Qmean l_values end in
    Ok {| method := method; l_min := l_min; l_avg := l_avg;
          entropy_min := None; entropy_avg := None;
          entropy_effective_min := None; entropy_effective_avg := None |}
  else if String.eqb method "entropy" then
    let probs := map (fun g => (fst g, value_probs (snd g))) grp in
    let entropies :=
      map (fun kp => _safe_entropy (snd kp))
          (filter (fun kp => negb (key_has_na (fst kp))) probs) in
    let entropy_min := match entropies with [] => 0%R | _ => Rminimum entropies end in
    let entropy_avg := match entropies with [] => 0%R | _ => Rmean entropies end in
    let entropy_eff_min := pow2 entropy_min in
    let entropy_eff_avg := pow2 entropy_avg in
    let distinct_l := map (fun g => inject_Z (nunique (snd g))) grp in
    let distinct_min := match distinct_l with [] => 0%Q | _ => Qminimum distinct_l end in
    let distinct_avg := match distinct_l with [] => 0%Q | _ => Qmean distinct_l end in
    Ok {| method := method; l_min := distinct_min; l_avg := distinct_avg;
          entropy_min := Some entropy_min; entropy_avg := Some entropy_avg;
          entropy_effective_min := Some entropy_eff_min;
          entropy_effective_avg := Some entropy_eff_avg |}
  else Raise (ValueError "method must be 'distinct' or 'entropy'").

(* ------------------------------------------------------------------ *)
(** ** numpy and scipy helpers used by t-closeness *)

Definition Qlt_bool (a b : Q) : bool := negb (Qle_bool b a).

Fixpoint Qinsert (a : Q) (l : list Q) : list Q :=
  match l with
  | [] => [a]
  | b :: t => if Qle_bool a b then a :: b :: t else b :: Qinsert a t
  end.

Definition Qsort (l : list Q) : list Q := fold_right Qinsert [] l.

(** [np.unique] of a sorted array *)
Fixpoint dedup_sorted (l : list Q) : list Q :=
  match l with
  | [] => []
  | a :: t =>
      match t with
      | [] => [a]
      | b :: _ => if Qeq_bool a b then dedup_sorted t else a :: dedup_sorted t
      end
  end.

Definition np_unique (l : list Q) : list Q := dedup_sorted (Qsort l).

(** [np.linspace(start, stop, num)] *)
Definition linspace (start stop : Q) (num : Z) : result (list Q) :=
  if (num <? 0)%Z then Raise (ValueError "Number of samples must be non-negative.")
  else if (num =? 1)%Z then Ok [start]
  else Ok (map (fun i => (start + inject_Z (Z.of_nat i) * (stop - start) / inject_Z (num - 1))%Q)
               (seq 0 (Z.to_nat num))).

(** [np.quantile(x, q)] for one [q] in [0,1], linear interpolation, on a
    non-empty sample. *)
Definition np_quantile (x : list Q) (q : Q) : Q :=
  let xs := Qsort x in
  let pos := (q * inject_Z (len xs - 1))%Q in
  let lo := Qfloor pos in
  let hi := Z.min (lo + 1) (len xs - 1) in
  let v_lo := nth (Z.to_nat lo) xs 0%Q in
  let v_hi := nth (Z.to_nat hi) xs 0%Q in
  (v_lo + (pos - inject_Z lo) * (v_hi - v_lo))%Q.

(** [np.histogram_bin_edges(x, bins=bin_count)] on a non-empty sample *)
Definition histogram_bin_edges (x : list Q) (bin_count : Z) : result (list Q) :=
  let first_edge := Qminimum x in
  let last_edge := Qmaximum x in
  if Qeq_bool first_edge last_edge
  then linspace (first_edge - (1#2))%Q (last_edge + (1#2))%Q (bin_count + 1)
  else linspace first_edge last_edge (bin_count + 1).

Definition count_if (f : Q -> bool) (l : list Q) : Z := len (filter f l).

(** [np.histogram(values, bins=edges)[0]]: bins are half-open, the last one
    is closed. *)
Fixpoint np_histogram (values : list Q) (edges : list Q) : list Z :=
  match edges with
  | lo :: tl =>
      match tl with
      | [] => []
      | [hi] => [count_if (fun v => Qle_bool lo v && Qle_bool v hi) values]
      | hi :: _ =>
          count_if (fun v => Qle_bool lo v && Qlt_bool v hi) values :: np_histogram values tl
      end
  | [] => []
  end.

(** [counts / counts.sum() if counts.sum() > 0 else counts] *)
Definition counts_to_probs (counts : list Z) : list Q :=
  if (0 <? Zsum counts)%Z
  then map (fun c => (inject_Z c / inject_Z (Zsum counts))%Q) counts
  else map inject_Z counts.

Definition normalise (p : list Q) : list Q :=
  if Qpositive (Qsum p) then map (fun a => (a / Qsum p)%Q) p else p.

(** [_total_variation_distance]; both arguments are laid out on the same
    bins or categories, so they have the same length. *)
Definition _total_variation_distance (p q : list Q) : Q :=
  let p := normalise p in
  let q := normalise q in
  ((1#2) * Qsum (map (fun ab => Qabs (fst ab - snd ab)) (combine p q)))%Q.

(** Empirical distribution function of a sample at [t]. *)
Definition ecdf (u : list Q) (t : Q) : Q :=
  (inject_Z (count_if (fun v => Qle_bool v t) u) / inject_Z (len u))%Q.

Fixpoint cdf_distance (u v : list Q) (all_values : list Q) : Q :=
  match all_values with
  | a :: tl =>
      match tl with
      | [] => 0%Q
      | b :: _ => (Qabs (ecdf u a - ecdf v a) * (b - a) + cdf_distance u v tl)%Q
      end
  | [] => 0%Q
  end.

(** [scipy.stats.wasserstein_distance], which rejects an empty sample. *)
Definition wasserstein_distance (u v : list Q) : result Q :=
  match u, v with
  | [], _ | _, [] => Raise (ValueError "Distribution can't be empty.")
  | _, _ => Ok (cdf_distance u v (Qsort (u ++ v)))
  end.

(** [_emd_distance] *)
Definition _emd_distance (p_values q_values : list Q) : result Q :=
  wasserstein_distance p_values q_values.

(* ------------------------------------------------------------------ *)
(** ** Linkage-attack simulator *)

Inductive merge_indicator : Type := both | left_only.

Record LinkageResult : Type := {
  unique : Z;
  multiple : Z;
  none : Z;
  flagged : list row;
  records_tested : Z;
  reid_probability : Q
}.

(** Key columns of [left.merge(right, on=qi_cols)].  Each key is looked up
    in the right frame and in the left one, key by key; a name that is not
    a column of both raises [KeyError]. *)
Definition merge_key (left right : DataFrame) (c : string) : result (nat * nat) :=
  match col_index c (columns right), col_index c (columns left) with
  | Some (j, _), Some (i, _) => Ok (i, j)
  | _, _ => Raise (KeyError c)
  end.

Definition is_text (v : value) : bool :=
  match v with VStr _ => true | _ => false end.

Definition is_integer (v : value) : bool :=
  match v with VNum q => Qeq_bool q (inject_Z (Qfloor q)) | _ => false end.

(** An object column that the merge infers as string or mixed: it holds a
    text and no integer. *)
Definition string_like (cells : list value) : bool :=
  existsb is_text cells && negb (existsb is_integer cells).

(** The dtype check of the merge: an object key against a numeric key is
    rejected when the object column is string-like; an object column that
    holds numbers is accepted, and so is one without rows. *)
Definition keys_clash (left right : DataFrame) (c : string) : bool :=
  match col_index c (columns left), col_index c (columns right) with
  | Some (i, Object), Some (_, Numeric) => string_like (map (cell i) (rows left))
  | Some (_, Numeric), Some (j, Object) => string_like (map (cell j) (rows right))
  | _, _ => false
  end.

Definition no_rows (df : DataFrame) : bool :=
  match rows df with [] => true | _ => false end.

(** The keys of the merge.  All keys are resolved before any dtype is
    compared; the dtype check is skipped when exactly one of the frames has
    no rows; an empty key list makes the merge raise [IndexError]. *)
Definition merge_keys (left right : DataFrame) (qi_cols : list string)
  : result (list (nat * nat)) :=
  match qi_cols with
  | [] => Raise (IndexError "list index out of range")
  | _ =>
      keys <- mapM (merge_key left right) qi_cols ;;
      if xorb (no_rows left) (no_rows right) then Ok keys
      else if existsb (keys_clash left right) qi_cols
           then Raise (ValueError "You are trying to merge on object and int64 columns")
           else Ok keys
  end.

(** [aux.merge(anonymised_df, on=qi_cols, how="left", indicator=True)],
    reduced to the two columns the attack reads: [__aux_id__] and [_merge].
    An auxiliary row with matches yields one merged row per match, one
    without yields a single [left_only] row. *)
Definition merge_left (aux : list (nat * row)) (anonymised_rows : list row)
    (keys : list (nat * nat)) : list (nat * merge_indicator) :=
  flat_map
    (fun ir =>
       match filter (fun a => key_eqb (key_of (map fst keys) (snd ir))
                                      (key_of (map snd keys) a))
                    anonymised_rows with
       | [] => [(fst ir, left_only)]
       | ms => map (fun _ => (fst ir, both)) ms
       end)
    aux.

Definition is_both (m : merge_indicator) : Z :=
  match m with both => 1%Z | left_only => 0%Z end.

Fixpoint count_both_add (i : nat) (m : merge_indicator) (t : list (nat * Z))
  : list (nat * Z) :=
  match t with
  | [] => [(i, is_both m)]
  | (j, c) :: t' =>
      if Nat.eqb i j then (j, (c + is_both m)%Z) :: t'
      else (j, c) :: count_both_add i m t'
  end.

(** [merged.groupby("__aux_id__")["_merge"].apply(lambda s: (s == "both").sum())] *)
Definition counts_by_aux_id (merged : list (nat * merge_indicator)) : list (nat * Z) :=
  fold_left (fun t im => count_both_add (fst im) (snd im) t) merged [].

(** [simulate_linkage_attack], for frames whose column names are plain
    (no column [index] in the auxiliary frame, so that [reset_index] and
    [rename] leave the row position in [__aux_id__]; no helper name and no
    suffix collision in the merge).  The counts of a merge without rows
    keep the categorical dtype of [_merge], which has no order:
    [counts > 1] raises [TypeError] when the auxiliary frame has no
    rows. *)
Definition simulate_linkage_attack (anonymised_df aux_df : DataFrame)
    (qi_cols : list string) : result LinkageResult :=
  (* aux_df.copy().reset_index(drop=False): __aux_id__ is the row position *)
  let aux := combine (seq 0 (length (rows aux_df))) (rows aux_df) in
  keys <- merge_keys aux_df anonymised_df qi_cols ;;
  let merged := merge_left aux (rows anonymised_df) keys in
  let counts := counts_by_aux_id merged in
  let unique := len (filter (fun ic => (snd ic =? 1)%Z) counts) in
  multiple <- match aux with
              | [] => Raise (TypeError "Unordered Categoricals can only compare equality or not")
              | _ => Ok (len (filter (fun ic => (1 <? snd ic)%Z) counts))
              end ;;
  let none := len (filter (fun ic => (snd ic =? 0)%Z) counts) in
  let flagged :=
    map (fun ic => nth (fst ic) (rows aux_df) [])
        (filter (fun ic => (snd ic =? 1)%Z) counts) in
  let reid_prob :=
    if (len aux =? 0)%Z then 0%Q else (inject_Z unique / inject_Z (len aux))%Q in
  Ok {| unique := unique; multiple := multiple; none := none; flagged := flagged;
        records_tested := len aux; reid_probability := reid_prob |}.

(** The auxiliary frame of [test_linkage_attack_unique_and_multiple]. *)
Definition aux_test_df : DataFrame := {|
  columns := [("age_band", Object); ("zip", Object)];
  rows := [ [VStr "20-29"; VStr "12345"]; [VStr "30-39"; VStr "54321"];
            [VStr "30-39"; VStr "54321"]; [VStr "99-99"; VStr "00000"] ]
|}.

(* ------------------------------------------------------------------ *)
(** ** Threshold advisor *)

Record Thresholds : Type := {
  sug_k : Z;
  sug_l : Z;
  sug_t : Q;
  sug_reid_probability : Q
}.

(** [AnonymisationValidator.suggest_thresholds] *)
Definition suggest_thresholds (df : DataFrame) (qi_cols : list string)
    (sensitive_col : string) : result Thresholds :=
  let n_rows := len (rows df) in
  let k_suggested :=
    if (n_rows <? 1000)%Z then 5%Z
    else if (n_rows <? 10000)%Z then 10%Z else 20%Z in
  s <- getitem df sensitive_col ;;
  let l_suggested := if (nunique (dropna (s_values s)) <=? 10)%Z then 2%Z else 3%Z in
  let t_suggested := if kind_is_int_or_float s then (2#10)%Q else (3#10)%Q in
  let reid_suggested := if (1000 <? n_rows)%Z then (5#100)%Q else (1#10)%Q in
  Ok {| sug_k := k_suggested; sug_l := l_suggested; sug_t := t_suggested;
        sug_reid_probability := reid_suggested |}.

(* ------------------------------------------------------------------ *)
(** ** T-closeness *)

Record TClosenessReport : Type := {
  t_max : Q;
  t_avg : Q;
  bins : option (list Q);
  tc_method : string   (* field [method] of the dataclass *)
}.

(** A Python local that some branches leave unassigned. *)
Definition local {A} (name : string) (v : option A) : result A :=
  match v with
  | Some a => Ok a
  | None => Raise (UnboundLocalError name)
  end.

(** [s.value_counts(normalize=True).reindex(cats, fill_value=0).values]:
    missing values are dropped before counting. *)
Definition reindex_probs (cats : list value) (l : list value) : list Q :=
  let present := dropna l in
  let vc := value_counts present in
  map (fun c =>
         match find (fun vn => value_eqb c (fst vn)) vc with
         | Some (_, n) => (inject_Z n / inject_Z (len present))%Q
         | None => 0%Q
         end)
      cats.

(* ------------------------------------------------------------------ *)
(** ** Report assembler: records *)

Record Params : Type := {
  qi : list string;
  sensitive : string;
  k_required : option Z;
  l_required : option Q;
  l_method : string;
  t_required : option Q;
  numeric_bins : Z;
  reid_required : option Q;
  dominance_threshold : Q;
  rare_threshold : Z;
  binning_method : string;
  t_method : string
}.

(** The keyword defaults of [full_report]. *)
Definition default_params (qi_cols : list string) (sensitive_col : string) : Params := {|
  qi := qi_cols; sensitive := sensitive_col;
  k_required := None; l_required := None; l_method := "distinct";
  t_required := None; numeric_bins := 15; reid_required := None;
  dominance_threshold := 9#10; rare_threshold := 1;
  binning_method := "fd"; t_method := "tvd"
|}.

Record DataSummary : Type := {
  n_rows : Z;
  n_cols : Z;
  missing_rates : list (string * option Q)   (* [None]: NaN, the mean of no rows *)
}.

(** A metric entry of the report: the analyzer's report, or the dictionary
    of [None] values written by the [except] branch. *)
Inductive sub_report (A : Type) : Type :=
| Computed (rep : A)
| NullPlaceholder.

Arguments Computed {A} rep.
Arguments NullPlaceholder {A}.

Inductive risk_flag : Type :=
| KBelowThreshold (k_min k_required : Z)
| EntropyLBelowThreshold (effective_min : R) (l_required : Q)
| DistinctLBelowThreshold (l_min l_required : Q)
| TAboveThreshold (t_max t_required : Q)
| ReidTooHigh (reid_probability reid_required : Q).

Inductive repair : Type :=
| GeneraliseOrSuppressQIs (qi_cols : list string)
| IncreaseEntropy
| IncreaseDiversity
| RebinSensitive
| SuppressUniqueCombinations.

Record RareCombination : Type := {
  rc_qi_values : list (string * value);
  rc_count : Z
}.

Record SensitiveSkew : Type := {
  sk_qi_values : list (string * value);
  dominant_sensitive : value;
  frequency : Q
}.

Record CorrelationEntry : Type := {
  ce_qi : string;
  ce_sensitive : string;
  ce_statistics : list (string * Q)
}.

Record BehaviourPatterns : Type := {
  rare_combinations : list RareCombination;
  sensitive_skew : list SensitiveSkew;
  qi_sensitive_correlation : list CorrelationEntry;
  correlation_error : option string
}.

Record FullReport : Type := {
  schema_version : string;
  params : Params;
  suggested_thresholds : Thresholds;
  data_summary : DataSummary;
  rep_k_anonymity : sub_report KAnonymityReport;
  rep_l_diversity : sub_report LDiversityReport;
  rep_t_closeness : sub_report TClosenessReport;
  attack_simulation : option LinkageResult;
  risk_flags : list risk_flag;
  repair_suggestions : list repair;
  behaviour_patterns : BehaviourPatterns
}.

(** Lines appended to [log.txt] (time stamps left out). *)
Inductive log_line : Type :=
| DebugInputQI (qi_cols : list string)
| DebugInputSensitive (sensitive_col : string)
| DebugResultK (rep : KAnonymityReport)
| DebugErrorK (e : exn)
| DebugResultL (rep : LDiversityReport)
| DebugErrorL (e : exn)
| DebugResultT (rep : TClosenessReport)
| DebugErrorT (e : exn).

(** What a validator call can read and write: the frame bound to [self]
    and the log file. *)
Record world : Type := {
  self_df : DataFrame;
  log_txt : list log_line
}.

Definition append_log (w : world) (lines : list log_line) : world :=
  {| self_df := self_df w; log_txt := log_txt w ++ lines |}.

(** [float(self.df[col].isna().mean())] for every column *)
Definition missing_rate (df : DataFrame) (i : nat) : option Q :=
  match rows df with
  | [] => None
  | rs => Some (inject_Z (len (filter (fun r => isna (cell i r)) rs)) / inject_Z (len rs))%Q
  end.

Definition summarise (df : DataFrame) : DataSummary := {|
  n_rows := len (rows df);
  n_cols := len (columns df);
  missing_rates :=
    map (fun ic => (fst (snd ic), missing_rate df (fst ic)))
        (combine (seq 0 (length (columns df))) (columns df))
|}.

(** [try: rep = analyzer(...) except Exception: placeholder]: the local
    stays unbound when the analyzer raises. *)
Definition attempt {A} (r : result A) (ok : A -> log_line) (err : exn -> log_line)
  : option A * sub_report A * log_line :=
  match r with
  | Ok rep => (Some rep, Computed rep, ok rep)
  | Raise e => (None, NullPlaceholder, err e)
  end.

(** [dist.max()] and [dist.idxmax()] of a non-empty frequency table *)
Definition dominant (l : list value) : option (value * Q) :=
  match combine (map fst (value_counts l)) (value_probs l) with
  | [] => None
  | vp :: t =>
      Some (fold_left (fun m x => if Qlt_bool (snd m) (snd x) then x else m) t vp)
  end.

Section Validator.

(** [n ** (-1/3)] in floating point, for the Freedman-Diaconis bin width. *)
Variable pow_neg_third : Z -> Q.

(** The locals [bins] and [dist_func] of [t_closeness] as they stand when
    line 253 is reached. *)
Definition t_closeness_locals (s : Series) (numeric_bins : Z)
    (binning_method t_method : string)
  : result (option (list Q) * option (list value -> result Q)) :=
  if is_numeric_dtype s then
    let x := numbers (s_values s) in
    match x with
    | [] => Ok (None, Some (fun _ => Ok 0%Q))
    | _ =>
        if String.eqb binning_method "quantile" then
          quantiles <- linspace 0 1 (numeric_bins + 1) ;;
          let bins := np_unique (map (np_quantile x) quantiles) in
          Ok (Some bins, None)
        else
          let x_max := Qmaximum x in
          let x_min := Qminimum x in
          (* x holds no NaN after dropna: the branch on np.isnan is dead *)
          let iqr := (np_quantile x (75#100) - np_quantile x (25#100))%Q in
          let h := if Qpositive iqr
                   then (2 * iqr * pow_neg_third (len x))%Q
                   else ((x_max - x_min) / inject_Z (Z.max 1 numeric_bins))%Q in
          let h := if Qeq_bool h 0 then 1%Q else h in
          let bin_count := Z.max 1 (Qceiling ((x_max - x_min) / h)) in
          bins <- histogram_bin_edges x bin_count ;;
          let global_counts := np_histogram x bins in
          let global_probs := counts_to_probs global_counts in
          let dist_func := fun subs : list value =>
            if String.eqb t_method "emd" then _emd_distance (numbers subs) x
            else
              let counts := np_histogram (numbers subs) bins in
              let p := counts_to_probs counts in
              Ok (_total_variation_distance p global_probs) in
          Ok (Some bins, Some dist_func)
    end
  else
    let cats := map fst (value_counts (dropna (s_values s))) in
    let global_probs := reindex_probs cats (s_values s) in
    let dist_func := fun subs : list value =>
      let p := reindex_probs cats subs in
      Ok (_total_variation_distance p global_probs) in
    Ok (None, Some dist_func).

(** [AnonymisationValidator.t_closeness] *)
Definition t_closeness (df : DataFrame) (qi_cols : list string) (sensitive_col : string)
    (numeric_bins : Z) (binning_method t_method : string) : result TClosenessReport :=
  s <- getitem df sensitive_col ;;
  locals <- t_closeness_locals s numeric_bins binning_method t_method ;;
  let bins := fst locals in
  grp <- groupby_col df qi_cols sensitive_col ;;
  dist_func <- local "dist_func" (snd locals) ;;
  t_values <- mapM (fun g => dist_func (snd g)) grp ;;
  let t_max := match t_values with [] => 0%Q | _ => Qmaximum t_values end in
  let t_avg := match t_values with [] => 0%Q | _ => Qmean t_values end in
  Ok {| t_max := t_max; t_avg := t_avg; bins := bins; tc_method := t_method |}.

(* ------------------------------------------------------------------ *)
(** ** Report assembler: [full_report] *)

(** Pearson correlation and Cramer's V of each quasi-identifier with the
    sensitive column (pandas [corr], scipy [chi2_contingency]), with the
    message of the exception the [try] block caught, if any. *)
Variable correlation_scan :
  DataFrame -> list string -> string -> list CorrelationEntry * option string.

(** The risk flags and repair suggestions of lines 367-393. *)
Definition risk_section (p : Params) (krep : option KAnonymityReport)
    (lrep : option LDiversityReport) (trep : option TClosenessReport)
  : result (list risk_flag * list repair) :=
  fr1 <- match k_required p with
         | None => Ok ([], [])
         | Some kr =>
             rep <- local "krep" krep ;;
             if (k_min rep <? kr)%Z
             then Ok ([KBelowThreshold (k_min rep) kr], [GeneraliseOrSuppressQIs (qi p)])
             else Ok ([], [])
         end ;;
  fr2 <- match l_required p with
         | None => Ok ([], [])
         | Some lr =>
             if String.eqb (l_method p) "entropy" then
               rep <- local "lrep" lrep ;;
               match entropy_effective_min rep with
               | Some eff =>
                   if Rlt_dec eff (Q2R lr)
                   then Ok ([EntropyLBelowThreshold eff lr], [IncreaseEntropy])
                   else Ok ([], [])
               | None => Raise (TypeError "'<' not supported between NoneType and float")
               end
             else
               rep <- local "lrep" lrep ;;
               if Qlt_bool (l_min rep) lr
               then Ok ([DistinctLBelowThreshold (l_min rep) lr], [IncreaseDiversity])
               else Ok ([], [])
         end ;;
  fr3 <- match t_required p with
         | None => Ok ([], [])
         | Some tr =>
             rep <- local "trep" trep ;;
             if Qlt_bool tr (t_max rep)
             then Ok ([TAboveThreshold (t_max rep) tr], [RebinSensitive])
             else Ok ([], [])
         end ;;
  Ok (fst fr1 ++ fst fr2 ++ fst fr3, snd fr1 ++ snd fr2 ++ snd fr3).

(** The loop over the equivalence classes of lines 407-420. *)
Definition class_patterns (p : Params) (df : DataFrame)
  : result (list RareCombination * list SensitiveSkew) :=
  grouped <- groupby df (qi p) ;;
  sens <- key_index df (sensitive p) ;;
  let qi_values := fun g : group => combine (qi p) (fst g) in
  let rare :=
    map (fun g => {| rc_qi_values := qi_values g; rc_count := len (snd g) |})
        (filter (fun g => (len (snd g) <=? rare_threshold p)%Z) grouped) in
  let skew :=
    flat_map
      (fun g =>
         match dominant (map (cell sens) (snd g)) with
         | Some (v, f) =>
             if Qlt_bool (dominance_threshold p) f
             then [{| sk_qi_values := qi_values g; dominant_sensitive := v; frequency := f |}]
             else []
         | None => []
         end)
      grouped in
  Ok (rare, skew).

(** [AnonymisationValidator.full_report] *)
Definition full_report (p : Params) (external_df : option DataFrame) (w : world)
  : result FullReport * world :=
  let df := self_df w in
  match suggest_thresholds df (qi p) (sensitive p) with
  | Raise e => (Raise e, w)
  | Ok suggested =>
      let summary := summarise df in
      let debug_lines := [DebugInputQI (qi p); DebugInputSensitive (sensitive p)] in
      let '(krep, k_dict, k_line) :=
        attempt (k_anonymity df (qi p)) DebugResultK DebugErrorK in
      let '(lrep, ldict, l_line) :=
        attempt (l_diversity df (qi p) (sensitive p) (l_method p)) DebugResultL DebugErrorL in
      let '(trep, t_dict, t_line) :=
        attempt (t_closeness df (qi p) (sensitive p) (numeric_bins p)
                             (binning_method p) (t_method p))
                DebugResultT DebugErrorT in
      let w := append_log w (debug_lines ++ [k_line; l_line; t_line]) in
      let outcome :=
        fr <- risk_section p krep lrep trep ;;
        attack <- match external_df with
                  | None => Ok (None, ([], []))
                  | Some ext =>
                      res <- simulate_linkage_attack df ext (qi p) ;;
                      match reid_required p with
                      | Some rr =>
                          if Qlt_bool rr (reid_probability res)
                          then Ok (Some res, ([ReidTooHigh (reid_probability res) rr],
                                              [SuppressUniqueCombinations]))
                          else Ok (Some res, ([], []))
                      | None => Ok (Some res, ([], []))
                      end
                  end ;;
        cls <- class_patterns p df ;;
        let corr := correlation_scan df (qi p) (sensitive p) in
        Ok {| schema_version := "1.0.0";
              params := p;
              suggested_thresholds := suggested;
              data_summary := summary;
              rep_k_anonymity := k_dict;
              rep_l_diversity := ldict;
              rep_t_closeness := t_dict;
              attack_simulation := fst attack;
              risk_flags := fst fr ++ fst (snd attack);
              repair_suggestions := snd fr ++ snd (snd attack);
              behaviour_patterns :=
                {| rare_combinations := fst cls; sensitive_skew := snd cls;
                   qi_sensitive_correlation := fst corr;
                   correlation_error := snd corr |} |} in
      (outcome, w)
  end.

(* ------------------------------------------------------------------ *)
(** ** The validator object and its public methods *)

Inductive call : Type :=
| Call_k_anonymity (qi_cols : list string)
| Call_l_diversity (qi_cols : list string) (sensitive_col method : string)
| Call_t_closeness (qi_cols : list string) (sensitive_col : string) (numeric_bins : Z)
    (binning_method t_method : string)
| Call_suggest_thresholds (qi_cols : list string) (sensitive_col : string)
| Call_full_report (p : Params) (external_df : option DataFrame).

Inductive returned : Type :=
| Ret_k_anonymity (r : result KAnonymityReport)
| Ret_l_diversity (r : result LDiversityReport)
| Ret_t_closeness (r : result TClosenessReport)
| Ret_suggest_thresholds (r : result Thresholds)
| Ret_full_report (r : result FullReport).

(** One method call on the validator: its outcome and the world after it. *)
Definition invoke (c : call) (w : world) : returned * world :=
  match c with
  | Call_k_anonymity q => (Ret_k_anonymity (k_anonymity (self_df w) q), w)
  | Call_l_diversity q s m => (Ret_l_diversity (l_diversity (self_df w) q s m), w)
  | Call_t_closeness q s nb bm tm =>
      (Ret_t_closeness (t_closeness (self_df w) q s nb bm tm), w)
  | Call_suggest_thresholds q s =>
      (Ret_suggest_thresholds (suggest_thresholds (self_df w) q s), w)
  | Call_full_report p ext =>
      let rw := full_report p ext w in (Ret_full_report (fst rw), snd rw)
  end.

Fixpoint invoke_all (cs : list call) (w : world) : list returned * world :=
  match cs with
  | [] => ([], w)
  | c :: rest =>
      let rw := invoke c w in
      let rsw := invoke_all rest (snd rw) in
      (fst rw :: fst rsw, snd rsw)
  end.

(* ------------------------------------------------------------------ *)
(** ** Command-line entry point ([anonymisation_validator_cli.py]) *)

Record CliArgs : Type := {
  arg_qi : list string;
  arg_sensitive : string;
  arg_k : Z;
  arg_l : Q;
  arg_l_method : string;
  arg_reid_probability : Q;
  arg_t : Q;
  arg_numeric_bins : Z;
  arg_dominance_threshold : Q;
  arg_rare_threshold : Z;
  arg_binning_method : string
}.

Definition missing_from (df : DataFrame) (cols : list string) : list string :=
  filter (fun c => negb (has_column df c)) cols.

(** The body of [__main__] once both CSV files are read: the column checks,
    then the report that is written to [--out]. *)
Definition cli_main (args : CliArgs) (df : DataFrame) (aux_df : option DataFrame)
    (log : list log_line) : result FullReport * list log_line :=
  match missing_from df (arg_qi args ++ [arg_sensitive args]) with
  | _ :: _ => (Raise (SystemExit "ERROR: Missing columns in data"), log)
  | [] =>
      match match aux_df with
            | Some aux => missing_from aux (arg_qi args)
            | None => []
            end with
      | _ :: _ => (Raise (SystemExit "ERROR: Missing QI columns in external aux data"), log)
      | [] =>
          let validator := {| self_df := df; log_txt := log |} in
          let rw :=
            full_report
              {| qi := arg_qi args; sensitive := arg_sensitive args;
                 k_required := Some (arg_k args); l_required := Some (arg_l args);
                 l_method := arg_l_method args; t_required := Some (arg_t args);
                 numeric_bins := arg_numeric_bins args;
                 reid_required := Some (arg_reid_probability args);
                 dominance_threshold := arg_dominance_threshold args;
                 rare_threshold := arg_rare_threshold args;
                 binning_method := arg_binning_method args; t_method := "tvd" |}
              aux_df validator in
          (fst rw, log_txt (snd rw))
      end
  end.

End Validator.

(* ------------------------------------------------------------------ *)
(** ** Effects of the analyzers on the frames of the caller *)

(** [AnonymisationValidator.__init__] keeps the caller's frame by reference
    ([self.df = df], no copy), and [full_report] hands it and
    [external_df] on to [simulate_linkage_attack].  This section lists,
    method by method, the calls, subscripts, assignments and appends of the
    source together with the object each one acts on. *)

Inductive place : Type :=
| BoundFrame     (* self.df, or an object that may share its data: a
                    column, a slice, a group, a group-by over it *)
| ExternalFrame  (* external_df / aux_df as the caller passed it *)
| Fresh          (* an object the method has made itself: a copy, a merge
                    result, a series of counts, an array, a dict, a list *)
| LogFile.       (* log.txt *)

Inductive operation : Type :=
| Call (name : string) (inplace : bool)
                 (* a method, function or operator; [inplace]: the source
                    passes inplace=True *)
| Subscript      (* obj[key], obj.loc[key], obj.attr, for x in obj *)
| Assign         (* obj[key] = v *)
| Append         (* list.append, dict.update *)
| FileWrite.     (* logf.write *)

Definition step : Type := (place * operation)%type.

(** The pandas, numpy and scipy calls of the source return new objects and
    leave their receiver and arguments as they are unless they are told to
    work in place; a subscript reads; an assignment, an append and a write
    change their target. *)
Definition in_place (op : operation) : bool :=
  match op with
  | Call _ inplace => inplace
  | Subscript => false
  | Assign | Append | FileWrite => true
  end.

Record caller_frames : Type := {
  bound_frame : DataFrame;
  external_frame : option DataFrame
}.

(** One step, with [change] standing for whatever an in-place operation
    does to the frame it acts on. *)
Definition perform (change : operation -> DataFrame -> DataFrame)
    (fs : caller_frames) (st : step) : caller_frames :=
  if in_place (snd st) then
    match fst st with
    | BoundFrame =>
        {| bound_frame := change (snd st) (bound_frame fs);
           external_frame := external_frame fs |}
    | ExternalFrame =>
        {| bound_frame := bound_frame fs;
           external_frame := option_map (change (snd st)) (external_frame fs) |}
    | Fresh | LogFile => fs
    end
  else fs.


Definition perform_all (change : operation -> DataFrame -> DataFrame)
    (trace : list step) (fs : caller_frames) : caller_frames :=
  fold_left (perform change) trace fs.

Definition calls (pl : place) (names : list string) : list step :=
  map (fun name => (pl, Call name false)) names.

(** Python built-ins applied to numbers, names and the objects built from
    them *)
Definition steps_builtins : list step :=
  calls Fresh ["float"; "int"; "str"; "abs"; "min"; "max"; "dict"; "zip"; "list";
               "range"; "isinstance"].





(** [k_anonymity], lines 143-147 *)
Definition steps_k_anonymity : list step :=
  calls BoundFrame ["groupby"; "size"]                              (* 143-144 *)
  ++ calls Fresh ["len"; "min"; "mean"]                             (* 145-146 *)
  ++ calls Fresh ["value_counts"; "sort_index"; "to_dict"]          (* 147 *)
  ++ steps_builtins.







(** A method with the source's operations and one more: a column dropped
    in place. *)
Definition steps_with_drop_in_place : list step :=
  steps_k_anonymity ++ [(BoundFrame, Call "drop" true)].

(* ------------------------------------------------------------------ *)
(** ** Vocabulary of the statements, sample frames and sample calls *)

Definition columns_present (df : DataFrame) (cols : list string) : Prop :=
  forall c, In c cols -> has_column df c = true.

(** Total number of rows held by a list of classes. *)
Definition class_rows (gs : list group) : Z := Zsum (map (fun g => len (snd g)) gs).

(** Rows accounted for by a size histogram: size times number of classes. *)
Definition hist_rows (h : list (Z * Z)) : Z :=
  Zsum (map (fun kc => (fst kc * snd kc)%Z) h).

Fixpoint add_key (i : nat) (ks : list nat) : list nat :=
  match ks with
  | [] => [i]
  | j :: t => if Nat.eqb i j then j :: t else j :: add_key i t
  end.

(** Both frames have every key column, with the same dtype. *)
Definition mergeable (left right : DataFrame) (qi_cols : list string) : Prop :=
  qi_cols <> [] /\
  forall c, In c qi_cols ->
    exists i j d, col_index c (columns left) = Some (i, d) /\
                  col_index c (columns right) = Some (j, d).

Definition Qnonneg (l : list Q) : Prop := Forall (fun a => (0 <= a)%Q) l.

Definition in_unit_interval (a : Q) : Prop := (0 <= a <= 1)%Q.

(** Stand-in for the floating point power [n ** (-1/3)] in examples; the
    samples used there have a zero inter-quartile range, or a categorical
    sensitive column, so that the bin width does not consult it. *)
Definition unit_pow_neg_third : Z -> Q := fun _ => 1%Q.

(** A frame with a numeric sensitive column whose inter-quartile range is
    zero. *)
Definition income_df : DataFrame := {|
  columns := [("zip", Object); ("income", Numeric)];
  rows := [ [VStr "12345"; VNum 70]; [VStr "12345"; VNum 70]; [VStr "12345"; VNum 70];
            [VStr "54321"; VNum 70]; [VStr "54321"; VNum 90] ]
|}.

(** The claim of C4, read on the model: bin edges appear only with a
    numeric sensitive column and the TVD method. *)
Definition bins_only_for_numeric_tvd (pow_neg_third : Z -> Q) : Prop :=
  forall df qi_cols sensitive_col numeric_bins binning_method t_method s rep,
    getitem df sensitive_col = Ok s ->
    t_closeness pow_neg_third df qi_cols sensitive_col numeric_bins binning_method t_method
    = Ok rep ->
    bins rep <> None -> is_numeric_dtype s = true /\ t_method = "tvd".

(** The columns of [simple_df], no rows. *)
Definition empty_df : DataFrame := {|
  columns := [("age_band", Object); ("zip", Object); ("disease", Object); ("income", Numeric)];
  rows := []
|}.

(** An analyzer failed and the threshold that reads its report is given. *)
Definition unbound_report_read (p : Params) (krep : option KAnonymityReport)
    (lrep : option LDiversityReport) (trep : option TClosenessReport) : Prop :=
  (krep = None /\ k_required p <> None) \/
  (lrep = None /\ l_required p <> None) \/
  (trep = None /\ t_required p <> None).


(** The analyzers' outcomes, as [full_report] sees them. *)
Definition analyzer_failed_under_threshold (pow_neg_third : Z -> Q) (p : Params)
    (df : DataFrame) : Prop :=
  (is_ok (k_anonymity df (qi p)) = false /\ k_required p <> None) \/
  (is_ok (l_diversity df (qi p) (sensitive p) (l_method p)) = false
   /\ l_required p <> None) \/
  (is_ok (t_closeness pow_neg_third df (qi p) (sensitive p) (numeric_bins p)
                      (binning_method p) (t_method p)) = false
   /\ t_required p <> None).

(** A correlation scan that reports nothing; the examples below end before
    the scan is reached, or do not look at its entries. *)
Definition no_correlation (df : DataFrame) (qi_cols : list string) (sensitive_col : string)
  : list CorrelationEntry * option string := ([], None).

Definition fresh_validator (df : DataFrame) : world := {| self_df := df; log_txt := [] |}.

(** [full_report(qi_cols=["age_band", "zip"], sensitive_col="income",
    t_required=0.2, binning_method="quantile")] *)
Definition quantile_params : Params := {|
  qi := ["age_band"; "zip"]; sensitive := "income";
  k_required := None; l_required := None; l_method := "distinct";
  t_required := Some (2#10); numeric_bins := 15; reid_required := None;
  dominance_threshold := 9#10; rare_threshold := 1;
  binning_method := "quantile"; t_method := "tvd"
|}.

(** [full_report(qi_cols=["age_band", "zip"], sensitive_col="disease",
    l_required=2, l_method="gini")] *)
Definition bad_method_params : Params := {|
  qi := ["age_band"; "zip"]; sensitive := "disease";
  k_required := None; l_required := Some 2%Q; l_method := "gini";
  t_required := None; numeric_bins := 15; reid_required := None;
  dominance_threshold := 9#10; rare_threshold := 1;
  binning_method := "fd"; t_method := "tvd"
|}.

(** An auxiliary frame without the [zip] column. *)
Definition aux_without_zip : DataFrame := {|
  columns := [("age_band", Object)];
  rows := [ [VStr "20-29"]; [VStr "30-39"] ]
|}.



(** Two rows of one class with two sensitive values, and one row whose
    quasi-identifier is missing. *)
Definition missing_zip_df : DataFrame := {|
  columns := [("zip", Object); ("disease", Object)];
  rows := [ [VStr "12345"; VStr "HIV"]; [VStr "12345"; VStr "Flu"]; [VNaN; VStr "Flu"] ]
|}.

(** Column names that the linkage attack or the merge use for columns of
    their own. *)
Definition helper_names : list string :=
  ["__aux_id__"; "_merge"; "_left_indicator"; "_right_indicator"].

Fixpoint distinct (l : list string) : bool :=
  match l with
  | [] => true
  | c :: t => negb (existsb (String.eqb c) t) && distinct t
  end.

(** The column names of a linkage attack are plain: no quasi-identifier
    is listed twice; the names are distinct within each frame; none is a
    helper name; the auxiliary frame has no column [index], which
    [reset_index] would leave in place of the row position; and no column
    that the merge renames with a suffix ([_x] on the left, [_y] on the
    right) meets a column that already has that name. *)
Definition plain_names (anonymised_df aux_df : DataFrame) (qi_cols : list string) : bool :=
  distinct qi_cols &&
  distinct (map fst (columns aux_df)) && distinct (map fst (columns anonymised_df)) &&
  forallb (fun c => negb (has_column aux_df c) && negb (has_column anonymised_df c))
          helper_names &&
  negb (has_column aux_df "index") &&
  forallb (fun c => negb (has_column anonymised_df c) || existsb (String.eqb c) qi_cols
                    || (negb (has_column aux_df (c ++ "_x"))
                        && negb (has_column anonymised_df (c ++ "_y"))))
          (map fst (columns aux_df)).

(** Some requested column is not a column of the frame. *)
Definition column_missing (df : DataFrame) (cols : list string) : Prop :=
  exists c, In c cols /\ has_column df c = false.

(** The frame has at least one row. *)
Definition has_rows (df : DataFrame) : Prop := rows df <> [].

(** The test of line 415 on one class: the frequency table of its
    sensitive values is not empty and its largest share exceeds the
    threshold. *)
Definition skewed (threshold : Q) (sens : nat) (g : group) : bool :=
  match dominant (map (cell sens) (snd g)) with
  | Some (_, f) => Qlt_bool threshold f
  | None => false
  end.

(** A sensitive-skew entry describes the class [g]: it carries the
    quasi-identifier values of the class and one of its sensitive values
    with the relative frequency of that value, and no sensitive value of
    the class is more frequent. *)
Definition describes_class (qi_cols : list string) (sens : nat) (g : group)
    (sk : SensitiveSkew) : Prop :=
  let values := map (cell sens) (snd g) in
  sk_qi_values sk = combine qi_cols (fst g) /\
  In (dominant_sensitive sk, frequency sk)
     (combine (map fst (value_counts values)) (value_probs values)) /\
  Forall (fun q => (q <= frequency sk)%Q) (value_probs values).

(** The columns of the auxiliary test frame, no rows. *)
Definition empty_aux_df : DataFrame := {|
  columns := [("age_band", Object); ("zip", Object)];
  rows := []
|}.

(* ------------------------------------------------------------------ *)
(** ** Vocabulary of the further properties *)

(** A frame whose numeric sensitive column holds no value. *)
Definition no_income_df : DataFrame := {|
  columns := [("zip", Object); ("income", Numeric)];
  rows := [ [VStr "12345"; VNaN]; [VStr "12345"; VNaN]; [VStr "54321"; VNaN] ]
|}.

(** A frame whose rows all share one quasi-identifier value. *)
Definition one_class_df : DataFrame := {|
  columns := [("zip", Object); ("disease", Object); ("income", Numeric)];
  rows := [ [VStr "12345"; VStr "HIV"; VNum 50]; [VStr "12345"; VStr "Flu"; VNum 70];
            [VStr "12345"; VStr "Flu"; VNum 90] ]
|}.

(** A numeric sensitive column with values in one class and none in the
    other; the inter-quartile range of the column is zero. *)
Definition partly_missing_df : DataFrame := {|
  columns := [("zip", Object); ("income", Numeric)];
  rows := [ [VStr "12345"; VNum 70]; [VStr "12345"; VNum 70]; [VStr "54321"; VNaN] ]
|}.

(** Number of rows of the anonymised frame whose quasi-identifier values
    equal those of the auxiliary row [r]; [keys] pairs the position of
    each key column in the auxiliary frame with its position in the
    anonymised frame. *)
Definition match_count (keys : list (nat * nat)) (anonymised_rows : list row) (r : row) : Z :=
  len (filter (fun a => key_eqb (key_of (map fst keys) r) (key_of (map snd keys) a))
              anonymised_rows).

(** A frame whose two equivalence classes hold two rows each. *)
Definition two_anonymous_df : DataFrame := {|
  columns := [("zip", Object); ("disease", Object)];
  rows := [ [VStr "12345"; VStr "HIV"]; [VStr "12345"; VStr "Flu"];
            [VStr "54321"; VStr "Flu"]; [VStr "54321"; VStr "Cold"] ]
|}.

(** What an analyzer call inside a [try] block leaves behind: the local it
    binds, and the entry of the report. *)
Definition bound_local {A} (r : result A) : option A :=
  match r with Ok a => Some a | Raise _ => None end.

Definition report_entry {A} (r : result A) : sub_report A :=
  match r with Ok a => Computed a | Raise _ => NullPlaceholder end.

(** [full_report(qi_cols=["age_band", "zip"], sensitive_col="disease",
    k_required=5, l_required=2, t_required=0.2, reid_required=0.05)] *)
Definition threshold_params : Params := {|
  qi := ["age_band"; "zip"]; sensitive := "disease";
  k_required := Some 5%Z; l_required := Some 2%Q; l_method := "distinct";
  t_required := Some (2#10); numeric_bins := 15; reid_required := Some (5#100);
  dominance_threshold := 9#10; rare_threshold := 1;
  binning_method := "fd"; t_method := "tvd"
|}.

(** The calls that write to [log.txt]: [full_report] on a frame that has
    the sensitive column. *)
Definition logging_call (df : DataFrame) (c : call) : bool :=
  match c with
  | Call_full_report p _ => has_column df (sensitive p)
  | _ => false
  end.

(* ================================================================== *)
(** * Properties *)

(** ** Sample evaluations *)

Example k_anonymity_simple_df :
  k_anonymity simple_df ["age_band"; "zip"]
  = Ok {| k_min := 2; k_avg := Qmean [2; 3]%Q; eq_class_size_hist := [(2, 1); (3, 1)]%Z |}.
Proof. reflexivity. Qed.

Example l_diversity_distinct_simple_df :
  l_diversity simple_df ["age_band"; "zip"] "disease" "distinct"
  = Ok {| method := "distinct"; l_min := 2; l_avg := Qmean [2; 2]%Q;
          entropy_min := None; entropy_avg := None;
          entropy_effective_min := None; entropy_effective_avg := None |}.
Proof. reflexivity. Qed.

Example np_histogram_example :
  np_histogram [50; 60; 70; 80; 90]%Q [50; 70; 90]%Q = [2; 3]%Z.
Proof. reflexivity. Qed.

Example t_closeness_numeric_income_df :
  exists rep,
    t_closeness unit_pow_neg_third income_df ["zip"] "income" 2 "fd" "tvd" = Ok rep /\
    (t_max rep == 3#10)%Q /\ (t_avg rep == 1#4)%Q /\
    bins rep = Some [140 # 2; 160 # 2; 180 # 2]%Q.
Proof. eexists. split; [vm_compute; reflexivity|]. repeat split. Qed.

Example wasserstein_example :
  wasserstein_distance [0; 1]%Q [0; 3]%Q = Ok (cdf_distance [0; 1]%Q [0; 3]%Q [0; 0; 1; 3]%Q).
Proof. reflexivity. Qed.

Example linkage_simple_df :
  simulate_linkage_attack simple_df aux_test_df ["age_band"; "zip"]
  = Ok {| unique := 0; multiple := 3; none := 1; flagged := [];
          records_tested := 4; reid_probability := (0 / 4)%Q |}.
Proof. reflexivity. Qed.

Example t_closeness_categorical_simple_df :
  t_closeness unit_pow_neg_third simple_df ["age_band"; "zip"] "disease" 5 "fd" "tvd"
  = Ok {| t_max := Qmaximum [_total_variation_distance [1#2; 1#2; 0] [3#5; 1#5; 1#5];
                             _total_variation_distance [2#3; 0; 1#3] [3#5; 1#5; 1#5]]%Q;
          t_avg := Qmean [_total_variation_distance [1#2; 1#2; 0] [3#5; 1#5; 1#5];
                          _total_variation_distance [2#3; 0; 1#3] [3#5; 1#5; 1#5]]%Q;
          bins := None; tc_method := "tvd" |}.
Proof. reflexivity. Qed.

(** ** Column resolution and grouping *)

Lemma key_index_present df c :
  has_column df c = true -> exists i, key_index df c = Ok i.
Proof.
  unfold has_column, key_index.
  destruct (col_index c (columns df)) as [[i d]|]; [eauto | discriminate].
Qed.

Lemma key_index_absent df c :
  has_column df c = false -> key_index df c = Raise (KeyError c).
Proof.
  unfold has_column, key_index.
  destruct (col_index c (columns df)) as [[i d]|]; [discriminate | reflexivity].
Qed.

Lemma mapM_total {A B} (f : A -> result B) (l : list A) :
  (forall a, In a l -> exists b, f a = Ok b) -> exists bs, mapM f l = Ok bs.
Proof.
  induction l as [|a t IH]; intros H; simpl.
  - eauto.
  - destruct (H a (or_introl eq_refl)) as [b Hb]. rewrite Hb. simpl.
    destruct IH as [bs Hbs]; [intros; apply H; now right|].
    rewrite Hbs. simpl. eauto.
Qed.


Lemma mapM_length {A B} (f : A -> result B) (l : list A) bs :
  mapM f l = Ok bs -> length bs = length l.
Proof.
  revert bs. induction l as [|a t IH]; simpl; intros bs H.
  - now inversion H.
  - destruct (f a); simpl in H; [|discriminate].
    destruct (mapM f t); simpl in H; [|discriminate].
    inversion H; subst. simpl. now rewrite (IH _ eq_refl).
Qed.

Lemma mapM_Forall {A B} (P : B -> Prop) (f : A -> result B) (l : list A) bs :
  (forall a b, In a l -> f a = Ok b -> P b) -> mapM f l = Ok bs -> Forall P bs.
Proof.
  revert bs. induction l as [|a t IH]; simpl; intros bs HP H.
  - inversion H. constructor.
  - destruct (f a) eqn:Ea; simpl in H; [|discriminate].
    destruct (mapM f t) eqn:Et; simpl in H; [|discriminate].
    inversion H; subst. constructor; eauto.
Qed.

Lemma resolve_keys_present df qi_cols :
  qi_cols <> [] -> columns_present df qi_cols ->
  exists idx, resolve_keys df qi_cols = Ok idx.
Proof.
  intros Hne Hall. unfold resolve_keys.
  destruct qi_cols as [|c t]; [congruence|].
  apply mapM_total. intros a Ha. apply key_index_present. now apply Hall.
Qed.


Lemma groupby_present df qi_cols :
  qi_cols <> [] -> columns_present df qi_cols ->
  exists idx, groupby df qi_cols = Ok (group_rows idx (rows df)).
Proof.
  intros Hne Hall. destruct (resolve_keys_present df qi_cols Hne Hall) as [idx H].
  exists idx. unfold groupby. now rewrite H.
Qed.


Lemma groupby_no_keys df : is_ok (groupby df []) = false.
Proof. reflexivity. Qed.

Lemma add_to_groups_rows k r gs :
  class_rows (add_to_groups k r gs) = (class_rows gs + 1)%Z.
Proof.
  unfold class_rows, len.
  induction gs as [|[k' rs] t IH]; simpl; [reflexivity|].
  destruct (key_eqb k k'); simpl.
  - rewrite length_app. simpl. lia.
  - rewrite IH. lia.
Qed.

Lemma fold_add_to_groups_rows idx rs gs :
  class_rows (fold_left (fun gs r => add_to_groups (key_of idx r) r gs) rs gs)
  = (class_rows gs + len rs)%Z.
Proof.
  revert gs. unfold len.
  induction rs as [|r t IH]; intros gs; simpl fold_left.
  - simpl. lia.
  - rewrite IH, add_to_groups_rows. simpl length. lia.
Qed.

Lemma group_rows_total idx rs : class_rows (group_rows idx rs) = len rs.
Proof. unfold group_rows. now rewrite fold_add_to_groups_rows. Qed.

Lemma hist_rows_add s h : hist_rows (hist_add s h) = (s + hist_rows h)%Z.
Proof.
  unfold hist_rows.
  induction h as [|[k c] t IH]; simpl; [lia|].
  destruct (Z.eqb_spec s k) as [->|Hne]; simpl; [lia|].
  destruct (s <? k)%Z; simpl; [lia|]. rewrite IH. lia.
Qed.

Lemma hist_rows_value_counts sizes :
  hist_rows (value_counts_sorted sizes) = Zsum sizes.
Proof.
  induction sizes as [|s t IH]; simpl; [reflexivity|].
  now rewrite hist_rows_add, IH.
Qed.

Lemma add_to_groups_members k r gs :
  Permutation (flat_map snd (add_to_groups k r gs)) (r :: flat_map snd gs).
Proof.
  induction gs as [|[k' rs] t IH]; simpl; [reflexivity|].
  destruct (key_eqb k k'); simpl.
  - rewrite <- app_assoc. simpl. symmetry. apply Permutation_middle.
  - rewrite IH. symmetry. apply Permutation_middle.
Qed.

Lemma group_rows_members idx rs :
  Permutation (flat_map snd (group_rows idx rs)) rs.
Proof.
  unfold group_rows.
  assert (H : forall gs,
             Permutation
               (flat_map snd (fold_left (fun gs r => add_to_groups (key_of idx r) r gs) rs gs))
               (flat_map snd gs ++ rs)).
  { induction rs as [|r t IH]; intros gs; simpl fold_left.
    - now rewrite app_nil_r.
    - rewrite IH, add_to_groups_members. simpl. apply Permutation_middle. }
  apply (H []).
Qed.

(** C8. For a frame that has the requested quasi-identifier columns,
    [k_anonymity] returns a report; the equivalence classes hold every row
    exactly once (the classes put together are a permutation of the rows,
    and their sizes add up to the row count), and the size histogram,
    summed as class size times number of classes of that size, gives the
    row count as well. *)
Theorem k_anonymity_histogram_counts_rows df qi_cols :
  qi_cols <> [] -> columns_present df qi_cols ->
  exists grouped rep,
    groupby df qi_cols = Ok grouped /\
    k_anonymity df qi_cols = Ok rep /\
    Permutation (flat_map snd grouped) (rows df) /\
    class_rows grouped = len (rows df) /\
    hist_rows (eq_class_size_hist rep) = len (rows df).
Proof.
  intros Hne Hall.
  destruct (groupby_present df qi_cols Hne Hall) as [idx Hg].
  unfold k_anonymity. rewrite Hg. simpl rbind.
  eexists; eexists. split; [reflexivity|]. split; [reflexivity|].
  split; [apply group_rows_members|].
  split; [apply group_rows_total|].
  cbn [eq_class_size_hist]. rewrite hist_rows_value_counts.
  apply group_rows_total.
Qed.

Lemma k_anonymity_histogram_counts_rows_witness :
  exists grouped rep,
    groupby simple_df ["age_band"; "zip"] = Ok grouped /\
    k_anonymity simple_df ["age_band"; "zip"] = Ok rep /\
    Permutation (flat_map snd grouped) (rows simple_df) /\
    class_rows grouped = len (rows simple_df) /\
    hist_rows (eq_class_size_hist rep) = len (rows simple_df).
Proof.
  apply k_anonymity_histogram_counts_rows.
  - discriminate.
  - intros c [<-|[<-|[]]]; reflexivity.
Defined.

(** ** Linkage attack *)

Lemma count_both_add_keys i m t :
  map fst (count_both_add i m t) = add_key i (map fst t).
Proof.
  induction t as [|[j c] t IH]; simpl; [reflexivity|].
  destruct (Nat.eqb i j); simpl; [reflexivity | now rewrite IH].
Qed.

Lemma add_key_known i ks : In i ks -> add_key i ks = ks.
Proof.
  induction ks as [|j t IH]; simpl; [tauto|].
  intros [->|Hin].
  - now rewrite Nat.eqb_refl.
  - destruct (Nat.eqb i j); [reflexivity | now rewrite IH].
Qed.

Lemma add_key_fresh i ks : ~ In i ks -> add_key i ks = ks ++ [i].
Proof.
  induction ks as [|j t IH]; simpl; [reflexivity|].
  intros Hn. destruct (Nat.eqb_spec i j) as [->|Hne]; [tauto|].
  rewrite IH; tauto.
Qed.

Lemma counts_fold_keys merged t :
  map fst (fold_left (fun t im => count_both_add (fst im) (snd im) t) merged t)
  = fold_left (fun ks (im : nat * merge_indicator) => add_key (fst im) ks) merged (map fst t).
Proof.
  revert t. induction merged as [|im ms IH]; intros t; simpl; [reflexivity|].
  now rewrite IH, count_both_add_keys.
Qed.

Lemma add_key_block i (ms : list (nat * merge_indicator)) ks :
  ms <> [] -> (forall im, In im ms -> fst im = i) -> ~ In i ks ->
  fold_left (fun ks (im : nat * merge_indicator) => add_key (fst im) ks) ms ks = ks ++ [i].
Proof.
  intros Hne Hall Hfresh.
  destruct ms as [|im ms]; [congruence|]. simpl.
  rewrite (Hall im (or_introl eq_refl)), add_key_fresh by assumption.
  assert (Hrest : forall im', In im' ms -> fst im' = i) by (intros; apply Hall; now right).
  clear Hall Hne. induction ms as [|im' ms IH]; simpl; [reflexivity|].
  rewrite (Hrest im' (or_introl eq_refl)).
  rewrite add_key_known by (apply in_or_app; right; now left).
  apply IH. intros; apply Hrest; now right.
Qed.

Lemma flat_map_blocks_keys (f : nat * row -> list (nat * merge_indicator)) aux ks :
  (forall ir, f ir <> [] /\ forall im, In im (f ir) -> fst im = fst ir) ->
  NoDup (map fst aux) -> (forall i, In i (map fst aux) -> ~ In i ks) ->
  fold_left (fun ks (im : nat * merge_indicator) => add_key (fst im) ks)
            (flat_map f aux) ks
  = ks ++ map fst aux.
Proof.
  intros Hf. revert ks.
  induction aux as [|[i r] aux IH]; intros ks Hnd Hfresh; simpl.
  - now rewrite app_nil_r.
  - rewrite fold_left_app. inversion Hnd as [|? ? Hni Hnd']; subst.
    destruct (Hf (i, r)) as [Hne Hall].
    rewrite (add_key_block i (f (i, r)) ks).
    + rewrite IH; [now rewrite <- app_assoc | assumption |].
      intros j Hj Hin. apply in_app_or in Hin as [Hin|[<-|[]]].
      * apply (Hfresh j); [now right | assumption].
      * contradiction.
    + exact Hne.
    + exact Hall.
    + apply Hfresh. now left.
Qed.

Lemma merge_left_keys aux anonymised_rows keys ks :
  NoDup (map fst aux) -> (forall i, In i (map fst aux) -> ~ In i ks) ->
  fold_left (fun ks (im : nat * merge_indicator) => add_key (fst im) ks)
            (merge_left aux anonymised_rows keys) ks
  = ks ++ map fst aux.
Proof.
  unfold merge_left. apply flat_map_blocks_keys.
  intros ir. destruct (filter _ anonymised_rows) as [|a ms].
  - split; [discriminate|]. intros im [<-|[]]. reflexivity.
  - split; [discriminate|]. intros im Hin.
    apply in_map_iff in Hin as [x [<- _]]. reflexivity.
Qed.

Lemma map_fst_combine_seq {A} (l : list A) start :
  map fst (combine (seq start (length l)) l) = seq start (length l).
Proof.
  revert start. induction l as [|a t IH]; intros start; simpl; [reflexivity|].
  now rewrite IH.
Qed.

Lemma counts_by_aux_id_length anonymised_rows (aux_rows : list row) keys :
  length (counts_by_aux_id
            (merge_left (combine (seq 0 (length aux_rows)) aux_rows) anonymised_rows keys))
  = length aux_rows.
Proof.
  unfold counts_by_aux_id.
  rewrite <- (length_map fst), counts_fold_keys, merge_left_keys; simpl.
  - now rewrite map_fst_combine_seq, length_seq.
  - rewrite map_fst_combine_seq. apply seq_NoDup.
  - tauto.
Qed.

Lemma count_both_add_nonneg i m t :
  Forall (fun ic => (0 <= snd ic)%Z) t ->
  Forall (fun ic => (0 <= snd ic)%Z) (count_both_add i m t).
Proof.
  induction 1 as [|[j c] t Hc Ht IH]; simpl.
  - constructor; [destruct m; simpl; lia | constructor].
  - destruct (Nat.eqb i j); constructor; simpl in *; auto.
    destruct m; simpl; lia.
Qed.

Lemma counts_by_aux_id_nonneg merged :
  Forall (fun ic => (0 <= snd ic)%Z) (counts_by_aux_id merged).
Proof.
  unfold counts_by_aux_id.
  assert (H : Forall (fun ic : nat * Z => (0 <= snd ic)%Z) []) by constructor.
  revert H. generalize (@nil (nat * Z)).
  induction merged as [|im ms IH]; intros t Ht; simpl; [assumption|].
  apply IH. now apply count_both_add_nonneg.
Qed.

Lemma three_way_split (counts : list (nat * Z)) :
  Forall (fun ic => (0 <= snd ic)%Z) counts ->
  (len (filter (fun ic => (snd ic =? 1)%Z) counts)
   + len (filter (fun ic => (1 <? snd ic)%Z) counts)
   + len (filter (fun ic => (snd ic =? 0)%Z) counts) = len counts)%Z.
Proof.
  unfold len. induction 1 as [|[i c] t Hc Ht IH]; simpl; [reflexivity|].
  simpl in Hc.
  destruct (Z.eqb_spec c 1), (Z.ltb_spec 1 c), (Z.eqb_spec c 0); simpl length; lia.
Qed.

Lemma len_nonneg {A} (l : list A) : (0 <= len l)%Z.
Proof. unfold len. lia. Qed.

Lemma Qdiv_unit_interval (a b : Z) :
  (0 <= a <= b)%Z -> (0 < b)%Z -> (0 <= inject_Z a / inject_Z b <= 1)%Q.
Proof.
  intros Hab Hb.
  assert (Hb' : (0 < inject_Z b)%Q)
    by (change (inject_Z 0 < inject_Z b)%Q; rewrite <- Zlt_Qlt; exact Hb).
  split.
  - apply Qle_shift_div_l; [assumption|]. rewrite Qmult_0_l.
    change (inject_Z 0 <= inject_Z a)%Q. rewrite <- Zle_Qle. lia.
  - apply Qle_shift_div_r; [assumption|]. rewrite Qmult_1_l.
    rewrite <- Zle_Qle. lia.
Qed.

Lemma keys_clash_same_dtype left right c i j d :
  col_index c (columns left) = Some (i, d) ->
  col_index c (columns right) = Some (j, d) ->
  keys_clash left right c = false.
Proof. unfold keys_clash. intros -> ->. now destruct d. Qed.

Lemma merge_keys_mergeable left right qi_cols :
  mergeable left right qi_cols -> exists keys, merge_keys left right qi_cols = Ok keys.
Proof.
  intros [Hne Hall]. unfold merge_keys.
  destruct (mapM_total (merge_key left right) qi_cols) as [keys Hk].
  { intros a Ha. destruct (Hall a Ha) as (i & j & d & Hl & Hr).
    unfold merge_key. rewrite Hl, Hr. eauto. }
  assert (Hclash : existsb (keys_clash left right) qi_cols = false).
  { apply not_true_is_false. intros H.
    apply existsb_exists in H as (c & Hin & Hc).
    destruct (Hall c Hin) as (i & j & d & Hl & Hr).
    rewrite (keys_clash_same_dtype _ _ _ _ _ _ Hl Hr) in Hc. discriminate. }
  rewrite Hk, Hclash. cbn [rbind].
  destruct qi_cols as [|c t]; [congruence|].
  destruct (xorb _ _); eauto.
Qed.

(** C5 (what the code does).  With plain column names and the
    quasi-identifiers in both frames, [simulate_linkage_attack] on an
    auxiliary frame with rows returns counts with [records_tested] the
    number of auxiliary rows, [unique + multiple + none = records_tested],
    [reid_probability = unique / records_tested] and [reid_probability] in
    [0,1].  On an auxiliary frame without rows it does not reach the
    [else 0.0] of line 62: the comparison [counts > 1] of line 59 raises
    [TypeError]. *)
Theorem simulate_linkage_attack_counts anonymised_df aux_df qi_cols :
  plain_names anonymised_df aux_df qi_cols = true ->
  mergeable aux_df anonymised_df qi_cols ->
  (has_rows aux_df ->
   exists res,
     simulate_linkage_attack anonymised_df aux_df qi_cols = Ok res /\
     records_tested res = len (rows aux_df) /\
     (unique res + multiple res + none res = records_tested res)%Z /\
     reid_probability res = (inject_Z (unique res) / inject_Z (records_tested res))%Q /\
     (0 <= reid_probability res <= 1)%Q) /\
  (rows aux_df = [] ->
   exists msg,
     simulate_linkage_attack anonymised_df aux_df qi_cols = Raise (TypeError msg)).
Proof.
  intros _ Hm. destruct (merge_keys_mergeable _ _ _ Hm) as [keys Hk].
  unfold simulate_linkage_attack. rewrite Hk. cbn [rbind]. split.
  - intros Hrows.
    set (aux := combine (seq 0 (length (rows aux_df))) (rows aux_df)).
    assert (Hlen : len aux = len (rows aux_df)).
    { unfold len, aux. rewrite length_combine, length_seq, Nat.min_id. reflexivity. }
    assert (Hpos : (0 < len aux)%Z).
    { rewrite Hlen. unfold len.
      destruct (rows aux_df) eqn:Er; [exfalso; exact (Hrows Er) | cbn [length]; lia]. }
    destruct aux as [|a0 aux0] eqn:Eaux; [discriminate Hpos|]. rewrite <- Eaux in *.
    cbn [rbind]. eexists. split; [reflexivity|].
    cbn [records_tested unique multiple none reid_probability].
    set (counts := counts_by_aux_id (merge_left aux (rows anonymised_df) keys)).
    assert (Hcounts : len counts = len aux).
    { rewrite Hlen. unfold len, counts. subst aux.
      now rewrite counts_by_aux_id_length. }
    pose proof (three_way_split counts (counts_by_aux_id_nonneg _)) as Hsplit.
    rewrite Hcounts in Hsplit.
    pose proof (len_nonneg (filter (fun ic : nat * Z => (snd ic =? 1)%Z) counts)) as Hu.
    pose proof (len_nonneg (filter (fun ic : nat * Z => (1 <? snd ic)%Z) counts)) as Hmu.
    pose proof (len_nonneg (filter (fun ic : nat * Z => (snd ic =? 0)%Z) counts)) as Hno.
    split; [exact Hlen|]. split; [exact Hsplit|].
    destruct (Z.eqb_spec (len aux) 0) as [Hz|Hnz]; [lia|].
    split; [reflexivity|]. apply Qdiv_unit_interval; lia.
  - intros Hrows. rewrite Hrows. cbn. eauto.
Qed.

Lemma simulate_linkage_attack_counts_witness :
  (exists res,
     simulate_linkage_attack simple_df aux_test_df ["age_band"; "zip"] = Ok res /\
     records_tested res = 4%Z /\
     (unique res + multiple res + none res = records_tested res)%Z /\
     (0 <= reid_probability res <= 1)%Q) /\
  (exists msg,
     simulate_linkage_attack simple_df empty_aux_df ["age_band"; "zip"]
     = Raise (TypeError msg)).
Proof.
  assert (Hm : forall rs,
             mergeable {| columns := columns aux_test_df; rows := rs |} simple_df
                       ["age_band"; "zip"]).
  { intros rs. split; [discriminate|].
    intros c [<-|[<-|[]]]; [exists 0%nat, 0%nat, Object | exists 1%nat, 1%nat, Object];
      split; reflexivity. }
  split.
  - destruct (simulate_linkage_attack_counts simple_df aux_test_df ["age_band"; "zip"])
      as [Hret _]; [reflexivity | apply Hm |].
    destruct Hret as (res & Hres & H1 & H2 & _ & H5); [discriminate|].
    exists res. repeat split; try assumption; apply H5.
  - destruct (simulate_linkage_attack_counts simple_df empty_aux_df ["age_band"; "zip"])
      as [_ Hraise]; [reflexivity | apply Hm |].
    now apply Hraise.
Defined.

(** ** Total variation distance and t-closeness *)

Lemma Qsum_nonneg l : Qnonneg l -> (0 <= Qsum l)%Q.
Proof.
  induction 1 as [|a t Ha Ht IH]; simpl; [apply Qle_refl|]. lra.
Qed.

Lemma Qdiv_nonneg a b : (0 <= a)%Q -> (0 <= b)%Q -> (0 <= a / b)%Q.
Proof.
  intros Ha Hb. unfold Qdiv. apply Qmult_le_0_compat; [assumption|].
  now apply Qinv_le_0_compat.
Qed.

Lemma Qpositive_true q : Qpositive q = true -> (0 < q)%Q.
Proof.
  unfold Qpositive. intros H. apply negb_true_iff in H.
  destruct (Qlt_le_dec 0 q) as [Hlt|Hle]; [assumption|].
  apply Qle_bool_iff in Hle. congruence.
Qed.

Lemma Qpositive_false q : Qpositive q = false -> (q <= 0)%Q.
Proof.
  unfold Qpositive. intros H. apply negb_false_iff in H. now apply Qle_bool_iff.
Qed.

Lemma Qsum_scale l s : (Qsum (map (fun a => a / s) l) == Qsum l / s)%Q.
Proof.
  induction l as [|a t IH]; simpl.
  - unfold Qdiv. now rewrite Qmult_0_l.
  - rewrite IH. unfold Qdiv. ring.
Qed.

Lemma normalise_nonneg p : Qnonneg p -> Qnonneg (normalise p).
Proof.
  intros Hp. unfold normalise.
  destruct (Qpositive (Qsum p)) eqn:E; [|assumption].
  apply Qpositive_true in E.
  unfold Qnonneg in *. rewrite Forall_forall in *. intros x Hx.
  apply in_map_iff in Hx as [a [<- Ha]].
  apply Qdiv_nonneg; [now apply Hp | lra].
Qed.

Lemma normalise_sum_le_1 p : (Qsum (normalise p) <= 1)%Q.
Proof.
  unfold normalise. destruct (Qpositive (Qsum p)) eqn:E.
  - apply Qpositive_true in E. rewrite Qsum_scale.
    apply Qle_shift_div_r; [assumption | lra].
  - apply Qpositive_false in E. lra.
Qed.

Lemma Qsum_cons a l : Qsum (a :: l) = (a + Qsum l)%Q.
Proof. reflexivity. Qed.

Lemma abs_diff_sum_bound p q :
  Qnonneg p -> Qnonneg q ->
  (Qsum (map (fun ab => Qabs (fst ab - snd ab)) (combine p q)) <= Qsum p + Qsum q)%Q.
Proof.
  intros Hp. revert q.
  induction Hp as [|a p Ha Hp IH]; intros q Hq.
  - change (0 <= Qsum [] + Qsum q)%Q. pose proof (Qsum_nonneg q Hq).
    change (Qsum []) with 0%Q. lra.
  - destruct Hq as [|b q Hb Hq].
    + change (0 <= Qsum (a :: p) + Qsum [])%Q.
      pose proof (Qsum_nonneg (a :: p) (Forall_cons _ Ha Hp)).
      change (Qsum []) with 0%Q. lra.
    + change (Qabs (a - b) + Qsum (map (fun ab => Qabs (fst ab - snd ab)) (combine p q))
              <= Qsum (a :: p) + Qsum (b :: q))%Q.
      rewrite !Qsum_cons. specialize (IH q Hq).
      assert (Habs : (Qabs (a - b) <= a + b)%Q) by (apply Qabs_Qle_condition; lra).
      lra.
Qed.

Lemma abs_diff_sum_nonneg (l : list (Q * Q)) :
  (0 <= Qsum (map (fun ab => Qabs (fst ab - snd ab)) l))%Q.
Proof.
  induction l as [|ab t IH]; [apply Qle_refl|].
  change (0 <= Qabs (fst ab - snd ab)
               + Qsum (map (fun ab => Qabs (fst ab - snd ab)) t))%Q.
  pose proof (Qabs_nonneg (fst ab - snd ab)). lra.
Qed.

(** The distance of two non-negative vectors lies in [0,1]. *)
Lemma total_variation_distance_unit_interval p q :
  Qnonneg p -> Qnonneg q -> in_unit_interval (_total_variation_distance p q).
Proof.
  intros Hp Hq. unfold in_unit_interval, _total_variation_distance.
  pose proof (abs_diff_sum_nonneg (combine (normalise p) (normalise q))) as H0.
  pose proof (abs_diff_sum_bound _ _ (normalise_nonneg p Hp) (normalise_nonneg q Hq)) as H1.
  pose proof (normalise_sum_le_1 p). pose proof (normalise_sum_le_1 q).
  split; lra.
Qed.

Lemma counts_to_probs_nonneg counts :
  Forall (fun c => (0 <= c)%Z) counts -> Qnonneg (counts_to_probs counts).
Proof.
  intros Hc. unfold counts_to_probs, Qnonneg.
  assert (Hinj : forall c, (0 <= c)%Z -> (0 <= inject_Z c)%Q).
  { intros c H. change (inject_Z 0 <= inject_Z c)%Q. now rewrite <- Zle_Qle. }
  destruct (Z.ltb_spec 0 (Zsum counts)) as [Hs|Hs]; rewrite Forall_forall in *;
    intros x Hx; apply in_map_iff in Hx as [c [<- Hin]].
  - apply Qdiv_nonneg; apply Hinj; [now apply Hc | lia].
  - apply Hinj. now apply Hc.
Qed.

Lemma np_histogram_nonneg values edges :
  Forall (fun c => (0 <= c)%Z) (np_histogram values edges).
Proof.
  induction edges as [|lo tl IH]; simpl; [constructor|].
  destruct tl as [|hi rest]; [constructor|].
  destruct rest as [|e rest'].
  - constructor; [apply len_nonneg | constructor].
  - constructor; [apply len_nonneg | exact IH].
Qed.

Lemma count_add_nonneg v t :
  Forall (fun vc => (0 <= snd vc)%Z) t -> Forall (fun vc => (0 <= snd vc)%Z) (count_add v t).
Proof.
  induction 1 as [|[w c] t Hc Ht IH]; simpl.
  - constructor; [simpl; lia | constructor].
  - destruct (value_eqb v w); constructor; simpl in *; auto; lia.
Qed.

Lemma value_counts_nonneg l : Forall (fun vc => (0 <= snd vc)%Z) (value_counts l).
Proof.
  unfold value_counts.
  assert (H : Forall (fun vc : value * Z => (0 <= snd vc)%Z) []) by constructor.
  revert H. generalize (@nil (value * Z)).
  induction l as [|v t IH]; intros acc Hacc; simpl; [assumption|].
  apply IH. now apply count_add_nonneg.
Qed.

Lemma reindex_probs_nonneg cats l : Qnonneg (reindex_probs cats l).
Proof.
  unfold reindex_probs, Qnonneg. rewrite Forall_forall. intros x Hx.
  apply in_map_iff in Hx as [c [<- _]].
  destruct (find _ _) as [[v n]|] eqn:E; [|apply Qle_refl].
  apply find_some in E as [Hin _].
  pose proof (value_counts_nonneg (dropna l)) as Hnn.
  rewrite Forall_forall in Hnn. specialize (Hnn _ Hin). simpl in Hnn.
  apply Qdiv_nonneg.
  - change (inject_Z 0 <= inject_Z n)%Q. now rewrite <- Zle_Qle.
  - change (inject_Z 0 <= inject_Z (len (dropna l)))%Q. rewrite <- Zle_Qle. apply len_nonneg.
Qed.

Lemma Qmaximum_unit_interval l :
  Forall in_unit_interval l -> in_unit_interval (Qmaximum l).
Proof.
  unfold Qmaximum. intros H. destruct H as [|a t Ha Ht].
  - unfold in_unit_interval. lra.
  - revert a Ha. induction Ht as [|b t Hb Ht IH]; intros a Ha; simpl; [assumption|].
    apply IH. now destruct (Qle_bool a b).
Qed.

Lemma Qsum_unit_interval l :
  Forall in_unit_interval l -> (0 <= Qsum l <= inject_Z (len l))%Q.
Proof.
  unfold len, in_unit_interval.
  induction 1 as [|a t Ha Ht IH]; simpl Qsum.
  - change (0 <= 0 <= 0)%Q. lra.
  - replace (Z.of_nat (length (a :: t))) with (Z.of_nat (length t) + 1)%Z by (simpl length; lia).
    rewrite inject_Z_plus. change (inject_Z 1) with 1%Q. lra.
Qed.

Lemma Qmean_unit_interval l :
  l <> [] -> Forall in_unit_interval l -> in_unit_interval (Qmean l).
Proof.
  intros Hne H. pose proof (Qsum_unit_interval l H) as Hs.
  unfold in_unit_interval, Qmean. fold (len l).
  assert (Hpos : (0 < inject_Z (len l))%Q).
  { change (inject_Z 0 < inject_Z (len l))%Q. rewrite <- Zlt_Qlt.
    unfold len. destruct l; [congruence | simpl; lia]. }
  split.
  - apply Qle_shift_div_l; [assumption | lra].
  - apply Qle_shift_div_r; [assumption | lra].
Qed.

Lemma linspace_returns start stop num :
  (0 <= num)%Z -> exists l, linspace start stop num = Ok l.
Proof.
  intros H. unfold linspace.
  destruct (Z.ltb_spec num 0); [lia|]. destruct (num =? 1)%Z; eauto.
Qed.

Lemma histogram_bin_edges_returns x bin_count :
  (1 <= bin_count)%Z -> exists edges, histogram_bin_edges x bin_count = Ok edges.
Proof.
  intros H. unfold histogram_bin_edges.
  destruct (Qeq_bool _ _); apply linspace_returns; lia.
Qed.

Lemma getitem_present df col :
  has_column df col = true -> exists s, getitem df col = Ok s.
Proof.
  unfold has_column, getitem.
  destruct (col_index col (columns df)) as [[i d]|]; [eauto | discriminate].
Qed.


Lemma groupby_col_present df qi_cols col :
  qi_cols <> [] -> columns_present df qi_cols -> has_column df col = true ->
  exists grp, groupby_col df qi_cols col = Ok grp.
Proof.
  intros Hne Hall Hc. destruct (groupby_present df qi_cols Hne Hall) as [idx Hg].
  unfold groupby_col. rewrite Hg. simpl. unfold has_column in Hc.
  destruct (col_index col (columns df)) as [[i d]|]; [eauto | discriminate].
Qed.


Section TClosenessProperties.

Variable pow_neg_third : Z -> Q.

(** With the TVD method, whatever [dist_func] the analyzer binds returns a
    distance in [0,1] for every class. *)
Lemma tvd_dist_func_unit_interval s numeric_bins binning_method bins f :
  t_closeness_locals pow_neg_third s numeric_bins binning_method "tvd" = Ok (bins, Some f) ->
  forall subs, exists d, f subs = Ok d /\ in_unit_interval d.
Proof.
  unfold t_closeness_locals.
  destruct (is_numeric_dtype s).
  - destruct (numbers (s_values s)) as [|x0 xs] eqn:Ex.
    + intros H; inversion H; subst. intros subs. exists 0%Q.
      split; [reflexivity | unfold in_unit_interval; lra].
    + destruct (String.eqb binning_method "quantile").
      * destruct (linspace 0 1 (numeric_bins + 1)); simpl; discriminate.
      * destruct (histogram_bin_edges (x0 :: xs) _) as [edges|e]; simpl; [|discriminate].
        intros H; inversion H; subst. intros subs.
        change (String.eqb "tvd" "emd") with false. cbv iota.
        eexists. split; [reflexivity|].
        apply total_variation_distance_unit_interval;
          apply counts_to_probs_nonneg, np_histogram_nonneg.
  - intros H; inversion H; subst. intros subs.
    eexists. split; [reflexivity|].
    apply total_variation_distance_unit_interval; apply reindex_probs_nonneg.
Qed.

Lemma t_closeness_locals_bound s numeric_bins binning_method t_method :
  binning_method <> "quantile" ->
  exists bins f,
    t_closeness_locals pow_neg_third s numeric_bins binning_method t_method = Ok (bins, Some f).
Proof.
  intros Hbm. unfold t_closeness_locals.
  destruct (is_numeric_dtype s); [|eauto].
  destruct (numbers (s_values s)) as [|x0 xs]; [eauto|].
  destruct (String.eqb_spec binning_method "quantile") as [|_]; [contradiction|].
  match goal with
  | |- context [histogram_bin_edges ?x ?bc] =>
      destruct (histogram_bin_edges_returns x bc) as [edges He]; [lia|]; rewrite He
  end.
  simpl. eauto.
Qed.

(** C7. With the TVD method, every report [t_closeness] returns has
    [t_max] and [t_avg] in [0,1], for a categorical and for a numeric
    sensitive column and for any bin count; and it does return one for a
    frame that has the requested columns (Freedman-Diaconis binning, the
    default). *)
Theorem t_closeness_tvd_unit_interval df qi_cols sensitive_col numeric_bins binning_method :
  (qi_cols <> [] -> columns_present df qi_cols -> has_column df sensitive_col = true ->
   binning_method <> "quantile" ->
   exists rep,
     t_closeness pow_neg_third df qi_cols sensitive_col numeric_bins binning_method "tvd"
     = Ok rep) /\
  (forall rep,
     t_closeness pow_neg_third df qi_cols sensitive_col numeric_bins binning_method "tvd"
     = Ok rep ->
     in_unit_interval (t_max rep) /\ in_unit_interval (t_avg rep)).
Proof.
  split.
  - intros Hne Hall Hs Hbm. unfold t_closeness.
    destruct (getitem_present df sensitive_col Hs) as [s ->]. simpl.
    destruct (t_closeness_locals_bound s numeric_bins binning_method "tvd" Hbm)
      as (bins & f & Hl).
    rewrite Hl. simpl.
    destruct (groupby_col_present df qi_cols sensitive_col Hne Hall Hs) as [grp ->]. simpl.
    destruct (mapM_total (fun g => f (snd g)) grp) as [ts ->]; [|simpl; eauto].
    intros g _. destruct (tvd_dist_func_unit_interval _ _ _ _ _ Hl (snd g)) as [d [Hd _]].
    eauto.
  - intros rep. unfold t_closeness.
    destruct (getitem df sensitive_col) as [s|e]; simpl; [|discriminate].
    destruct (t_closeness_locals _ s _ _ _) as [[bins [f|]]|e] eqn:Hl; simpl; try discriminate.
    + destruct (groupby_col df qi_cols sensitive_col) as [grp|e]; simpl; [|discriminate].
      destruct (mapM _ grp) as [ts|e] eqn:Hts; simpl; [|discriminate].
      intros H; inversion H; subst; clear H. cbn [t_max t_avg].
      assert (Hall : Forall in_unit_interval ts).
      { refine (mapM_Forall _ _ _ _ _ Hts). intros g d _ Hg. simpl in Hg.
        destruct (tvd_dist_func_unit_interval _ _ _ _ _ Hl (snd g)) as [d' [Hd' Hu]].
        rewrite Hd' in Hg. inversion Hg; subst. exact Hu. }
      destruct ts as [|t0 ts'].
      * unfold in_unit_interval. split; lra.
      * split; [now apply Qmaximum_unit_interval|].
        apply Qmean_unit_interval; [discriminate | assumption].
    + destruct (groupby_col df qi_cols sensitive_col); simpl; discriminate.
Qed.

End TClosenessProperties.

Lemma t_closeness_tvd_unit_interval_witness :
  exists rep,
    t_closeness unit_pow_neg_third income_df ["zip"] "income" 2 "fd" "tvd" = Ok rep /\
    in_unit_interval (t_max rep) /\ in_unit_interval (t_avg rep).
Proof.
  destruct (t_closeness_tvd_unit_interval unit_pow_neg_third income_df ["zip"]
              "income" 2 "fd") as [Hret Hprop].
  destruct Hret as [rep Hrep].
  - discriminate.
  - intros c [<-|[]]; reflexivity.
  - reflexivity.
  - discriminate.
  - exists rep. split; [exact Hrep | exact (Hprop rep Hrep)].
Defined.

(** ** Quantile binning and the reported bin edges *)

Section QuantileBinning.

Variable pow_neg_third : Z -> Q.

(** With quantile binning on a numeric column that has a value, the bin
    edges are computed as specified, but no distance function is bound. *)
Lemma quantile_locals s numeric_bins t_method :
  is_numeric_dtype s = true -> numbers (s_values s) <> [] -> (0 <= numeric_bins + 1)%Z ->
  exists quantiles,
    linspace 0 1 (numeric_bins + 1) = Ok quantiles /\
    t_closeness_locals pow_neg_third s numeric_bins "quantile" t_method
    = Ok (Some (np_unique (map (np_quantile (numbers (s_values s))) quantiles)), None).
Proof.
  intros Hnum Hx Hnb. unfold t_closeness_locals. rewrite Hnum.
  destruct (numbers (s_values s)) as [|x0 xs]; [congruence|].
  change (String.eqb "quantile" "quantile") with true. cbv iota.
  destruct (linspace_returns 0 1 (numeric_bins + 1) Hnb) as [qs Hq].
  exists qs. rewrite Hq. split; reflexivity.
Qed.

(** C2. On a numeric sensitive column with at least one value,
    [t_closeness] with quantile binning never returns a report; with
    valid columns and a bin count of at least one it raises
    [UnboundLocalError] for [dist_func]. *)
Theorem t_closeness_quantile_raises df qi_cols sensitive_col numeric_bins t_method s :
  getitem df sensitive_col = Ok s ->
  is_numeric_dtype s = true -> numbers (s_values s) <> [] ->
  is_ok (t_closeness pow_neg_third df qi_cols sensitive_col numeric_bins "quantile" t_method)
  = false /\
  (qi_cols <> [] -> columns_present df qi_cols -> (1 <= numeric_bins)%Z ->
   t_closeness pow_neg_third df qi_cols sensitive_col numeric_bins "quantile" t_method
   = Raise (UnboundLocalError "dist_func")).
Proof.
  intros Hs Hnum Hx. unfold t_closeness. rewrite Hs. simpl rbind.
  assert (Hcol : has_column df sensitive_col = true).
  { unfold getitem in Hs. unfold has_column.
    destruct (col_index sensitive_col (columns df)) as [[i d]|]; [reflexivity | discriminate]. }
  split.
  - unfold t_closeness_locals. rewrite Hnum.
    destruct (numbers (s_values s)) as [|x0 xs]; [congruence|].
    change (String.eqb "quantile" "quantile") with true. cbv iota.
    destruct (linspace 0 1 (numeric_bins + 1)); simpl; [|reflexivity].
    destruct (groupby_col df qi_cols sensitive_col); reflexivity.
  - intros Hne Hall Hnb.
    destruct (quantile_locals s numeric_bins t_method Hnum Hx) as (qs & _ & ->); [lia|].
    simpl rbind.
    destruct (groupby_col_present df qi_cols sensitive_col Hne Hall Hcol) as [grp ->].
    reflexivity.
Qed.

(** C4 (as amended). A report returned by [t_closeness] carries bin edges
    exactly when the sensitive column is numeric and has a non-missing
    value, whatever the distance method; for a categorical column, or a
    numeric one without values, [bins] is [None]. *)
Theorem t_closeness_bins_reported df qi_cols sensitive_col numeric_bins binning_method
    t_method s rep :
  getitem df sensitive_col = Ok s ->
  t_closeness pow_neg_third df qi_cols sensitive_col numeric_bins binning_method t_method
  = Ok rep ->
  (bins rep = None <-> is_numeric_dtype s = false \/ numbers (s_values s) = []).
Proof.
  intros Hs. unfold t_closeness. rewrite Hs. simpl rbind.
  destruct (t_closeness_locals _ s _ _ _) as [[b f]|e] eqn:Hl; simpl rbind; [|discriminate].
  intros H.
  assert (Hb : bins rep = b).
  { destruct (groupby_col df qi_cols sensitive_col); simpl in H; [|discriminate].
    destruct f as [f|]; simpl in H; [|discriminate].
    destruct (mapM _ _); simpl in H; [|discriminate].
    inversion H; subst. reflexivity. }
  rewrite Hb. clear H Hb. unfold t_closeness_locals in Hl.
  destruct (is_numeric_dtype s).
  - destruct (numbers (s_values s)) as [|x0 xs].
    + inversion Hl; subst. split; [now right | reflexivity].
    + destruct (String.eqb binning_method "quantile").
      * destruct (linspace 0 1 (numeric_bins + 1)); simpl in Hl; [|discriminate].
        inversion Hl; subst. split; [discriminate | intros [|]; discriminate].
      * destruct (histogram_bin_edges (x0 :: xs) _); simpl in Hl; [|discriminate].
        inversion Hl; subst. split; [discriminate | intros [|]; discriminate].
  - inversion Hl; subst. split; [now left | reflexivity].
Qed.

End QuantileBinning.

Lemma t_closeness_quantile_raises_witness :
  t_closeness unit_pow_neg_third income_df ["zip"] "income" 15 "quantile" "tvd"
  = Raise (UnboundLocalError "dist_func").
Proof.
  refine (proj2 (t_closeness_quantile_raises unit_pow_neg_third income_df ["zip"] "income" 15
                   "tvd" _ eq_refl eq_refl _) _ _ _).
  - discriminate.
  - discriminate.
  - intros c [<-|[]]; reflexivity.
  - lia.
Defined.

Lemma t_closeness_emd_reports_bins :
  exists rep,
    t_closeness unit_pow_neg_third income_df ["zip"] "income" 2 "fd" "emd" = Ok rep /\
    bins rep = Some [140 # 2; 160 # 2; 180 # 2]%Q /\
    ~ bins_only_for_numeric_tvd unit_pow_neg_third.
Proof.
  eexists. split; [vm_compute; reflexivity|]. split; [reflexivity|].
  intros H.
  destruct (H income_df ["zip"] "income" 2%Z "fd" "emd" _ _ eq_refl eq_refl) as [_ Hm];
    discriminate.
Qed.

Lemma t_closeness_bins_reported_witness :
  exists rep,
    t_closeness unit_pow_neg_third income_df ["zip"] "income" 2 "fd" "emd" = Ok rep /\
    (bins rep = None <-> true = false \/ [70; 70; 70; 70; 90]%Q = []).
Proof.
  eexists. split; [vm_compute; reflexivity|].
  refine (t_closeness_bins_reported unit_pow_neg_third income_df ["zip"] "income" 2 "fd" "emd"
            {| s_dtype := Numeric; s_values := [VNum 70; VNum 70; VNum 70; VNum 70; VNum 90] |}
            _ eq_refl _).
  vm_compute. reflexivity.
Defined.

(** ** L-diversity on a frame without rows *)

Lemma pow2_0 : pow2 0 = 1%R.
Proof. unfold pow2. apply Rpower_O. lra. Qed.

Lemma groupby_col_no_rows df qi_cols col :
  rows df = [] -> qi_cols <> [] -> columns_present df qi_cols -> has_column df col = true ->
  groupby_col df qi_cols col = Ok [].
Proof.
  intros Hrows Hne Hall Hc.
  destruct (groupby_present df qi_cols Hne Hall) as [idx Hg].
  unfold groupby_col. rewrite Hg, Hrows. simpl. unfold has_column in Hc.
  destruct (col_index col (columns df)) as [[i d]|]; [reflexivity | discriminate].
Qed.

(** C10. On a frame without rows the entropy method reports entropy 0,
    effective diversity [2 ** 0 = 1], and distinct-count diversity 0. *)
Theorem l_diversity_entropy_no_rows df qi_cols sensitive_col :
  rows df = [] -> qi_cols <> [] -> columns_present df qi_cols ->
  has_column df sensitive_col = true ->
  l_diversity df qi_cols sensitive_col "entropy"
  = Ok {| method := "entropy"; l_min := 0; l_avg := 0;
          entropy_min := Some 0%R; entropy_avg := Some 0%R;
          entropy_effective_min := Some 1%R; entropy_effective_avg := Some 1%R |}.
Proof.
  intros Hrows Hne Hall Hc. unfold l_diversity.
  rewrite (groupby_col_no_rows df qi_cols sensitive_col Hrows Hne Hall Hc).
  cbn [rbind]. change (String.eqb "entropy" "distinct") with false.
  change (String.eqb "entropy" "entropy") with true. cbv iota.
  cbn [map filter]. rewrite pow2_0. reflexivity.
Qed.

Lemma l_diversity_entropy_no_rows_witness :
  l_diversity empty_df ["age_band"; "zip"] "disease" "entropy"
  = Ok {| method := "entropy"; l_min := 0; l_avg := 0;
          entropy_min := Some 0%R; entropy_avg := Some 0%R;
          entropy_effective_min := Some 1%R; entropy_effective_avg := Some 1%R |}.
Proof.
  apply l_diversity_entropy_no_rows.
  - reflexivity.
  - discriminate.
  - intros c [<-|[<-|[]]]; reflexivity.
  - reflexivity.
Defined.

(** ** The bound frame is never written *)

Section FrameProperties.

Variable pow_neg_third : Z -> Q.
Variable correlation_scan :
  DataFrame -> list string -> string -> list CorrelationEntry * option string.

Lemma full_report_world p external_df w :
  exists lines,
    snd (full_report pow_neg_third correlation_scan p external_df w) = append_log w lines.
Proof.
  unfold full_report.
  destruct (suggest_thresholds (self_df w) (qi p) (sensitive p)).
  - destruct (attempt (k_anonymity _ _) _ _) as [[krep k_dict] k_line].
    destruct (attempt (l_diversity _ _ _ _) _ _) as [[lrep ldict] l_line].
    destruct (attempt (t_closeness _ _ _ _ _ _ _) _ _) as [[trep t_dict] t_line].
    simpl. eauto.
  - exists []. simpl. unfold append_log. rewrite app_nil_r. now destruct w.
Qed.

End FrameProperties.

(** ** The frames of the caller *)




(** The model tells a body that works in place on the bound frame from the
    bodies of the source: one such step and the frame is no longer the
    caller's. *)
Example drop_in_place_changes_frame :
  perform_all (fun _ _ => empty_df) steps_with_drop_in_place
    {| bound_frame := simple_df; external_frame := None |}
  <> {| bound_frame := simple_df; external_frame := None |}.
Proof.
  intros H. apply (f_equal (fun fs => length (rows (bound_frame fs)))) in H.
  vm_compute in H. discriminate.
Qed.



(** ** Report assembly: analyzer failures and missing columns *)

Lemma has_column_false df c :
  has_column df c = false -> col_index c (columns df) = None.
Proof.
  unfold has_column. destruct (col_index c (columns df)); [discriminate | reflexivity].
Qed.



Lemma attempt_raised {A} (r : result A) ok err :
  is_ok r = false -> fst (fst (attempt r ok err)) = None /\
                     snd (fst (attempt r ok err)) = NullPlaceholder.
Proof. destruct r; [discriminate | split; reflexivity]. Qed.

Lemma attempt_returned {A} (r : result A) ok err rep :
  r = Ok rep -> fst (fst (attempt r ok err)) = Some rep /\
                snd (fst (attempt r ok err)) = Computed rep.
Proof. intros ->. split; reflexivity. Qed.

Lemma rbind_raises {A B} (r : result A) (k : A -> result B) :
  is_ok r = false -> is_ok (rbind r k) = false.
Proof. destruct r; [discriminate | reflexivity]. Qed.

Lemma rbind_then_raises {A B} (r : result A) (k : A -> result B) :
  (forall a, is_ok (k a) = false) -> is_ok (rbind r k) = false.
Proof. intros H. destruct r; [apply H | reflexivity]. Qed.

Lemma risk_section_unbound p krep lrep trep :
  unbound_report_read p krep lrep trep ->
  is_ok (risk_section p krep lrep trep) = false.
Proof.
  unfold risk_section. intros [[-> Hk]|[[-> Hl]|[-> Ht]]].
  - destruct (k_required p); [reflexivity | congruence].
  - apply rbind_then_raises; intros fr1. apply rbind_raises.
    destruct (l_required p); [|congruence].
    destruct (String.eqb (l_method p) "entropy"); reflexivity.
  - apply rbind_then_raises; intros fr1. apply rbind_then_raises; intros fr2.
    apply rbind_raises. destruct (t_required p); [reflexivity | congruence].
Qed.

Lemma risk_section_no_thresholds p krep lrep trep :
  k_required p = None -> l_required p = None -> t_required p = None ->
  risk_section p krep lrep trep = Ok ([], []).
Proof. unfold risk_section. intros -> -> ->. reflexivity. Qed.

Lemma class_patterns_present p df :
  qi p <> [] -> columns_present df (qi p) -> has_column df (sensitive p) = true ->
  exists cls, class_patterns p df = Ok cls.
Proof.
  intros Hne Hall Hs. unfold class_patterns.
  destruct (groupby_present df (qi p) Hne Hall) as [idx ->]. simpl.
  destruct (key_index_present df (sensitive p) Hs) as [i ->]. simpl. eauto.
Qed.




Section AssemblyProperties.

Variable pow_neg_third : Z -> Q.
Variable correlation_scan :
  DataFrame -> list string -> string -> list CorrelationEntry * option string.

(** C1 (what the code does). When an analyzer raises and the threshold
    of that metric is supplied, [full_report] returns no report: the risk
    section reads the report variable that the failed [try] block never
    bound, and the exception reaches the caller. *)
Theorem full_report_raises_after_analyzer_failure p external_df w :
  analyzer_failed_under_threshold pow_neg_third p (self_df w) ->
  is_ok (fst (full_report pow_neg_third correlation_scan p external_df w)) = false.
Proof.
  intros Hfail. unfold full_report.
  destruct (suggest_thresholds (self_df w) (qi p) (sensitive p)); [|reflexivity].
  destruct (attempt (k_anonymity _ _) _ _) as [[krep k_dict] k_line] eqn:Ek.
  destruct (attempt (l_diversity _ _ _ _) _ _) as [[lrep ldict] l_line] eqn:El.
  destruct (attempt (t_closeness _ _ _ _ _ _ _) _ _) as [[trep t_dict] t_line] eqn:Et.
  cbn [fst]. apply rbind_raises. apply risk_section_unbound.
  destruct Hfail as [[H Hr]|[[H Hr]|[H Hr]]].
  - left. split; [|assumption].
    destruct (attempt_raised _ DebugResultK DebugErrorK H) as [Hn _].
    rewrite Ek in Hn. exact Hn.
  - right; left. split; [|assumption].
    destruct (attempt_raised _ DebugResultL DebugErrorL H) as [Hn _].
    rewrite El in Hn. exact Hn.
  - right; right. split; [|assumption].
    destruct (attempt_raised _ DebugResultT DebugErrorT H) as [Hn _].
    rewrite Et in Hn. exact Hn.
Qed.

(** Without thresholds and without an auxiliary frame the assembled report
    is returned, with the placeholder for each analyzer that raised and the
    computed report for each that returned. *)
Lemma full_report_isolates_failures p w :
  k_required p = None -> l_required p = None -> t_required p = None ->
  qi p <> [] -> columns_present (self_df w) (qi p) ->
  has_column (self_df w) (sensitive p) = true ->
  exists rep,
    fst (full_report pow_neg_third correlation_scan p None w) = Ok rep /\
    rep_k_anonymity rep
    = match k_anonymity (self_df w) (qi p) with
      | Ok r => Computed r | Raise _ => NullPlaceholder end /\
    rep_l_diversity rep
    = match l_diversity (self_df w) (qi p) (sensitive p) (l_method p) with
      | Ok r => Computed r | Raise _ => NullPlaceholder end /\
    rep_t_closeness rep
    = match t_closeness pow_neg_third (self_df w) (qi p) (sensitive p) (numeric_bins p)
                        (binning_method p) (t_method p) with
      | Ok r => Computed r | Raise _ => NullPlaceholder end.
Proof.
  intros Hk Hl Ht Hne Hall Hs. unfold full_report.
  destruct (getitem_present _ _ Hs) as [s Hget].
  unfold suggest_thresholds. rewrite Hget. cbn [rbind].
  destruct (class_patterns_present p (self_df w) Hne Hall Hs) as [cls Hcls].
  destruct (k_anonymity _ _); destruct (l_diversity _ _ _ _);
    destruct (t_closeness _ _ _ _ _ _ _); cbn [attempt fst snd];
    rewrite (risk_section_no_thresholds p _ _ _ Hk Hl Ht); cbn [rbind];
    rewrite Hcls; cbn [rbind]; eexists; (split; [reflexivity|]);
    repeat split.
Qed.

End AssemblyProperties.

Lemma full_report_raises_after_analyzer_failure_witness :
  analyzer_failed_under_threshold unit_pow_neg_third quantile_params simple_df /\
  is_ok (fst (full_report unit_pow_neg_third no_correlation quantile_params None
                          (fresh_validator simple_df))) = false.
Proof.
  assert (H : analyzer_failed_under_threshold unit_pow_neg_third quantile_params simple_df).
  { right; right. split; [reflexivity | discriminate]. }
  split; [exact H|].
  exact (full_report_raises_after_analyzer_failure unit_pow_neg_third no_correlation
           quantile_params None (fresh_validator simple_df) H).
Defined.

(** The exception that reaches the caller names the unbound report. *)
Example full_report_quantile_threshold :
  fst (full_report unit_pow_neg_third no_correlation quantile_params None
                   (fresh_validator simple_df))
  = Raise (UnboundLocalError "trep").
Proof. vm_compute. reflexivity. Qed.

Example full_report_bad_method_threshold :
  fst (full_report unit_pow_neg_third no_correlation bad_method_params None
                   (fresh_validator simple_df))
  = Raise (UnboundLocalError "lrep").
Proof. vm_compute. reflexivity. Qed.

(** The same bad method name without [l_required]: the report is returned
    with the placeholder for l-diversity and the two other metrics
    computed. *)
Example full_report_bad_method_no_threshold :
  exists rep k t,
    fst (full_report unit_pow_neg_third no_correlation
           {| qi := ["age_band"; "zip"]; sensitive := "disease";
              k_required := None; l_required := None; l_method := "gini";
              t_required := None; numeric_bins := 15; reid_required := None;
              dominance_threshold := 9#10; rare_threshold := 1;
              binning_method := "fd"; t_method := "tvd" |}
           None (fresh_validator simple_df)) = Ok rep /\
    rep_k_anonymity rep = Computed k /\
    rep_l_diversity rep = NullPlaceholder /\
    rep_t_closeness rep = Computed t.
Proof.
  eexists; eexists; eexists. split; [vm_compute; reflexivity|].
  repeat split.
Qed.


(** ** Entropy l-diversity and classes with a missing quasi-identifier *)

Lemma l_diversity_entropy_unfold df qi_cols sensitive_col grp :
  groupby_col df qi_cols sensitive_col = Ok grp ->
  l_diversity df qi_cols sensitive_col "entropy"
  = let entropies :=
      map (fun kp => _safe_entropy (snd kp))
          (filter (fun kp => negb (key_has_na (fst kp)))
                  (map (fun g => (fst g, value_probs (snd g))) grp)) in
    let entropy_min := match entropies with [] => 0%R | _ => Rminimum entropies end in
    let entropy_avg := match entropies with [] => 0%R | _ => Rmean entropies end in
    let distinct_l := map (fun g => inject_Z (nunique (snd g))) grp in
    Ok {| method := "entropy";
          l_min := match distinct_l with [] => 0%Q | _ => Qminimum distinct_l end;
          l_avg := match distinct_l with [] => 0%Q | _ => Qmean distinct_l end;
          entropy_min := Some entropy_min; entropy_avg := Some entropy_avg;
          entropy_effective_min := Some (pow2 entropy_min);
          entropy_effective_avg := Some (pow2 entropy_avg) |}.
Proof. intros H. unfold l_diversity. rewrite H. reflexivity. Qed.

Lemma ln2_neq_0 : ln 2 <> 0%R.
Proof. apply ln_neq_0; lra. Qed.

Lemma log2_half : log2 (Q2R (1#2)) = (-1)%R.
Proof.
  unfold log2, Q2R. cbn [Qnum Qden].
  replace (1 * / IZR (Z.pos 2))%R with (/ 2)%R by lra.
  rewrite ln_Rinv by lra. field. exact ln2_neq_0.
Qed.

Lemma safe_entropy_two_halves : _safe_entropy [1#2; 1#2]%Q = 1%R.
Proof.
  unfold _safe_entropy.
  change (filter Qpositive [1#2; 1#2]%Q) with [1#2; 1#2]%Q.
  cbn [map Rsum fold_right]. rewrite log2_half.
  unfold Q2R. cbn [Qnum Qden]. lra.
Qed.

Lemma pow2_1 : pow2 1 = 2%R.
Proof. unfold pow2. apply Rpower_1. lra. Qed.

(** *** Effective diversity against the distinct count, class by class *)

Lemma ln_le_minus_1 x : (0 < x -> ln x <= x - 1)%R.
Proof.
  intros Hx. pose proof (exp_ineq1_le (ln x)) as H.
  rewrite exp_ln in H by assumption. lra.
Qed.

Lemma Rsum_cons a l : Rsum (a :: l) = (a + Rsum l)%R.
Proof. reflexivity. Qed.

(** Gibbs' inequality against the constant [c], term by term. *)
Lemma entropy_terms_bound (ps : list R) (c : R) :
  Forall (fun p => 0 < p)%R ps -> (0 < c)%R ->
  (- Rsum (map (fun p => p * ln p) ps) + ln c * Rsum ps
   <= c * INR (length ps) - Rsum ps)%R.
Proof.
  intros Hps Hc. induction Hps as [|p ps Hp Hps IH].
  - simpl. lra.
  - cbn [map]. rewrite !Rsum_cons.
    replace (INR (length (p :: ps))) with (INR (length ps) + 1)%R
      by (simpl length; rewrite S_INR; reflexivity).
    assert (Hterm : (p * (ln c - ln p) <= c - p)%R).
    { assert (Hq : (0 < c / p)%R) by (apply Rdiv_lt_0_compat; assumption).
      pose proof (ln_le_minus_1 (c / p) Hq) as Hln.
      unfold Rdiv in Hln. rewrite ln_mult in Hln by (try apply Rinv_0_lt_compat; assumption).
      rewrite ln_Rinv in Hln by assumption.
      apply (Rmult_le_compat_l p) in Hln; [|lra].
      replace (p * (c * / p - 1))%R with (c - p)%R in Hln by (field; lra).
      lra. }
    lra.
Qed.

Lemma INR_length_pos {A} (l : list A) : l <> [] -> (0 < INR (length l))%R.
Proof.
  intros H. destruct l; [congruence|]. apply lt_0_INR. simpl. lia.
Qed.

Lemma ln2_pos : (0 < ln 2)%R.
Proof. pose proof ln_lt_2. lra. Qed.

Lemma entropy_bits_le_log2 (ps : list R) :
  ps <> [] -> Forall (fun p => 0 < p)%R ps -> Rsum ps = 1%R ->
  (- Rsum (map (fun p => p * log2 p) ps) <= log2 (INR (length ps)))%R.
Proof.
  intros Hne Hps Hsum.
  pose proof (INR_length_pos ps Hne) as Hn.
  pose proof (entropy_terms_bound ps (/ INR (length ps)) Hps (Rinv_0_lt_compat _ Hn)) as H.
  rewrite Hsum, ln_Rinv in H by assumption.
  replace (/ INR (length ps) * INR (length ps))%R with 1%R in H by (field; lra).
  assert (Hmap : (Rsum (map (fun p => p * log2 p) ps)
                  = Rsum (map (fun p => p * ln p) ps) / ln 2)%R).
  { clear. induction ps as [|p ps IH]; cbn [map].
    - simpl. unfold Rdiv. now rewrite Rmult_0_l.
    - rewrite !Rsum_cons, IH. unfold log2. field. exact ln2_neq_0. }
  rewrite Hmap. unfold log2.
  pose proof ln2_pos as H2.
  replace (- (Rsum (map (fun p => p * ln p) ps) / ln 2))%R
    with ((- Rsum (map (fun p => p * ln p) ps)) / ln 2)%R by (field; lra).
  apply Rmult_le_compat_r; [left; now apply Rinv_0_lt_compat | lra].
Qed.

Lemma pow2_log2 x : (0 < x)%R -> pow2 (log2 x) = x.
Proof.
  intros Hx. unfold pow2, log2, Rpower.
  replace (ln x / ln 2 * ln 2)%R with (ln x) by (field; exact ln2_neq_0).
  now apply exp_ln.
Qed.

Lemma pow2_monotone x y : (x <= y)%R -> (pow2 x <= pow2 y)%R.
Proof. intros H. unfold pow2. apply Rle_Rpower; [lra | assumption]. Qed.

(** Mean of logarithms against the logarithm of the mean. *)
Lemma ln_terms_bound (xs : list R) (d : R) :
  Forall (fun x => 0 < x)%R xs -> (0 < d)%R ->
  (Rsum (map ln xs) - INR (length xs) * ln d <= Rsum xs / d - INR (length xs))%R.
Proof.
  intros Hxs Hd. induction Hxs as [|x xs Hx Hxs IH].
  - simpl. lra.
  - cbn [map]. rewrite !Rsum_cons.
    replace (INR (length (x :: xs))) with (INR (length xs) + 1)%R
      by (simpl length; rewrite S_INR; reflexivity).
    assert (Hq : (0 < x / d)%R) by (apply Rdiv_lt_0_compat; assumption).
    pose proof (ln_le_minus_1 (x / d) Hq) as Hln.
    unfold Rdiv in Hln. rewrite ln_mult in Hln by (try apply Rinv_0_lt_compat; assumption).
    rewrite ln_Rinv in Hln by assumption.
    unfold Rdiv in *. lra.
Qed.

Lemma Rsum_pos (xs : list R) :
  xs <> [] -> Forall (fun x => 0 < x)%R xs -> (0 < Rsum xs)%R.
Proof.
  intros Hne H. destruct H as [|x xs Hx Hxs]; [congruence|].
  rewrite Rsum_cons. clear Hne.
  assert (0 <= Rsum xs)%R; [|lra].
  induction Hxs as [|y ys Hy Hys IH]; [simpl; lra | rewrite Rsum_cons; lra].
Qed.

Lemma mean_ln_le_ln_mean (xs : list R) :
  xs <> [] -> Forall (fun x => 0 < x)%R xs ->
  (Rsum (map ln xs) / INR (length xs) <= ln (Rsum xs / INR (length xs)))%R.
Proof.
  intros Hne Hxs.
  pose proof (INR_length_pos xs Hne) as Hn.
  pose proof (Rsum_pos xs Hne Hxs) as Hs.
  assert (Hd : (0 < Rsum xs / INR (length xs))%R) by (apply Rdiv_lt_0_compat; assumption).
  pose proof (ln_terms_bound xs _ Hxs Hd) as H.
  replace (Rsum xs / (Rsum xs / INR (length xs)))%R with (INR (length xs)) in H
    by (field; lra).
  apply (Rmult_le_reg_r (INR (length xs))); [assumption|].
  replace (Rsum (map ln xs) / INR (length xs) * INR (length xs))%R
    with (Rsum (map ln xs)) by (field; lra).
  lra.
Qed.

Lemma count_add_total v t :
  Zsum (map snd (count_add v t)) = (Zsum (map snd t) + 1)%Z.
Proof.
  induction t as [|[w c] t IH]; simpl; [reflexivity|].
  destruct (value_eqb v w); simpl; [lia | rewrite IH; lia].
Qed.

Lemma value_counts_total l : Zsum (map snd (value_counts l)) = len l.
Proof.
  unfold value_counts, len.
  assert (H : forall acc, Zsum (map snd (fold_left (fun t v => count_add v t) l acc))
                          = (Zsum (map snd acc) + Z.of_nat (length l))%Z).
  { induction l as [|v t IH]; intros acc; simpl fold_left.
    - simpl. lia.
    - rewrite IH, count_add_total. simpl length. lia. }
  rewrite H. reflexivity.
Qed.

Lemma count_add_positive v t :
  Forall (fun vc => (1 <= snd vc)%Z) t -> Forall (fun vc => (1 <= snd vc)%Z) (count_add v t).
Proof.
  induction 1 as [|[w c] t Hc Ht IH]; simpl.
  - constructor; [simpl; lia | constructor].
  - destruct (value_eqb v w); constructor; simpl in *; auto; lia.
Qed.

Lemma value_counts_positive l : Forall (fun vc => (1 <= snd vc)%Z) (value_counts l).
Proof.
  unfold value_counts.
  assert (H : Forall (fun vc : value * Z => (1 <= snd vc)%Z) []) by constructor.
  revert H. generalize (@nil (value * Z)).
  induction l as [|v t IH]; intros acc Hacc; simpl; [assumption|].
  apply IH. now apply count_add_positive.
Qed.

Lemma count_add_nonempty v t : count_add v t <> [].
Proof. destruct t as [|[w c] t]; simpl; [|destruct (value_eqb v w)]; discriminate. Qed.

Lemma value_counts_nonempty l : l <> [] -> value_counts l <> [].
Proof.
  unfold value_counts. intros Hne.
  destruct l as [|v t]; [congruence|]. simpl. clear Hne.
  assert (H : forall acc : list (value * Z), acc <> [] ->
                fold_left (fun t v => count_add v t) t acc <> []).
  { induction t as [|x t IH]; intros acc Hacc; simpl; [assumption|].
    apply IH. apply count_add_nonempty. }
  apply H. discriminate.
Qed.

Lemma inject_Z_pos z : (0 < z)%Z -> (0 < inject_Z z)%Q.
Proof. intros H. change (inject_Z 0 < inject_Z z)%Q. now rewrite <- Zlt_Qlt. Qed.

Lemma len_pos {A} (l : list A) : l <> [] -> (0 < len l)%Z.
Proof. unfold len. destruct l; [congruence | simpl; lia]. Qed.

Lemma value_probs_positive l :
  l <> [] -> Forall (fun q => (0 < q)%Q) (value_probs l).
Proof.
  intros Hne. unfold value_probs. rewrite Forall_forall. intros q Hq.
  apply in_map_iff in Hq as [[v c] [<- Hin]]. simpl.
  pose proof (value_counts_positive l) as Hpos. rewrite Forall_forall in Hpos.
  specialize (Hpos _ Hin). simpl in Hpos.
  apply Qlt_shift_div_l; [apply inject_Z_pos, len_pos, Hne|].
  rewrite Qmult_0_l. apply inject_Z_pos. lia.
Qed.

Lemma Qsum_inject_div (cs : list Z) (n : Q) :
  (Qsum (map (fun c => inject_Z c / n) cs) == inject_Z (Zsum cs) / n)%Q.
Proof.
  induction cs as [|c cs IH]; cbn [map Zsum fold_right].
  - change (Qsum []) with 0%Q. unfold Qdiv. now rewrite Qmult_0_l.
  - rewrite Qsum_cons, IH. fold (Zsum cs). rewrite inject_Z_plus. unfold Qdiv. ring.
Qed.

Lemma value_probs_sum l : l <> [] -> (Qsum (value_probs l) == 1)%Q.
Proof.
  intros Hne. unfold value_probs.
  rewrite <- (map_map snd (fun c => (inject_Z c / inject_Z (len l))%Q)).
  rewrite Qsum_inject_div, value_counts_total.
  pose proof (inject_Z_pos _ (len_pos l Hne)) as Hpos.
  field. intros H. rewrite H in Hpos. now apply Qlt_irrefl in Hpos.
Qed.

Lemma filter_all {A} (f : A -> bool) (l : list A) :
  Forall (fun a => f a = true) l -> filter f l = l.
Proof.
  induction 1 as [|a l Ha Hl IH]; simpl; [reflexivity|]. now rewrite Ha, IH.
Qed.

Lemma Qpositive_of_lt q : (0 < q)%Q -> Qpositive q = true.
Proof.
  intros H. unfold Qpositive. apply negb_true_iff.
  destruct (Qle_bool q 0) eqn:E; [|reflexivity].
  apply Qle_bool_iff in E. exfalso. apply (Qlt_irrefl 0). now apply Qlt_le_trans with q.
Qed.

Lemma Q2R_0 : Q2R 0 = 0%R.
Proof. unfold Q2R. simpl. lra. Qed.

Lemma Q2R_inject_Z z : Q2R (inject_Z z) = IZR z.
Proof. unfold Q2R. simpl. lra. Qed.

Lemma Rsum_Q2R (p : list Q) : Rsum (map Q2R p) = Q2R (Qsum p).
Proof.
  induction p as [|q p IH]; cbn [map].
  - change (Qsum []) with 0%Q. now rewrite Q2R_0.
  - rewrite Rsum_cons, Qsum_cons, Q2R_plus, IH. reflexivity.
Qed.

(** For a distribution with positive entries that add up to one,
    [2 ** entropy] is at most the number of entries. *)
Lemma effective_diversity_le_size (p : list Q) :
  p <> [] -> Forall (fun q => (0 < q)%Q) p -> (Qsum p == 1)%Q ->
  (pow2 (_safe_entropy p) <= INR (length p))%R.
Proof.
  intros Hne Hpos Hsum. unfold _safe_entropy.
  rewrite filter_all
    by (eapply Forall_impl; [|exact Hpos]; intros q Hq; now apply Qpositive_of_lt).
  destruct p as [|q0 p0] eqn:Ep; [congruence|]. rewrite <- Ep in *.
  rewrite <- (map_map Q2R (fun r => (r * log2 r)%R)).
  assert (Hle : (- Rsum (map (fun r => r * log2 r) (map Q2R p))
                 <= log2 (INR (length (map Q2R p))))%R).
  { apply entropy_bits_le_log2.
    - rewrite Ep. discriminate.
    - rewrite Forall_forall in *. intros r Hr. apply in_map_iff in Hr as [q [<- Hq]].
      rewrite <- Q2R_0. apply Qlt_Rlt. now apply Hpos.
    - rewrite Rsum_Q2R, (Qeq_eqR _ _ Hsum). unfold Q2R. simpl. lra. }
  rewrite length_map in Hle.
  apply pow2_monotone in Hle. rewrite pow2_log2 in Hle; [exact Hle|].
  apply INR_length_pos. rewrite Ep. discriminate.
Qed.

(** One equivalence class: its effective diversity is at most its number
    of distinct sensitive values. *)
Lemma class_effective_le_distinct (l : list value) :
  l <> [] ->
  (pow2 (_safe_entropy (value_probs l)) <= Q2R (inject_Z (nunique l)))%R.
Proof.
  intros Hne.
  assert (Hlen : length (value_probs l) = length (value_counts l))
    by (unfold value_probs; apply length_map).
  pose proof (effective_diversity_le_size (value_probs l)) as H.
  rewrite Hlen in H. unfold nunique, len.
  rewrite Q2R_inject_Z, <- INR_IZR_INZ. apply H.
  - intros E. apply (value_counts_nonempty l Hne).
    apply length_zero_iff_nil. rewrite <- Hlen, E. reflexivity.
  - now apply value_probs_positive.
  - now apply value_probs_sum.
Qed.

(** *** Minimum and mean over the classes *)

Lemma fold_Rmin_le (t : list R) (a : R) :
  (fold_left Rmin t a <= a)%R /\ forall h, In h t -> (fold_left Rmin t a <= h)%R.
Proof.
  revert a. induction t as [|x t IH]; intros a; simpl.
  - split; [lra | tauto].
  - destruct (IH (Rmin a x)) as [Hacc Hin].
    pose proof (Rmin_l a x). pose proof (Rmin_r a x).
    split; [lra|]. intros h [<-|Hh]; [lra | now apply Hin].
Qed.

Lemma Rminimum_le (hs : list R) (h : R) : In h hs -> (Rminimum hs <= h)%R.
Proof.
  destruct hs as [|a t]; [intros []|]. simpl.
  destruct (fold_Rmin_le t a) as [Hacc Hin].
  intros [<-|Hh]; [exact Hacc | now apply Hin].
Qed.

Lemma Qminimum_In (l : list Q) : l <> [] -> In (Qminimum l) l.
Proof.
  destruct l as [|a t]; [congruence|]. intros _. simpl.
  assert (H : forall acc, In (fold_left (fun m x => if Qle_bool x m then x else m) t acc)
                             (acc :: t)).
  { induction t as [|x t IH]; intros acc; simpl; [now left|].
    destruct (IH (if Qle_bool x acc then x else acc)) as [H|H].
    - destruct (Qle_bool x acc); [right; left | left]; exact H.
    - right; right; exact H. }
  destruct (H a) as [H'|H']; [left | right]; exact H'.
Qed.

Lemma Rsum_map_le {A} (f g : A -> R) (l : list A) :
  (forall a, In a l -> (f a <= g a)%R) -> (Rsum (map f l) <= Rsum (map g l))%R.
Proof.
  induction l as [|a l IH]; intros H; cbn [map]; [simpl; lra|].
  rewrite !Rsum_cons.
  pose proof (H a (or_introl eq_refl)).
  assert (Rsum (map f l) <= Rsum (map g l))%R by (apply IH; intros; apply H; now right).
  lra.
Qed.

Lemma log2_pow2 x : log2 (pow2 x) = x.
Proof. unfold log2, pow2. rewrite ln_Rpower. field. exact ln2_neq_0. Qed.

Lemma log2_le x y : (0 < x -> x <= y -> log2 x <= log2 y)%R.
Proof.
  intros Hx [Hlt | ->]; [|lra]. unfold log2.
  pose proof (ln_increasing x y Hx Hlt). pose proof ln2_pos.
  apply Rmult_le_compat_r; [left; now apply Rinv_0_lt_compat | lra].
Qed.

Lemma pow2_pos x : (0 < pow2 x)%R.
Proof. unfold pow2, Rpower. apply exp_pos. Qed.

Lemma Q2R_Qmean (ds : list Q) :
  ds <> [] -> Q2R (Qmean ds) = (Rsum (map Q2R ds) / INR (length ds))%R.
Proof.
  intros Hne. unfold Qmean.
  pose proof (inject_Z_pos _ (len_pos ds Hne)) as Hpos. unfold len in Hpos.
  rewrite Q2R_div by (intros H; rewrite H in Hpos; now apply Qlt_irrefl in Hpos).
  now rewrite Rsum_Q2R, Q2R_inject_Z, <- INR_IZR_INZ.
Qed.

Section ClassesWithoutMissingKeys.

(** The sensitive values of each class, every class non-empty. *)
Variable classes : list (list value).
Hypothesis classes_nonempty : Forall (fun l => l <> []) classes.
Hypothesis some_class : classes <> [].

Lemma effective_min_le_distinct_min :
  (pow2 (Rminimum (map (fun l => _safe_entropy (value_probs l)) classes))
   <= Q2R (Qminimum (map (fun l => inject_Z (nunique l)) classes)))%R.
Proof.
  assert (Hne : (map (fun l => inject_Z (nunique l)) classes) <> [])
    by (destruct classes; [congruence | discriminate]).
  pose proof (Qminimum_In _ Hne) as Hin.
  apply in_map_iff in Hin as [l [Hl Hin]].
  rewrite <- Hl.
  apply Rle_trans with (pow2 (_safe_entropy (value_probs l))).
  - apply pow2_monotone, Rminimum_le.
    apply in_map_iff. exists l. split; [reflexivity | assumption].
  - apply class_effective_le_distinct.
    rewrite Forall_forall in classes_nonempty. now apply classes_nonempty.
Qed.

Lemma effective_avg_le_distinct_avg :
  (pow2 (Rmean (map (fun l => _safe_entropy (value_probs l)) classes))
   <= Q2R (Qmean (map (fun l => inject_Z (nunique l)) classes)))%R.
Proof.
  assert (Hne : (map (fun l => inject_Z (nunique l)) classes) <> [])
    by (destruct classes; [congruence | discriminate]).
  set (xs := map (fun l => Q2R (inject_Z (nunique l))) classes).
  assert (Hxs : Forall (fun x => 0 < x)%R xs).
  { unfold xs. rewrite Forall_forall in *. intros x Hx.
    apply in_map_iff in Hx as [l [<- Hl]].
    apply Rlt_le_trans with (pow2 (_safe_entropy (value_probs l))); [apply pow2_pos|].
    apply class_effective_le_distinct. now apply classes_nonempty. }
  assert (Hxne : xs <> []) by (unfold xs; destruct classes; [congruence | discriminate]).
  assert (Hlen : length xs = length classes) by (unfold xs; apply length_map).
  rewrite Q2R_Qmean by assumption.
  rewrite map_map, length_map. fold xs. rewrite <- Hlen.
  rewrite <- (pow2_log2 (Rsum xs / INR (length xs)))
    by (apply Rdiv_lt_0_compat; [now apply Rsum_pos | now apply INR_length_pos]).
  apply pow2_monotone.
  apply Rle_trans with (Rsum (map ln xs) / INR (length xs) / ln 2)%R.
  - unfold Rmean. rewrite length_map, <- Hlen.
    assert (Hsum : (Rsum (map (fun l => _safe_entropy (value_probs l)) classes)
                    <= Rsum (map ln xs) / ln 2)%R).
    { unfold xs. rewrite map_map.
      apply Rle_trans with
        (Rsum (map (fun l => ln (Q2R (inject_Z (nunique l))) / ln 2) classes))%R.
      - apply Rsum_map_le. intros l Hl.
        rewrite <- (log2_pow2 (_safe_entropy (value_probs l))).
        apply log2_le; [apply pow2_pos|].
        apply class_effective_le_distinct.
        rewrite Forall_forall in classes_nonempty. now apply classes_nonempty.
      - right. clear. induction classes as [|l ls IH]; cbn [map].
        + simpl. lra.
        + rewrite !Rsum_cons, IH. field. exact ln2_neq_0. }
    pose proof (INR_length_pos xs Hxne) as Hn. pose proof ln2_pos as H2.
    apply (Rmult_le_reg_r (INR (length xs))); [assumption|].
    replace (Rsum (map (fun l => _safe_entropy (value_probs l)) classes)
             / INR (length xs) * INR (length xs))%R
      with (Rsum (map (fun l => _safe_entropy (value_probs l)) classes)) by (field; lra).
    replace (Rsum (map ln xs) / INR (length xs) / ln 2 * INR (length xs))%R
      with (Rsum (map ln xs) / ln 2)%R by (field; lra).
    exact Hsum.
  - unfold log2. pose proof ln2_pos as H2.
    apply Rmult_le_compat_r; [left; now apply Rinv_0_lt_compat|].
    now apply mean_ln_le_ln_mean.
Qed.

End ClassesWithoutMissingKeys.

Lemma add_to_groups_nonempty k r gs :
  Forall (fun g : group => snd g <> []) gs ->
  Forall (fun g : group => snd g <> []) (add_to_groups k r gs).
Proof.
  induction 1 as [|[k' rs] t Hg Ht IH]; simpl.
  - constructor; [discriminate | constructor].
  - destruct (key_eqb k k'); constructor; auto.
    simpl. destruct rs; discriminate.
Qed.

Lemma group_rows_nonempty idx rs :
  Forall (fun g : group => snd g <> []) (group_rows idx rs).
Proof.
  unfold group_rows.
  assert (H : Forall (fun g : group => snd g <> []) []) by constructor.
  revert H. generalize (@nil group).
  induction rs as [|r t IH]; intros acc Hacc; simpl; [assumption|].
  apply IH. now apply add_to_groups_nonempty.
Qed.

Lemma groupby_col_classes df qi_cols col grp :
  groupby_col df qi_cols col = Ok grp ->
  Forall (fun g => snd g <> []) grp /\ (rows df <> [] -> grp <> []).
Proof.
  unfold groupby_col, groupby.
  destruct (resolve_keys df qi_cols) as [idx|e]; simpl; [|discriminate].
  destruct (col_index col (columns df)) as [[i d]|]; [|discriminate].
  intros H; inversion H; subst; clear H. split.
  - pose proof (group_rows_nonempty idx (rows df)) as Hne.
    rewrite Forall_forall in *. intros g Hg.
    apply in_map_iff in Hg as [g0 [<- Hg0]]. simpl.
    specialize (Hne g0 Hg0). destruct (snd g0); [congruence | discriminate].
  - intros Hrows Hnil. apply map_eq_nil in Hnil.
    pose proof (group_rows_total idx (rows df)) as Htot.
    rewrite Hnil in Htot. pose proof (len_pos (rows df) Hrows).
    unfold class_rows in Htot. simpl in Htot. lia.
Qed.

(** On a frame with at least one row and no missing quasi-identifier
    value, the effective diversity reported by the entropy method is at
    most the distinct-count diversity, for the minimum and for the mean. *)
Lemma entropy_effective_le_distinct_without_missing_qi df qi_cols sensitive_col grp :
  rows df <> [] ->
  groupby_col df qi_cols sensitive_col = Ok grp ->
  Forall (fun g => key_has_na (fst g) = false) grp ->
  exists rep emin eavg,
    l_diversity df qi_cols sensitive_col "entropy" = Ok rep /\
    entropy_effective_min rep = Some emin /\
    entropy_effective_avg rep = Some eavg /\
    (emin <= Q2R (l_min rep))%R /\
    (eavg <= Q2R (l_avg rep))%R.
Proof.
  intros Hrows Hgrp Hna.
  destruct (groupby_col_classes _ _ _ _ Hgrp) as [Hne Hsome]. specialize (Hsome Hrows).
  rewrite (l_diversity_entropy_unfold _ _ _ _ Hgrp). cbv zeta.
  do 3 eexists. split; [reflexivity|].
  cbn [entropy_effective_min entropy_effective_avg l_min l_avg].
  split; [reflexivity|]. split; [reflexivity|].
  rewrite filter_all.
  2:{ rewrite Forall_forall in *. intros kp Hkp.
      apply in_map_iff in Hkp as [g [<- Hg]]. simpl. now rewrite (Hna g Hg). }
  rewrite map_map. cbn [snd].
  assert (Hcl : Forall (fun l : list value => l <> []) (map snd grp)).
  { rewrite Forall_forall in *. intros l Hl. apply in_map_iff in Hl as [g [<- Hg]].
    now apply Hne. }
  assert (Hcs : map snd grp <> []) by (destruct grp; [congruence | discriminate]).
  pose proof (effective_min_le_distinct_min (map snd grp) Hcl Hcs) as Hmin.
  pose proof (effective_avg_le_distinct_avg (map snd grp) Hcl Hcs) as Havg.
  rewrite !map_map in Hmin, Havg.
  destruct grp as [|g0 grp']; [congruence|].
  split; [exact Hmin | exact Havg].
Qed.

Lemma entropy_effective_le_distinct_on_simple_df :
  exists rep emin eavg,
    l_diversity simple_df ["age_band"; "zip"] "disease" "entropy" = Ok rep /\
    entropy_effective_min rep = Some emin /\
    entropy_effective_avg rep = Some eavg /\
    (emin <= Q2R (l_min rep))%R /\
    (eavg <= Q2R (l_avg rep))%R.
Proof.
  refine (entropy_effective_le_distinct_without_missing_qi simple_df ["age_band"; "zip"]
            "disease" _ _ eq_refl _).
  - discriminate.
  - repeat constructor.
Defined.

(** C6 (what the code does on a class with a missing quasi-identifier).
    The entropies leave out the class keyed by the missing value, the
    distinct counts keep it: effective diversity 2 is reported against
    [l_min = 1] and [l_avg = 3/2]. *)
Theorem entropy_effective_exceeds_distinct_on_missing_qi :
  exists rep,
    l_diversity missing_zip_df ["zip"] "disease" "entropy" = Ok rep /\
    entropy_effective_min rep = Some 2%R /\
    entropy_effective_avg rep = Some 2%R /\
    l_min rep = 1%Q /\
    (l_avg rep == 3#2)%Q.
Proof.
  assert (Hgrp : groupby_col missing_zip_df ["zip"] "disease"
                 = Ok [([VStr "12345"], [VStr "HIV"; VStr "Flu"]); ([VNaN], [VStr "Flu"])])
    by reflexivity.
  rewrite (l_diversity_entropy_unfold _ _ _ _ Hgrp).
  eexists. split; [reflexivity|].
  cbn [entropy_effective_min entropy_effective_avg l_min l_avg].
  change (map (fun kp => _safe_entropy (snd kp))
              (filter (fun kp => negb (key_has_na (fst kp)))
                      (map (fun g : list value * list value => (fst g, value_probs (snd g)))
                           [([VStr "12345"], [VStr "HIV"; VStr "Flu"]);
                            ([VNaN], [VStr "Flu"])])))
    with [_safe_entropy (value_probs [VStr "HIV"; VStr "Flu"])].
  assert (Hprobs : _safe_entropy (value_probs [VStr "HIV"; VStr "Flu"]) = 1%R).
  { rewrite <- safe_entropy_two_halves. unfold _safe_entropy.
    change (filter Qpositive (value_probs [VStr "HIV"; VStr "Flu"]))
      with [inject_Z 1 / inject_Z 2; inject_Z 1 / inject_Z 2]%Q.
    change (filter Qpositive [1#2; 1#2]%Q) with [1#2; 1#2]%Q.
    reflexivity. }
  rewrite Hprobs.
  assert (Hmean : Rmean [1%R] = 1%R).
  { unfold Rmean. cbn [Rsum fold_right length INR]. lra. }
  cbn [Rminimum fold_left]. rewrite Hmean, pow2_1.
  repeat split; reflexivity.
Qed.

(* ================================================================== *)
(** * Further properties of the analyzers *)

(** ** Minimum, maximum and mean of a list *)

Lemma fold_Zmin_spec (t : list Z) (a : Z) :
  In (fold_left Z.min t a) (a :: t) /\
  (fold_left Z.min t a <= a)%Z /\
  forall x, In x t -> (fold_left Z.min t a <= x)%Z.
Proof.
  revert a. induction t as [|b t IH]; intros a; simpl.
  - split; [now left|]. split; [lia | tauto].
  - destruct (IH (Z.min a b)) as (Hin & Hle & Hall).
    split; [|split].
    + destruct Hin as [Hin|Hin]; [|now right; right].
      rewrite <- Hin.
      destruct (Z.min_spec a b) as [[_ Hm]|[_ Hm]]; rewrite Hm;
        [left | right; left]; reflexivity.
    + lia.
    + intros x [<-|Hx]; [lia | now apply Hall].
Qed.

Lemma Zminimum_In (l : list Z) : l <> [] -> In (Zminimum l) l.
Proof.
  destruct l as [|a t]; [congruence|]. intros _. simpl.
  apply (fold_Zmin_spec t a).
Qed.

Lemma Zminimum_le (l : list Z) (x : Z) : In x l -> (Zminimum l <= x)%Z.
Proof.
  destruct l as [|a t]; [intros []|]. simpl.
  destruct (fold_Zmin_spec t a) as (_ & Hle & Hall).
  intros [<-|Hx]; [exact Hle | now apply Hall].
Qed.

Lemma fold_Qmin_le (t : list Q) (a : Q) :
  (fold_left (fun m x => if Qle_bool x m then x else m) t a <= a)%Q /\
  forall y, In y t ->
    (fold_left (fun m x => if Qle_bool x m then x else m) t a <= y)%Q.
Proof.
  revert a. induction t as [|b t IH]; intros a; simpl.
  - split; [apply Qle_refl | tauto].
  - destruct (IH (if Qle_bool b a then b else a)) as [Hacc Hall].
    assert (Hm : ((if Qle_bool b a then b else a) <= a
                  /\ (if Qle_bool b a then b else a) <= b)%Q).
    { destruct (Qle_bool b a) eqn:E.
      - apply Qle_bool_iff in E. split; [exact E | apply Qle_refl].
      - split; [apply Qle_refl|]. apply Qlt_le_weak, Qnot_le_lt.
        intros H. apply Qle_bool_iff in H. congruence. }
    destruct Hm as [Hma Hmb].
    split; [now apply Qle_trans with (if Qle_bool b a then b else a)|].
    intros y [<-|Hy]; [|now apply Hall].
    now apply Qle_trans with (if Qle_bool b a then b else a).
Qed.

Lemma Qminimum_le (l : list Q) (y : Q) : In y l -> (Qminimum l <= y)%Q.
Proof.
  destruct l as [|a t]; [intros []|]. simpl.
  destruct (fold_Qmin_le t a) as [Hacc Hall].
  intros [<-|Hy]; [exact Hacc | now apply Hall].
Qed.

Lemma fold_Qmax_ge (t : list Q) (a : Q) :
  (a <= fold_left (fun m x => if Qle_bool m x then x else m) t a)%Q /\
  forall y, In y t ->
    (y <= fold_left (fun m x => if Qle_bool m x then x else m) t a)%Q.
Proof.
  revert a. induction t as [|b t IH]; intros a; simpl.
  - split; [apply Qle_refl | tauto].
  - destruct (IH (if Qle_bool a b then b else a)) as [Hacc Hall].
    assert (Hm : (a <= (if Qle_bool a b then b else a)
                  /\ b <= (if Qle_bool a b then b else a))%Q).
    { destruct (Qle_bool a b) eqn:E.
      - apply Qle_bool_iff in E. split; [exact E | apply Qle_refl].
      - split; [apply Qle_refl|]. apply Qlt_le_weak, Qnot_le_lt.
        intros H. apply Qle_bool_iff in H. congruence. }
    destruct Hm as [Hma Hmb].
    split; [now apply Qle_trans with (if Qle_bool a b then b else a)|].
    intros y [<-|Hy]; [|now apply Hall].
    now apply Qle_trans with (if Qle_bool a b then b else a).
Qed.

Lemma Qmaximum_ge (l : list Q) (y : Q) : In y l -> (y <= Qmaximum l)%Q.
Proof.
  destruct l as [|a t]; [intros []|]. simpl.
  destruct (fold_Qmax_ge t a) as [Hacc Hall].
  intros [<-|Hy]; [exact Hacc | now apply Hall].
Qed.

Lemma Qmaximum_In (l : list Q) : l <> [] -> In (Qmaximum l) l.
Proof.
  destruct l as [|a t]; [congruence|]. intros _. simpl.
  assert (H : forall acc, In (fold_left (fun m x => if Qle_bool m x then x else m) t acc)
                             (acc :: t)).
  { induction t as [|x t IH]; intros acc; simpl; [now left|].
    destruct (IH (if Qle_bool acc x then x else acc)) as [H|H].
    - destruct (Qle_bool acc x); [right; left | left]; exact H.
    - right; right; exact H. }
  destruct (H a) as [H'|H']; [left | right]; exact H'.
Qed.

Lemma Qsum_bounds (l : list Q) (a b : Q) :
  (forall x, In x l -> a <= x <= b)%Q ->
  (a * inject_Z (len l) <= Qsum l <= b * inject_Z (len l))%Q.
Proof.
  unfold len. induction l as [|x t IH]; intros H.
  - change (a * 0 <= 0 <= b * 0)%Q. lra.
  - rewrite Qsum_cons.
    replace (Z.of_nat (length (x :: t))) with (Z.of_nat (length t) + 1)%Z
      by (simpl length; lia).
    rewrite inject_Z_plus. change (inject_Z 1) with 1%Q.
    pose proof (H x (or_introl eq_refl)) as Hx.
    assert (IH' := IH (fun y Hy => H y (or_intror Hy))).
    lra.
Qed.

Lemma Qmean_bounds (l : list Q) (a b : Q) :
  l <> [] -> (forall x, In x l -> a <= x <= b)%Q -> (a <= Qmean l <= b)%Q.
Proof.
  intros Hne H. pose proof (Qsum_bounds l a b H) as Hs.
  pose proof (inject_Z_pos _ (len_pos l Hne)) as Hpos.
  unfold Qmean. fold (len l). split.
  - apply Qle_shift_div_l; [assumption | lra].
  - apply Qle_shift_div_r; [assumption | lra].
Qed.

Lemma Qmean_le_Qmaximum (l : list Q) : l <> [] -> (Qmean l <= Qmaximum l)%Q.
Proof.
  intros Hne.
  apply (Qmean_bounds l (Qminimum l) (Qmaximum l) Hne).
  intros x Hx. split; [now apply Qminimum_le | now apply Qmaximum_ge].
Qed.

Lemma Qminimum_le_Qmean (l : list Q) : l <> [] -> (Qminimum l <= Qmean l)%Q.
Proof.
  intros Hne.
  apply (Qmean_bounds l (Qminimum l) (Qmaximum l) Hne).
  intros x Hx. split; [now apply Qminimum_le | now apply Qmaximum_ge].
Qed.

Lemma inject_Z_le a b : (a <= b)%Z -> (inject_Z a <= inject_Z b)%Q.
Proof. intros H. now rewrite <- Zle_Qle. Qed.

(** ** K-anonymity: bounds, histogram, edge cases *)

Lemma Qsum_inject_Z (l : list Z) : (Qsum (map inject_Z l) == inject_Z (Zsum l))%Q.
Proof.
  induction l as [|x t IH]; cbn [map Zsum fold_right].
  - reflexivity.
  - rewrite Qsum_cons, IH. fold (Zsum t). now rewrite inject_Z_plus.
Qed.

Lemma Zsum_ge_each (l : list Z) (x : Z) :
  Forall (fun y => (0 <= y)%Z) l -> In x l -> (x <= Zsum l)%Z.
Proof.
  induction 1 as [|y t Hy Ht IH]; simpl; [tauto|].
  assert (0 <= Zsum t)%Z.
  { clear -Ht. induction Ht as [|z t Hz Ht IH]; simpl; lia. }
  intros [<-|Hx]; [lia|]. specialize (IH Hx). lia.
Qed.

Lemma class_sizes_positive idx rs :
  Forall (fun n => (1 <= n)%Z) (map (fun g : list value * list row => len (snd g)) (group_rows idx rs)).
Proof.
  pose proof (group_rows_nonempty idx rs) as H.
  rewrite Forall_forall in *. intros n Hn.
  apply in_map_iff in Hn as [g [<- Hg]].
  pose proof (len_pos (snd g) (H g Hg)). lia.
Qed.

Lemma class_sizes_nonempty idx rs :
  rs <> [] -> map (fun g : list value * list row => len (snd g)) (group_rows idx rs) <> [].
Proof.
  intros Hne H. apply map_eq_nil in H.
  pose proof (group_rows_total idx rs) as Ht. rewrite H in Ht.
  pose proof (len_pos rs Hne). unfold class_rows in Ht. simpl in Ht. lia.
Qed.

Lemma hist_add_keys s h x :
  In x (map fst (hist_add s h)) <-> x = s \/ In x (map fst h).
Proof.
  induction h as [|[k c] t IH]; simpl.
  - split; [intros [<-|[]]; now left | intros [->|[]]; now left].
  - destruct (Z.eqb_spec s k) as [->|Hne]; simpl.
    + split; [tauto | intros [->|H]; tauto].
    + destruct (s <? k)%Z; simpl.
      * split; [intros [<-|H]; tauto | intros [->|H]; tauto].
      * rewrite IH. tauto.
Qed.

Lemma value_counts_sorted_keys sizes x :
  In x (map fst (value_counts_sorted sizes)) <-> In x sizes.
Proof.
  induction sizes as [|s t IH]; simpl; [tauto|].
  rewrite hist_add_keys, IH. split; intros [H|H]; auto.
Qed.

Lemma hist_add_ascending s h :
  StronglySorted Z.lt (map fst h) -> StronglySorted Z.lt (map fst (hist_add s h)).
Proof.
  induction h as [|[k c] t IH]; simpl; intros Hs.
  - repeat constructor.
  - inversion Hs as [|? ? Hst Hall]; subst.
    destruct (Z.eqb_spec s k) as [->|Hne]; simpl; [now constructor|].
    destruct (Z.ltb_spec s k) as [Hlt|Hge]; simpl.
    + constructor; [exact Hs|]. constructor; [exact Hlt|].
      rewrite Forall_forall in *. intros x Hx. specialize (Hall x Hx). lia.
    + constructor; [now apply IH|].
      rewrite Forall_forall in *. intros x Hx.
      apply hist_add_keys in Hx as [->|Hx]; [lia | now apply Hall].
Qed.

Lemma value_counts_sorted_ascending sizes :
  StronglySorted Z.lt (map fst (value_counts_sorted sizes)).
Proof.
  induction sizes as [|s t IH]; simpl; [constructor|]. now apply hist_add_ascending.
Qed.

Lemma hist_add_counts s h :
  Forall (fun kc => (1 <= snd kc)%Z) h ->
  Forall (fun kc => (1 <= snd kc)%Z) (hist_add s h) /\
  Zsum (map snd (hist_add s h)) = (Zsum (map snd h) + 1)%Z.
Proof.
  induction 1 as [|[k c] t Hc Ht IH]; cbn [hist_add].
  - split; [repeat constructor; simpl; lia | reflexivity].
  - destruct IH as [IH1 IH2]. simpl in Hc. unfold Zsum in *.
    destruct (s =? k)%Z; [|destruct (s <? k)%Z]; cbn [map snd fold_right] in *.
    + split; [constructor; [simpl; lia | exact Ht] | lia].
    + split; [repeat constructor; simpl; try lia; exact Ht | lia].
    + split; [constructor; [simpl; lia | exact IH1] | lia].
Qed.

Lemma value_counts_sorted_counts sizes :
  Forall (fun kc => (1 <= snd kc)%Z) (value_counts_sorted sizes) /\
  Zsum (map snd (value_counts_sorted sizes)) = len sizes.
Proof.
  unfold len. induction sizes as [|s t [IH1 IH2]]; simpl value_counts_sorted.
  - split; [constructor | reflexivity].
  - destruct (hist_add_counts s _ IH1) as [H1 H2]. split; [exact H1|].
    rewrite H2, IH2. simpl length. lia.
Qed.

Lemma match_nonempty {A B} (l : list A) (a b : B) :
  l <> [] -> match l with [] => a | _ :: _ => b end = b.
Proof. destruct l; [congruence | reflexivity]. Qed.

(** X1. On a frame with at least one row, [k_anonymity] reports
    [1 <= k_min <= k_avg], [k_avg] is at most some class size of the
    histogram, and every class size of the histogram lies between 1 and
    the number of rows. *)
Theorem k_anonymity_bounds df qi_cols :
  has_rows df -> qi_cols <> [] -> columns_present df qi_cols ->
  exists rep,
    k_anonymity df qi_cols = Ok rep /\
    (1 <= k_min rep)%Z /\
    (inject_Z (k_min rep) <= k_avg rep)%Q /\
    (exists s c, In (s, c) (eq_class_size_hist rep) /\ (k_avg rep <= inject_Z s)%Q) /\
    Forall (fun sc => (1 <= fst sc <= len (rows df))%Z) (eq_class_size_hist rep).
Proof.
  intros Hrows Hne Hall.
  destruct (groupby_present df qi_cols Hne Hall) as [idx Hg].
  unfold k_anonymity. rewrite Hg. cbn [rbind].
  pose proof (class_sizes_positive idx (rows df)) as Hpos.
  pose proof (class_sizes_nonempty idx (rows df) Hrows) as Hsne.
  pose proof (group_rows_total idx (rows df)) as Htot. unfold class_rows in Htot.
  remember (map (fun g : list value * list row => len (snd g)) (group_rows idx (rows df))) as sizes.
  assert (Hq : map inject_Z sizes <> []) by (destruct sizes; [congruence | discriminate]).
  eexists. split; [reflexivity|]. cbn [k_min k_avg eq_class_size_hist].
  rewrite !(match_nonempty sizes) by assumption.
  rewrite Forall_forall in Hpos.
  split; [apply Hpos, Zminimum_In, Hsne|]. split; [|split].
  - apply (Qmean_bounds (map inject_Z sizes) (inject_Z (Zminimum sizes))
             (Qmaximum (map inject_Z sizes)) Hq).
    intros x Hx. split; [|now apply Qmaximum_ge].
    apply in_map_iff in Hx as [z [<- Hz]]. now apply inject_Z_le, Zminimum_le.
  - pose proof (Qmaximum_In _ Hq) as Hin. apply in_map_iff in Hin as [s [Hs Hin]].
    assert (Hk : In s (map fst (value_counts_sorted sizes)))
      by now apply value_counts_sorted_keys.
    apply in_map_iff in Hk as [[s' c] [Hs' Hk]]. simpl in Hs'. subst s'.
    exists s, c. split; [exact Hk|].
    rewrite Hs. now apply Qmean_le_Qmaximum.
  - rewrite Forall_forall. intros [s c] Hk. cbn [fst].
    assert (Hin : In s sizes).
    { apply value_counts_sorted_keys. apply in_map_iff. now exists (s, c). }
    split; [now apply Hpos|].
    rewrite <- Htot. apply Zsum_ge_each; [|exact Hin].
    rewrite Forall_forall. intros y Hy. specialize (Hpos y Hy). lia.
Qed.

Lemma k_anonymity_bounds_witness :
  exists rep,
    k_anonymity simple_df ["age_band"; "zip"] = Ok rep /\
    (1 <= k_min rep)%Z /\
    (inject_Z (k_min rep) <= k_avg rep)%Q /\
    (exists s c, In (s, c) (eq_class_size_hist rep) /\ (k_avg rep <= inject_Z s)%Q) /\
    Forall (fun sc => (1 <= fst sc <= len (rows simple_df))%Z) (eq_class_size_hist rep).
Proof.
  apply k_anonymity_bounds.
  - discriminate.
  - discriminate.
  - intros c [<-|[<-|[]]]; reflexivity.
Defined.

(** X2. The size histogram of every report has its sizes in strictly
    ascending order, every size and every count at least one, counts that
    add up to the number of equivalence classes, and [k_min] as its first
    size. *)
Theorem k_anonymity_histogram_shape df qi_cols grouped rep :
  groupby df qi_cols = Ok grouped ->
  k_anonymity df qi_cols = Ok rep ->
  StronglySorted Z.lt (map fst (eq_class_size_hist rep)) /\
  Forall (fun kc => (1 <= fst kc)%Z /\ (1 <= snd kc)%Z) (eq_class_size_hist rep) /\
  Zsum (map snd (eq_class_size_hist rep)) = len grouped /\
  k_min rep = match eq_class_size_hist rep with
              | [] => 0%Z
              | (s, _) :: _ => s
              end.
Proof.
  intros Hg. unfold k_anonymity. rewrite Hg. cbn [rbind].
  intros H; inversion H; subst; clear H. cbn [k_min eq_class_size_hist].
  unfold groupby in Hg.
  destruct (resolve_keys df qi_cols) as [idx|e]; simpl in Hg; [|discriminate].
  inversion Hg; subst; clear Hg.
  pose proof (class_sizes_positive idx (rows df)) as Hpos.
  assert (Hlen : len (map (fun g : list value * list row => len (snd g)) (group_rows idx (rows df)))
                 = len (group_rows idx (rows df)))
    by (unfold len; now rewrite length_map).
  remember (map (fun g : list value * list row => len (snd g)) (group_rows idx (rows df))) as sizes.
  pose proof (value_counts_sorted_ascending sizes) as Hsorted.
  destruct (value_counts_sorted_counts sizes) as [Hc Hsum].
  split; [exact Hsorted|]. split; [|split].
  - rewrite Forall_forall in *. intros [s c] Hin. split; [|now apply (Hc (s, c))].
    apply Hpos, value_counts_sorted_keys. apply in_map_iff. now exists (s, c).
  - now rewrite Hsum.
  - destruct sizes as [|s0 ss] eqn:Es; [reflexivity|]. rewrite <- Es in *.
    assert (Hsne : sizes <> []) by (rewrite Es; discriminate).
    destruct (value_counts_sorted sizes) as [|[s c] h] eqn:Eh.
    + exfalso. pose proof (proj2 (value_counts_sorted_keys sizes s0)) as Hk.
      rewrite Eh, Es in Hk. apply Hk. now left.
    + assert (Hs : In s sizes).
      { apply value_counts_sorted_keys. rewrite Eh. now left. }
      assert (Hm : In (Zminimum sizes) (map fst ((s, c) :: h))).
      { rewrite <- Eh. apply value_counts_sorted_keys. now apply Zminimum_In. }
      pose proof (Zminimum_le sizes s Hs) as Hle.
      simpl in Hm, Hsorted. inversion Hsorted as [|? ? _ Hall]; subst.
      destruct Hm as [Hm|Hm]; [now symmetry|].
      rewrite Forall_forall in Hall. specialize (Hall _ Hm). lia.
Qed.

Lemma k_anonymity_histogram_shape_witness :
  exists grouped rep,
    groupby simple_df ["age_band"; "zip"] = Ok grouped /\
    k_anonymity simple_df ["age_band"; "zip"] = Ok rep /\
    StronglySorted Z.lt (map fst (eq_class_size_hist rep)) /\
    Zsum (map snd (eq_class_size_hist rep)) = len grouped /\
    k_min rep = 2%Z.
Proof.
  eexists; eexists. split; [reflexivity|]. split; [reflexivity|].
  destruct (k_anonymity_histogram_shape simple_df ["age_band"; "zip"] _ _ eq_refl eq_refl)
    as (H1 & _ & H3 & H4).
  split; [exact H1|]. split; [exact H3 | exact H4].
Defined.

(** X3. On a frame without rows [k_anonymity] reports [k_min = 0],
    [k_avg = 0.0] and an empty histogram. *)
Theorem k_anonymity_no_rows df qi_cols :
  rows df = [] -> qi_cols <> [] -> columns_present df qi_cols ->
  k_anonymity df qi_cols = Ok {| k_min := 0; k_avg := 0; eq_class_size_hist := [] |}.
Proof.
  intros Hrows Hne Hall.
  destruct (groupby_present df qi_cols Hne Hall) as [idx Hg].
  unfold k_anonymity. rewrite Hg, Hrows. reflexivity.
Qed.

Lemma k_anonymity_no_rows_witness :
  k_anonymity empty_df ["age_band"; "zip"]
  = Ok {| k_min := 0; k_avg := 0; eq_class_size_hist := [] |}.
Proof.
  apply k_anonymity_no_rows.
  - reflexivity.
  - discriminate.
  - intros c [<-|[<-|[]]]; reflexivity.
Defined.

(** ** Grouping errors and l-diversity *)

Lemma mapM_first_raise {A B} (f : A -> result B) (l : list A) :
  (exists a, In a l /\ is_ok (f a) = false) ->
  exists a e, In a l /\ f a = Raise e /\ mapM f l = Raise e.
Proof.
  induction l as [|x t IH]; intros [a [Hin Ha]]; [destruct Hin|].
  simpl. destruct (f x) as [b|e] eqn:Ex.
  - destruct Hin as [->|Hin]; [rewrite Ex in Ha; discriminate|].
    destruct (IH (ex_intro _ a (conj Hin Ha))) as (a' & e & Hin' & Hf & Hm).
    exists a', e. split; [now right|]. split; [exact Hf|]. simpl. now rewrite Hm.
  - exists x, e. split; [now left|]. split; [exact Ex | reflexivity].
Qed.

Lemma groupby_missing_column df qi_cols :
  column_missing df qi_cols ->
  exists c, In c qi_cols /\ has_column df c = false /\
            groupby df qi_cols = Raise (KeyError c).
Proof.
  intros (c & Hin & Hc).
  destruct (mapM_first_raise (key_index df) qi_cols) as (a & e & Ha & Hf & Hm).
  { exists c. split; [exact Hin|]. now rewrite key_index_absent. }
  exists a. unfold key_index in Hf.
  destruct (col_index a (columns df)) as [[i d]|] eqn:Ea; [discriminate|].
  inversion Hf; subst. split; [exact Ha|]. split.
  - unfold has_column. now rewrite Ea.
  - unfold groupby, resolve_keys. destruct qi_cols as [|c0 t]; [destruct Hin|].
    rewrite Hm. reflexivity.
Qed.

(** X4. A quasi-identifier column that the frame lacks makes
    [k_anonymity] and [l_diversity] raise [KeyError] for a missing column
    (the first one), whatever the l-diversity method, valid or not, unless
    there are exactly as many quasi-identifiers as rows; an empty list of
    quasi-identifiers makes both raise [ValueError] on a frame with
    rows. *)
Theorem grouping_errors df qi_cols sensitive_col method :
  (column_missing df qi_cols -> length qi_cols <> length (rows df) ->
   exists c, In c qi_cols /\ has_column df c = false /\
             k_anonymity df qi_cols = Raise (KeyError c) /\
             l_diversity df qi_cols sensitive_col method = Raise (KeyError c)) /\
  (qi_cols = [] -> has_rows df ->
   k_anonymity df qi_cols = Raise (ValueError "No group keys passed!") /\
   l_diversity df qi_cols sensitive_col method = Raise (ValueError "No group keys passed!")).
Proof.
  split.
  - intros Hm _. destruct (groupby_missing_column df qi_cols Hm) as (c & Hin & Hc & Hg).
    exists c. split; [exact Hin|]. split; [exact Hc|].
    unfold k_anonymity, l_diversity, groupby_col. rewrite Hg. split; reflexivity.
  - intros -> _. split; reflexivity.
Qed.

Lemma grouping_errors_witness :
  (exists c, In c ["age_band"; "postcode"] /\ has_column simple_df c = false /\
             k_anonymity simple_df ["age_band"; "postcode"] = Raise (KeyError c) /\
             l_diversity simple_df ["age_band"; "postcode"] "disease" "gini"
             = Raise (KeyError c)) /\
  k_anonymity simple_df [] = Raise (ValueError "No group keys passed!").
Proof.
  split.
  - apply (proj1 (grouping_errors simple_df ["age_band"; "postcode"] "disease" "gini")).
    + exists "postcode". split; [right; now left | reflexivity].
    + discriminate.
  - apply (proj2 (grouping_errors simple_df [] "disease" "gini") eq_refl).
    discriminate.
Defined.

(** X5. With the columns present, a method name other than ["distinct"]
    and ["entropy"] makes [l_diversity] raise [ValueError]; a missing
    sensitive column makes it raise [KeyError], for every method name. *)
Theorem l_diversity_argument_errors df qi_cols sensitive_col method :
  qi_cols <> [] -> columns_present df qi_cols ->
  (has_column df sensitive_col = true ->
   method <> "distinct" -> method <> "entropy" ->
   l_diversity df qi_cols sensitive_col method
   = Raise (ValueError "method must be 'distinct' or 'entropy'")) /\
  (has_column df sensitive_col = false ->
   l_diversity df qi_cols sensitive_col method = Raise (KeyError sensitive_col)).
Proof.
  intros Hne Hall. split.
  - intros Hs Hd He.
    destruct (groupby_col_present df qi_cols sensitive_col Hne Hall Hs) as [grp Hg].
    unfold l_diversity. rewrite Hg. cbn [rbind].
    destruct (String.eqb_spec method "distinct"); [contradiction|].
    destruct (String.eqb_spec method "entropy"); [contradiction|]. reflexivity.
  - intros Hs. destruct (groupby_present df qi_cols Hne Hall) as [idx Hg].
    unfold l_diversity, groupby_col. rewrite Hg. cbn [rbind].
    now rewrite (has_column_false _ _ Hs).
Qed.

Lemma l_diversity_argument_errors_witness :
  l_diversity simple_df ["age_band"; "zip"] "disease" "gini"
  = Raise (ValueError "method must be 'distinct' or 'entropy'") /\
  l_diversity simple_df ["age_band"; "zip"] "ssn" "entropy" = Raise (KeyError "ssn").
Proof.
  assert (Hne : ["age_band"; "zip"] <> @nil string) by discriminate.
  assert (Hall : columns_present simple_df ["age_band"; "zip"])
    by (intros c [<-|[<-|[]]]; reflexivity).
  split.
  - apply (proj1 (l_diversity_argument_errors simple_df _ "disease" "gini" Hne Hall));
      [reflexivity | discriminate | discriminate].
  - apply (proj2 (l_diversity_argument_errors simple_df _ "ssn" "entropy" Hne Hall)).
    reflexivity.
Defined.

Lemma count_add_length v t :
  (length (count_add v t) <= S (length t))%nat.
Proof.
  induction t as [|[w c] t IH]; simpl; [lia|].
  destruct (value_eqb v w); simpl; lia.
Qed.

Lemma value_counts_length l : (length (value_counts l) <= length l)%nat.
Proof.
  unfold value_counts.
  assert (H : forall acc : list (value * Z),
             (length (fold_left (fun t v => count_add v t) l acc)
              <= length acc + length l)%nat).
  { induction l as [|v t IH]; intros acc; simpl; [lia|].
    specialize (IH (count_add v acc)). pose proof (count_add_length v acc). lia. }
  apply (H []).
Qed.

Lemma nunique_bounds l : l <> [] -> (1 <= nunique l <= len l)%Z.
Proof.
  intros Hne. unfold nunique. split.
  - pose proof (len_pos _ (value_counts_nonempty l Hne)). lia.
  - unfold len. pose proof (value_counts_length l). lia.
Qed.

(** X6. On a frame with at least one row the distinct method reports
    [1 <= l_min <= l_avg], and [l_min] is at most the [k_min] that
    [k_anonymity] reports for the same grouping: a class cannot hold more
    distinct sensitive values than rows. *)
Theorem l_diversity_distinct_bounds df qi_cols sensitive_col :
  has_rows df -> qi_cols <> [] -> columns_present df qi_cols ->
  has_column df sensitive_col = true ->
  exists lrep krep,
    l_diversity df qi_cols sensitive_col "distinct" = Ok lrep /\
    k_anonymity df qi_cols = Ok krep /\
    (1 <= l_min lrep)%Q /\ (l_min lrep <= l_avg lrep)%Q /\
    (l_min lrep <= inject_Z (k_min krep))%Q.
Proof.
  intros Hrows Hne Hall Hs.
  destruct (groupby_present df qi_cols Hne Hall) as [idx Hg].
  unfold l_diversity, k_anonymity, groupby_col. rewrite Hg. cbn [rbind].
  unfold has_column in Hs.
  destruct (col_index sensitive_col (columns df)) as [[i d]|]; [|discriminate].
  cbn [rbind]. change (String.eqb "distinct" "distinct") with true. cbv iota.
  rewrite map_map. cbn [snd].
  pose proof (group_rows_nonempty idx (rows df)) as Hcls.
  pose proof (class_sizes_nonempty idx (rows df) Hrows) as Hsne.
  remember (group_rows idx (rows df)) as grouped.
  assert (Hgne : grouped <> []) by (intros E; rewrite E in Hsne; now apply Hsne).
  remember (map (fun g : list value * list row =>
                   inject_Z (nunique (map (cell i) (snd g)))) grouped) as l_values.
  assert (Hlne : l_values <> [])
    by (rewrite Heql_values; destruct grouped; [congruence | discriminate]).
  assert (Hval : forall g, In g grouped ->
                   (1 <= nunique (map (cell i) (snd g)) <= len (snd g))%Z).
  { intros g Hg'. rewrite Forall_forall in Hcls.
    assert (Hm : map (cell i) (snd g) <> []).
    { intros E. apply map_eq_nil in E. now apply (Hcls g Hg'). }
    pose proof (nunique_bounds _ Hm) as Hb. unfold len in Hb |- *.
    rewrite length_map in Hb. exact Hb. }
  eexists; eexists. split; [reflexivity|]. split; [reflexivity|].
  cbn [l_min l_avg k_min].
  rewrite !(match_nonempty l_values) by assumption.
  rewrite (match_nonempty (map (fun g : list value * list row => len (snd g)) grouped))
    by assumption.
  split; [|split].
  - pose proof (Qminimum_In l_values Hlne) as Hin. rewrite Heql_values in Hin at 2.
    apply in_map_iff in Hin as [g [Hq Hin]]. rewrite <- Hq.
    change 1%Q with (inject_Z 1). apply inject_Z_le. now apply Hval.
  - now apply Qminimum_le_Qmean.
  - pose proof (Zminimum_In _ Hsne) as Hin.
    apply in_map_iff in Hin as [g [Hq Hin]]. rewrite <- Hq.
    apply Qle_trans with (inject_Z (nunique (map (cell i) (snd g)))).
    + apply Qminimum_le. rewrite Heql_values. apply in_map_iff. now exists g.
    + apply inject_Z_le. now apply Hval.
Qed.

Lemma l_diversity_distinct_bounds_witness :
  exists lrep krep,
    l_diversity simple_df ["age_band"; "zip"] "disease" "distinct" = Ok lrep /\
    k_anonymity simple_df ["age_band"; "zip"] = Ok krep /\
    (1 <= l_min lrep)%Q /\ (l_min lrep <= l_avg lrep)%Q /\
    (l_min lrep <= inject_Z (k_min krep))%Q.
Proof.
  apply l_diversity_distinct_bounds.
  - discriminate.
  - discriminate.
  - intros c [<-|[<-|[]]]; reflexivity.
  - reflexivity.
Defined.

Lemma log2_nonpos x : (0 < x <= 1 -> log2 x <= 0)%R.
Proof.
  intros [Hx Hle]. rewrite <- (log2_pow2 0), pow2_0. now apply log2_le.
Qed.

Lemma safe_entropy_nonneg (p : list Q) :
  Forall (fun q => (q <= 1)%Q) p -> (0 <= _safe_entropy p)%R.
Proof.
  intros Hp. unfold _safe_entropy.
  assert (Hterms : (Rsum (map (fun q => Q2R q * log2 (Q2R q)) (filter Qpositive p)) <= 0)%R).
  { induction Hp as [|q p Hq Hp IH]; [simpl; lra|]. simpl filter.
    destruct (Qpositive q) eqn:E; [|exact IH].
    cbn [map]. rewrite Rsum_cons.
    apply Qpositive_true in E. apply Qlt_Rlt in E. rewrite Q2R_0 in E.
    apply Qle_Rle in Hq. replace (Q2R 1) with 1%R in Hq by (unfold Q2R; simpl; lra).
    pose proof (log2_nonpos (Q2R q) (conj E Hq)) as Hl.
    assert (Q2R q * log2 (Q2R q) <= 0)%R by nra. lra. }
  destruct (filter Qpositive p); [lra|]. lra.
Qed.

Lemma value_probs_le_1 l : Forall (fun q => (q <= 1)%Q) (value_probs l).
Proof.
  destruct l as [|v0 l0] eqn:El; [constructor|]. rewrite <- El.
  assert (Hne : l <> []) by (rewrite El; discriminate).
  unfold value_probs. rewrite Forall_forall. intros q Hq.
  apply in_map_iff in Hq as [[v c] [<- Hin]]. cbn [snd].
  pose proof (inject_Z_pos _ (len_pos l Hne)) as Hpos.
  apply Qle_shift_div_r; [exact Hpos|]. rewrite Qmult_1_l. apply inject_Z_le.
  rewrite <- (value_counts_total l).
  apply Zsum_ge_each.
  - pose proof (value_counts_nonneg l) as Hnn. rewrite Forall_forall in *.
    intros y Hy. apply in_map_iff in Hy as [vc [<- Hvc]]. now apply Hnn.
  - apply in_map_iff. now exists (v, c).
Qed.

Lemma Rminimum_ge (hs : list R) (a : R) :
  hs <> [] -> (forall h, In h hs -> a <= h)%R -> (a <= Rminimum hs)%R.
Proof.
  destruct hs as [|h0 t]; [congruence|]. intros _ H. simpl.
  assert (Hfold : forall acc, (a <= acc)%R -> (forall h, In h t -> a <= h)%R ->
                              (a <= fold_left Rmin t acc)%R).
  { clear. induction t as [|x t IH]; intros acc Hacc Ht; simpl; [exact Hacc|].
    apply IH; [|intros; apply Ht; now right].
    apply Rmin_glb; [exact Hacc | apply Ht; now left]. }
  apply Hfold; [apply H; now left | intros; apply H; now right].
Qed.

Lemma Rsum_nonneg (hs : list R) :
  (forall h, In h hs -> 0 <= h)%R -> (0 <= Rsum hs)%R.
Proof.
  induction hs as [|h t IH]; intros H; [simpl; lra|]. rewrite Rsum_cons.
  pose proof (H h (or_introl eq_refl)).
  assert (0 <= Rsum t)%R by (apply IH; intros; apply H; now right). lra.
Qed.

Lemma Rmean_nonneg (hs : list R) :
  hs <> [] -> (forall h, In h hs -> 0 <= h)%R -> (0 <= Rmean hs)%R.
Proof.
  intros Hne H. unfold Rmean.
  pose proof (Rsum_nonneg hs H). pose proof (INR_length_pos hs Hne).
  apply Rmult_le_pos; [assumption|]. left. now apply Rinv_0_lt_compat.
Qed.

Lemma pow2_ge_1 x : (0 <= x -> 1 <= pow2 x)%R.
Proof. intros H. rewrite <- pow2_0. now apply pow2_monotone. Qed.

(** X7. Whatever the frame, a report of the entropy method has
    non-negative [entropy_min] and [entropy_avg], effective diversities of
    at least one, and the same [l_min] and [l_avg] as the report of the
    distinct method for the same columns. *)
Theorem l_diversity_entropy_ranges df qi_cols sensitive_col rep :
  l_diversity df qi_cols sensitive_col "entropy" = Ok rep ->
  exists emin eavg effmin effavg drep,
    entropy_min rep = Some emin /\ entropy_avg rep = Some eavg /\
    entropy_effective_min rep = Some effmin /\
    entropy_effective_avg rep = Some effavg /\
    (0 <= emin)%R /\ (0 <= eavg)%R /\ (1 <= effmin)%R /\ (1 <= effavg)%R /\
    l_diversity df qi_cols sensitive_col "distinct" = Ok drep /\
    l_min rep = l_min drep /\ l_avg rep = l_avg drep.
Proof.
  unfold l_diversity.
  destruct (groupby_col df qi_cols sensitive_col) as [grp|e]; [|discriminate].
  cbn [rbind]. change (String.eqb "entropy" "distinct") with false.
  change (String.eqb "entropy" "entropy") with true.
  change (String.eqb "distinct" "distinct") with true. cbv iota.
  intros H; inversion H; subst; clear H.
  cbn [entropy_min entropy_avg entropy_effective_min entropy_effective_avg l_min l_avg].
  remember (map (fun kp : list value * list Q => _safe_entropy (snd kp))
                (filter (fun kp => negb (key_has_na (fst kp)))
                        (map (fun g : list value * list value =>
                                (fst g, value_probs (snd g))) grp))) as entropies.
  assert (Hnn : forall h, In h entropies -> (0 <= h)%R).
  { intros h Hh. rewrite Heqentropies in Hh.
    apply in_map_iff in Hh as [kp [<- Hkp]]. apply filter_In in Hkp as [Hkp _].
    apply in_map_iff in Hkp as [g [<- _]]. cbn [snd].
    apply safe_entropy_nonneg, value_probs_le_1. }
  assert (Hmin : (0 <= match entropies with [] => 0 | _ :: _ => Rminimum entropies end)%R).
  { destruct entropies as [|h0 t] eqn:E; [lra|]. rewrite <- E in *.
    apply Rminimum_ge; [rewrite E; discriminate | exact Hnn]. }
  assert (Havg : (0 <= match entropies with [] => 0 | _ :: _ => Rmean entropies end)%R).
  { destruct entropies as [|h0 t] eqn:E; [lra|]. rewrite <- E in *.
    apply Rmean_nonneg; [rewrite E; discriminate | exact Hnn]. }
  do 5 eexists. repeat (split; [reflexivity|]).
  split; [exact Hmin|]. split; [exact Havg|].
  split; [now apply pow2_ge_1|]. split; [now apply pow2_ge_1|].
  split; [reflexivity|]. split; reflexivity.
Qed.

Lemma l_diversity_entropy_ranges_witness :
  exists rep effmin,
    l_diversity simple_df ["age_band"; "zip"] "disease" "entropy" = Ok rep /\
    entropy_effective_min rep = Some effmin /\ (1 <= effmin)%R.
Proof.
  destruct (l_diversity simple_df ["age_band"; "zip"] "disease" "entropy") as [rep|e] eqn:E;
    [|discriminate E].
  destruct (l_diversity_entropy_ranges simple_df ["age_band"; "zip"] "disease" rep E)
    as (emin & eavg & effmin & effavg & drep & _ & _ & H3 & _ & _ & _ & H7 & _).
  exists rep, effmin. split; [reflexivity|]. split; assumption.
Defined.

(** ** T-closeness: degenerate columns, single class, EMD on empty classes *)

Lemma mapM_pure {A B} (f : A -> B) (l : list A) :
  mapM (fun a => Ok (f a)) l = Ok (map f l).
Proof.
  induction l as [|a t IH]; simpl; [reflexivity|]. now rewrite IH.
Qed.

Lemma Qmaximum_zeros {A} (l : list A) : Qmaximum (map (fun _ => 0%Q) l) = 0%Q.
Proof.
  destruct l as [|a t]; [reflexivity|]. simpl.
  induction t as [|b t IH]; simpl; [reflexivity | exact IH].
Qed.

Lemma Qsum_zeros {A} (l : list A) : (Qsum (map (fun _ => 0%Q) l) == 0)%Q.
Proof.
  induction l as [|a t IH]; cbn [map]; [reflexivity|]. rewrite Qsum_cons, IH. reflexivity.
Qed.

Lemma Qmean_zeros {A} (l : list A) : (Qmean (map (fun _ => 0%Q) l) == 0)%Q.
Proof. unfold Qmean. rewrite Qsum_zeros. unfold Qdiv. now rewrite Qmult_0_l. Qed.

(** X9. When the numeric sensitive column holds no value at all,
    [t_closeness] returns distance zero and no bin edges, for every
    binning method (quantile included) and every distance method. *)
Theorem t_closeness_all_missing pow_neg_third df qi_cols sensitive_col numeric_bins
    binning_method t_method s :
  getitem df sensitive_col = Ok s ->
  is_numeric_dtype s = true -> numbers (s_values s) = [] ->
  qi_cols <> [] -> columns_present df qi_cols ->
  exists rep,
    t_closeness pow_neg_third df qi_cols sensitive_col numeric_bins binning_method t_method
    = Ok rep /\
    t_max rep = 0%Q /\ (t_avg rep == 0)%Q /\ bins rep = None.
Proof.
  intros Hs Hnum Hx Hne Hall.
  assert (Hcol : has_column df sensitive_col = true).
  { unfold getitem in Hs. unfold has_column.
    destruct (col_index sensitive_col (columns df)) as [[i d]|]; [reflexivity | discriminate]. }
  destruct (groupby_col_present df qi_cols sensitive_col Hne Hall Hcol) as [grp Hg].
  unfold t_closeness. rewrite Hs. cbn [rbind].
  unfold t_closeness_locals. rewrite Hnum, Hx. cbn [rbind fst snd].
  rewrite Hg. cbn [rbind local].
  rewrite (mapM_pure (fun _ : list value * list value => 0%Q) grp). cbn [rbind].
  eexists. split; [reflexivity|]. cbn [t_max t_avg bins].
  destruct grp as [|g0 grp'] eqn:Eg; [repeat split; reflexivity|]. rewrite <- Eg.
  rewrite !(match_nonempty (map _ grp)) by (rewrite Eg; discriminate).
  split; [apply Qmaximum_zeros|]. split; [apply Qmean_zeros | reflexivity].
Qed.

Lemma t_closeness_all_missing_witness :
  exists rep,
    t_closeness unit_pow_neg_third no_income_df ["zip"] "income" 15 "quantile" "emd"
    = Ok rep /\
    t_max rep = 0%Q /\ (t_avg rep == 0)%Q /\ bins rep = None.
Proof.
  refine (t_closeness_all_missing unit_pow_neg_third no_income_df ["zip"] "income" 15
            "quantile" "emd" _ eq_refl eq_refl eq_refl _ _).
  - discriminate.
  - intros c [<-|[]]; reflexivity.
Defined.

Lemma add_to_groups_length k r gs :
  (length gs <= length (add_to_groups k r gs))%nat.
Proof.
  induction gs as [|[k' rs] t IH]; simpl; [lia|].
  destruct (key_eqb k k'); simpl; lia.
Qed.

Lemma fold_add_to_groups_length idx rs gs :
  (length gs
   <= length (fold_left (fun gs r => add_to_groups (key_of idx r) r gs) rs gs))%nat.
Proof.
  revert gs. induction rs as [|r t IH]; intros gs; simpl; [lia|].
  specialize (IH (add_to_groups (key_of idx r) r gs)).
  pose proof (add_to_groups_length (key_of idx r) r gs). lia.
Qed.

Lemma fold_single_class idx rs acc k rs' :
  fold_left (fun gs r => add_to_groups (key_of idx r) r gs) rs acc = [(k, rs')] ->
  (acc = [] -> rs' = rs) /\
  (forall k0 rs0, acc = [(k0, rs0)] -> rs' = rs0 ++ rs).
Proof.
  revert acc. induction rs as [|r t IH]; intros acc H; simpl in H.
  - subst acc. split; [discriminate|]. intros k0 rs0 E. inversion E; subst.
    now rewrite app_nil_r.
  - destruct (IH _ H) as [_ IH2]. split.
    + intros ->. simpl in IH2. exact (IH2 _ _ eq_refl).
    + intros k0 rs0 ->. simpl in IH2, H.
      destruct (key_eqb (key_of idx r) k0).
      * rewrite (IH2 _ _ eq_refl). now rewrite <- app_assoc.
      * exfalso.
        pose proof (fold_add_to_groups_length idx t
                      [(k0, rs0); (key_of idx r, [r])]) as Hlen.
        rewrite H in Hlen. simpl in Hlen. lia.
Qed.

Lemma group_rows_single_class idx rs k rs' :
  group_rows idx rs = [(k, rs')] -> rs' = rs.
Proof.
  intros H. exact (proj1 (fold_single_class idx rs [] k rs' H) eq_refl).
Qed.

Lemma Qabs_self a : (Qabs (a - a) == 0)%Q.
Proof.
  assert (H : (a - a == 0)%Q) by ring. rewrite H. reflexivity.
Qed.

Lemma total_variation_distance_self p : (_total_variation_distance p p == 0)%Q.
Proof.
  unfold _total_variation_distance.
  assert (H : forall l : list Q,
             (Qsum (map (fun ab => Qabs (fst ab - snd ab)) (combine l l)) == 0)%Q).
  { induction l as [|a t IH]; [reflexivity|]. cbn [combine map fst snd].
    rewrite Qsum_cons, IH, Qabs_self. reflexivity. }
  rewrite H. reflexivity.
Qed.

Lemma cdf_distance_self u l : (cdf_distance u u l == 0)%Q.
Proof.
  induction l as [|a t IH]; [reflexivity|]. cbn [cdf_distance].
  destruct t as [|b t']; [reflexivity|].
  rewrite IH, Qabs_self. ring.
Qed.

(** The distance function bound by [t_closeness], applied to the whole
    sensitive column, returns zero. *)
Lemma dist_func_whole_column pow_neg_third s numeric_bins binning_method t_method b f :
  t_closeness_locals pow_neg_third s numeric_bins binning_method t_method = Ok (b, Some f) ->
  exists d, f (s_values s) = Ok d /\ (d == 0)%Q.
Proof.
  unfold t_closeness_locals.
  destruct (is_numeric_dtype s).
  - destruct (numbers (s_values s)) as [|x0 xs] eqn:Ex.
    + intros H; inversion H; subst. exists 0%Q. split; reflexivity.
    + destruct (String.eqb binning_method "quantile").
      * destruct (linspace 0 1 (numeric_bins + 1)); cbn [rbind]; discriminate.
      * destruct (histogram_bin_edges (x0 :: xs) _) as [edges|e]; cbn [rbind]; [|discriminate].
        intros H; inversion H; subst. rewrite Ex.
        destruct (String.eqb t_method "emd").
        -- eexists. split; [reflexivity | apply cdf_distance_self].
        -- eexists. split; [reflexivity | apply total_variation_distance_self].
  - intros H; inversion H; subst.
    eexists. split; [reflexivity | apply total_variation_distance_self].
Qed.

(** X10. When all rows fall into one equivalence class, [t_closeness]
    reports [t_max = t_avg = 0]: the class is the whole column.  This
    holds for categorical and numeric sensitive columns and for both
    distance methods (Freedman-Diaconis binning). *)
Theorem t_closeness_single_class pow_neg_third df qi_cols sensitive_col numeric_bins
    binning_method t_method k rs :
  groupby df qi_cols = Ok [(k, rs)] ->
  has_column df sensitive_col = true -> binning_method <> "quantile" ->
  exists rep,
    t_closeness pow_neg_third df qi_cols sensitive_col numeric_bins binning_method t_method
    = Ok rep /\
    (t_max rep == 0)%Q /\ (t_avg rep == 0)%Q.
Proof.
  intros Hg Hs Hbm.
  assert (Hrs : rs = rows df).
  { unfold groupby in Hg.
    destruct (resolve_keys df qi_cols) as [idx|e]; simpl in Hg; [|discriminate].
    inversion Hg as [Hgr]. now apply group_rows_single_class in Hgr. }
  subst rs. unfold t_closeness, groupby_col, getitem. rewrite Hg.
  unfold has_column in Hs.
  destruct (col_index sensitive_col (columns df)) as [[i d]|]; [|discriminate].
  cbn [rbind].
  destruct (t_closeness_locals_bound pow_neg_third
              {| s_dtype := d; s_values := map (cell i) (rows df) |}
              numeric_bins binning_method t_method Hbm) as (b & f & Hl).
  rewrite Hl. cbn [rbind fst snd local map mapM].
  destruct (dist_func_whole_column _ _ _ _ _ _ _ Hl) as (dist & Hd & Hz).
  cbn [s_values] in Hd. rewrite Hd. cbn [rbind].
  eexists. split; [reflexivity|]. cbn [t_max t_avg Qmaximum fold_left].
  split; [exact Hz|]. unfold Qmean. cbn [Qsum fold_right length].
  rewrite Hz. reflexivity.
Qed.

Lemma t_closeness_single_class_witness :
  exists rep,
    t_closeness unit_pow_neg_third one_class_df ["zip"] "disease" 15 "fd" "tvd" = Ok rep /\
    (t_max rep == 0)%Q /\ (t_avg rep == 0)%Q.
Proof.
  refine (t_closeness_single_class unit_pow_neg_third one_class_df ["zip"] "disease" 15
            "fd" "tvd" [VStr "12345"] (rows one_class_df) eq_refl eq_refl _).
  discriminate.
Defined.

Lemma wasserstein_distance_raises u v e :
  wasserstein_distance u v = Raise e -> e = ValueError "Distribution can't be empty.".
Proof.
  unfold wasserstein_distance. destruct u, v; intros H; inversion H; reflexivity.
Qed.

(** X11. With the EMD method on a numeric sensitive column that holds a
    value, an equivalence class whose sensitive values are all missing
    makes [t_closeness] raise the [ValueError] of the Wasserstein
    distance: no report is returned. *)
Theorem t_closeness_emd_empty_class pow_neg_third df qi_cols sensitive_col numeric_bins
    binning_method s grp :
  getitem df sensitive_col = Ok s ->
  is_numeric_dtype s = true -> numbers (s_values s) <> [] ->
  binning_method <> "quantile" ->
  groupby_col df qi_cols sensitive_col = Ok grp ->
  (exists g, In g grp /\ numbers (snd g) = []) ->
  t_closeness pow_neg_third df qi_cols sensitive_col numeric_bins binning_method "emd"
  = Raise (ValueError "Distribution can't be empty.").
Proof.
  intros Hs Hnum Hx Hbm Hg (g & Hin & Hempty).
  unfold t_closeness. rewrite Hs. cbn [rbind].
  unfold t_closeness_locals. rewrite Hnum.
  destruct (numbers (s_values s)) as [|x0 xs] eqn:Ex; [congruence|].
  destruct (String.eqb_spec binning_method "quantile") as [|_]; [contradiction|].
  match goal with
  | |- context [histogram_bin_edges ?x ?bc] =>
      destruct (histogram_bin_edges_returns x bc) as [edges He]; [lia|]; rewrite He
  end.
  cbn [rbind fst snd]. rewrite Hg. cbn [rbind local].
  change (String.eqb "emd" "emd") with true. cbv iota.
  destruct (mapM_first_raise
              (fun g0 : list value * list value => _emd_distance (numbers (snd g0)) (x0 :: xs))
              grp) as (a & e & _ & Hf & Hm).
  { exists g. split; [exact Hin|]. rewrite Hempty. reflexivity. }
  rewrite Hm. cbn [rbind].
  now rewrite (wasserstein_distance_raises _ _ _ Hf).
Qed.

Lemma t_closeness_emd_empty_class_witness :
  t_closeness unit_pow_neg_third partly_missing_df ["zip"] "income" 15 "fd" "emd"
  = Raise (ValueError "Distribution can't be empty.").
Proof.
  refine (t_closeness_emd_empty_class unit_pow_neg_third partly_missing_df ["zip"] "income"
            15 "fd" _ _ eq_refl eq_refl _ _ eq_refl _).
  - discriminate.
  - discriminate.
  - exists ([VStr "54321"], [VNaN]). split; [right; now left | reflexivity].
Defined.

(** ** Total variation distance *)

Lemma abs_diff_sum_sym (p q : list Q) :
  Qsum (map (fun ab => Qabs (fst ab - snd ab)) (combine p q))
  = Qsum (map (fun ab => Qabs (fst ab - snd ab)) (combine q p)).
Proof.
  revert q. induction p as [|a p IH]; intros q.
  - destruct q; reflexivity.
  - destruct q as [|b q]; [reflexivity|].
    cbn [combine map fst snd]. rewrite !Qsum_cons, IH, Qabs_Qminus. reflexivity.
Qed.

(** X12. [_total_variation_distance] is symmetric in its two arguments
    and is zero when both are the same vector. *)
Theorem total_variation_distance_symmetric p q :
  _total_variation_distance p q = _total_variation_distance q p /\
  (_total_variation_distance p p == 0)%Q.
Proof.
  split; [|apply total_variation_distance_self].
  unfold _total_variation_distance. now rewrite abs_diff_sum_sym.
Qed.

(** ** Linkage attack: what the counts count *)

Lemma count_both_add_fresh i m t :
  ~ In i (map fst t) -> count_both_add i m t = t ++ [(i, is_both m)].
Proof.
  induction t as [|[j c] t IH]; simpl; intros Hn; [reflexivity|].
  destruct (Nat.eqb_spec i j) as [->|Hne]; [tauto|]. rewrite IH; tauto.
Qed.

Lemma count_both_add_last i m t c :
  ~ In i (map fst t) ->
  count_both_add i m (t ++ [(i, c)]) = t ++ [(i, (c + is_both m)%Z)].
Proof.
  induction t as [|[j c'] t IH]; simpl; intros Hn.
  - now rewrite Nat.eqb_refl.
  - destruct (Nat.eqb_spec i j) as [->|Hne]; [tauto|]. rewrite IH; tauto.
Qed.

Lemma fold_both_block {A} i (ms : list A) t c :
  ~ In i (map fst t) ->
  fold_left (fun t im => count_both_add (fst im) (snd im) t)
            (map (fun _ => (i, both)) ms) (t ++ [(i, c)])
  = t ++ [(i, (c + len ms)%Z)].
Proof.
  intros Hn. revert c. unfold len.
  induction ms as [|a ms IH]; intros c; simpl.
  - now rewrite Z.add_0_r.
  - rewrite count_both_add_last by assumption. rewrite IH. simpl is_both.
    do 3 f_equal. lia.
Qed.

Lemma fold_merge_block i (ms : list row) t :
  ~ In i (map fst t) ->
  fold_left (fun t im => count_both_add (fst im) (snd im) t)
            (match ms with
             | [] => [(i, left_only)]
             | a :: l => map (fun _ => (i, both)) (a :: l)
             end) t
  = t ++ [(i, len ms)].
Proof.
  intros Hn. destruct ms as [|a ms].
  - simpl. now rewrite count_both_add_fresh.
  - cbn [map fold_left fst snd]. rewrite count_both_add_fresh by assumption.
    rewrite fold_both_block by assumption. unfold len. simpl length.
    do 3 f_equal. simpl is_both. lia.
Qed.

Lemma counts_of_merge aux anonymised_rows keys t :
  NoDup (map fst aux) -> (forall i, In i (map fst aux) -> ~ In i (map fst t)) ->
  fold_left (fun t im => count_both_add (fst im) (snd im) t)
            (merge_left aux anonymised_rows keys) t
  = t ++ map (fun ir => (fst ir, match_count keys anonymised_rows (snd ir))) aux.
Proof.
  unfold merge_left. revert t.
  induction aux as [|[i r] aux IH]; intros t Hnd Hfresh.
  - simpl. now rewrite app_nil_r.
  - cbn [flat_map]. rewrite fold_left_app. cbn [fst snd].
    inversion Hnd as [|? ? Hni Hnd']; subst.
    rewrite fold_merge_block by (apply Hfresh; now left).
    rewrite IH; [| assumption |].
    + rewrite <- app_assoc. reflexivity.
    + intros j Hj Hin. rewrite map_app in Hin.
      apply in_app_or in Hin as [Hin|[<-|[]]].
      * apply (Hfresh j); [now right | assumption].
      * contradiction.
Qed.

Lemma filter_map_swap {A B} (f : A -> B) (P : B -> bool) (l : list A) :
  filter P (map f l) = map f (filter (fun a => P (f a)) l).
Proof.
  induction l as [|a l IH]; simpl; [reflexivity|].
  destruct (P (f a)); simpl; now rewrite IH.
Qed.

Lemma positions_select {A} (Q : A -> bool) (d : A) (pre l : list A) :
  map (fun ir => nth (fst ir) (pre ++ l) d)
      (filter (fun ir => Q (snd ir)) (combine (seq (length pre) (length l)) l))
  = filter Q l.
Proof.
  revert pre. induction l as [|a l IH]; intros pre; [reflexivity|].
  cbn [length seq combine filter snd].
  assert (Hrest : map (fun ir => nth (fst ir) (pre ++ a :: l) d)
                      (filter (fun ir => Q (snd ir))
                              (combine (seq (S (length pre)) (length l)) l))
                  = filter Q l).
  { specialize (IH (pre ++ [a])). rewrite <- app_assoc in IH. simpl in IH.
    rewrite length_app in IH. simpl in IH. rewrite Nat.add_1_r in IH. exact IH. }
  destruct (Q a); cbn [map fst]; rewrite Hrest; [|reflexivity].
  now rewrite nth_middle.
Qed.

Lemma positions_count {A} (Q : A -> bool) (start : nat) (l : list A) :
  length (filter (fun ir : nat * A => Q (snd ir)) (combine (seq start (length l)) l))
  = length (filter Q l).
Proof.
  revert start. induction l as [|a l IH]; intros start; [reflexivity|].
  cbn [length seq combine filter snd]. destruct (Q a); simpl; now rewrite IH.
Qed.

(** The result of the attack written with [match_count]. *)
Lemma linkage_result_by_matches anonymised_df aux_df qi_cols keys :
  has_rows aux_df ->
  merge_keys aux_df anonymised_df qi_cols = Ok keys ->
  exists res,
    simulate_linkage_attack anonymised_df aux_df qi_cols = Ok res /\
    unique res = len (filter (fun r => (match_count keys (rows anonymised_df) r =? 1)%Z)
                             (rows aux_df)) /\
    multiple res = len (filter (fun r => (1 <? match_count keys (rows anonymised_df) r)%Z)
                               (rows aux_df)) /\
    none res = len (filter (fun r => (match_count keys (rows anonymised_df) r =? 0)%Z)
                           (rows aux_df)) /\
    flagged res = filter (fun r => (match_count keys (rows anonymised_df) r =? 1)%Z)
                         (rows aux_df) /\
    records_tested res = len (rows aux_df) /\
    reid_probability res
    = if (len (rows aux_df) =? 0)%Z then 0%Q
      else (inject_Z (unique res) / inject_Z (len (rows aux_df)))%Q.
Proof.
  intros Hrows Hk. unfold simulate_linkage_attack. rewrite Hk. cbn [rbind].
  assert (Haux : len (combine (seq 0 (length (rows aux_df))) (rows aux_df))
                 = len (rows aux_df)).
  { unfold len. now rewrite length_combine, length_seq, Nat.min_id. }
  rewrite match_nonempty.
  2:{ intros E. rewrite E in Haux. pose proof (len_pos _ Hrows). cbn in Haux. lia. }
  cbn [rbind]. eexists. split; [reflexivity|].
  cbn [unique multiple none flagged records_tested reid_probability].
  rewrite Haux.
  unfold counts_by_aux_id.
  rewrite (counts_of_merge _ (rows anonymised_df) keys []).
  2:{ rewrite map_fst_combine_seq. apply seq_NoDup. }
  2:{ intros i _ []. }
  cbn [app].
  set (h := match_count keys (rows anonymised_df)).
  assert (Hsel : forall P : Z -> bool,
             filter (fun ic : nat * Z => P (snd ic))
                    (map (fun ir : nat * row => (fst ir, h (snd ir)))
                         (combine (seq 0 (length (rows aux_df))) (rows aux_df)))
             = map (fun ir : nat * row => (fst ir, h (snd ir)))
                   (filter (fun ir => P (h (snd ir)))
                           (combine (seq 0 (length (rows aux_df))) (rows aux_df)))).
  { intros P. now rewrite filter_map_swap. }
  assert (Hlen : forall P : Z -> bool,
             len (filter (fun ic : nat * Z => P (snd ic))
                         (map (fun ir : nat * row => (fst ir, h (snd ir)))
                              (combine (seq 0 (length (rows aux_df))) (rows aux_df))))
             = len (filter (fun r => P (h r)) (rows aux_df))).
  { intros P. rewrite Hsel. unfold len. rewrite length_map.
    now rewrite (positions_count (fun r => P (h r)) 0 (rows aux_df)). }
  split; [exact (Hlen (fun z => (z =? 1)%Z))|].
  split; [exact (Hlen (fun z => (1 <? z)%Z))|].
  split; [exact (Hlen (fun z => (z =? 0)%Z))|].
  split; [|split; reflexivity].
  rewrite (Hsel (fun z => (z =? 1)%Z)), map_map. cbn [fst].
  exact (positions_select (fun r => (h r =? 1)%Z) [] [] (rows aux_df)).
Qed.

(** X13. With plain column names, the quasi-identifiers in both frames
    and an auxiliary frame with rows, [simulate_linkage_attack] returns,
    and its counts are what the docstring says: [unique], [multiple] and
    [none] are the numbers of auxiliary rows that agree on the
    quasi-identifiers with exactly one, more than one and no row of the
    anonymised frame, and [flagged] lists the auxiliary rows with exactly
    one match, in their order. *)
Theorem simulate_linkage_attack_matches anonymised_df aux_df qi_cols :
  plain_names anonymised_df aux_df qi_cols = true ->
  mergeable aux_df anonymised_df qi_cols -> has_rows aux_df ->
  exists keys res,
    merge_keys aux_df anonymised_df qi_cols = Ok keys /\
    simulate_linkage_attack anonymised_df aux_df qi_cols = Ok res /\
    let matches := match_count keys (rows anonymised_df) in
    unique res = len (filter (fun r => (matches r =? 1)%Z) (rows aux_df)) /\
    multiple res = len (filter (fun r => (1 <? matches r)%Z) (rows aux_df)) /\
    none res = len (filter (fun r => (matches r =? 0)%Z) (rows aux_df)) /\
    flagged res = filter (fun r => (matches r =? 1)%Z) (rows aux_df).
Proof.
  intros _ Hm Hrows. destruct (merge_keys_mergeable _ _ _ Hm) as [keys Hk].
  destruct (linkage_result_by_matches _ _ _ _ Hrows Hk)
    as (res & Hr & H1 & H2 & H3 & H4 & _).
  exists keys, res. split; [exact Hk|]. split; [exact Hr|]. cbv zeta.
  repeat split; assumption.
Qed.

Lemma simulate_linkage_attack_matches_witness :
  exists keys res,
    merge_keys aux_test_df simple_df ["age_band"; "zip"] = Ok keys /\
    simulate_linkage_attack simple_df aux_test_df ["age_band"; "zip"] = Ok res /\
    let matches := match_count keys (rows simple_df) in
    unique res = len (filter (fun r => (matches r =? 1)%Z) (rows aux_test_df)) /\
    multiple res = len (filter (fun r => (1 <? matches r)%Z) (rows aux_test_df)) /\
    none res = len (filter (fun r => (matches r =? 0)%Z) (rows aux_test_df)) /\
    flagged res = filter (fun r => (matches r =? 1)%Z) (rows aux_test_df).
Proof.
  apply simulate_linkage_attack_matches.
  - reflexivity.
  - split; [discriminate|].
    intros c [<-|[<-|[]]]; [exists 0%nat, 0%nat, Object | exists 1%nat, 1%nat, Object];
      split; reflexivity.
  - discriminate.
Defined.

Lemma filter_none {A} (P : A -> bool) (l : list A) :
  (forall a, In a l -> P a = false) -> filter P l = [].
Proof.
  induction l as [|a l IH]; intros H; simpl; [reflexivity|].
  rewrite (H a (or_introl eq_refl)). apply IH. intros b Hb. apply H. now right.
Qed.

(** X14. With plain column names and the quasi-identifiers in both
    frames, an auxiliary frame with rows linked against an anonymised
    frame without rows finds every auxiliary row unmatched:
    [none = records_tested], [unique = multiple = 0], nothing is flagged
    and [reid_probability] is zero. *)
Theorem simulate_linkage_attack_no_rows anonymised_df aux_df qi_cols :
  plain_names anonymised_df aux_df qi_cols = true ->
  rows anonymised_df = [] -> mergeable aux_df anonymised_df qi_cols ->
  has_rows aux_df ->
  exists res,
    simulate_linkage_attack anonymised_df aux_df qi_cols = Ok res /\
    none res = records_tested res /\ unique res = 0%Z /\ multiple res = 0%Z /\
    flagged res = [] /\ (reid_probability res == 0)%Q.
Proof.
  intros _ Hrows Hm Haux. destruct (merge_keys_mergeable _ _ _ Hm) as [keys Hk].
  destruct (linkage_result_by_matches _ _ _ _ Haux Hk)
    as (res & Hr & H1 & H2 & H3 & H4 & H5 & H6).
  exists res. split; [exact Hr|].
  rewrite Hrows in *. unfold match_count in *. cbn [filter len length Z.of_nat] in *.
  rewrite filter_none in H1, H2, H4 by reflexivity.
  rewrite filter_all in H3 by (rewrite Forall_forall; reflexivity).
  rewrite H5. split; [exact H3|]. split; [exact H1|]. split; [exact H2|].
  split; [exact H4|]. rewrite H6, H1.
  destruct (len (rows aux_df) =? 0)%Z; [reflexivity|].
  change (len []) with 0%Z. unfold Qdiv. now rewrite Qmult_0_l.
Qed.

Lemma simulate_linkage_attack_no_rows_witness :
  exists res,
    simulate_linkage_attack empty_df aux_test_df ["age_band"; "zip"] = Ok res /\
    none res = records_tested res /\ unique res = 0%Z /\ multiple res = 0%Z /\
    flagged res = [] /\ (reid_probability res == 0)%Q.
Proof.
  apply simulate_linkage_attack_no_rows.
  - reflexivity.
  - reflexivity.
  - split; [discriminate|].
    intros c [<-|[<-|[]]]; [exists 0%nat, 0%nat, Object | exists 1%nat, 1%nat, Object];
      split; reflexivity.
  - discriminate.
Defined.

(** ** Linking a frame against itself, and k-anonymity *)

Lemma value_eqb_refl v : value_eqb v v = true.
Proof.
  destruct v; simpl; [apply Qeq_bool_iff; reflexivity | apply String.eqb_refl | reflexivity].
Qed.

Lemma value_eqb_sym a b : value_eqb a b = value_eqb b a.
Proof.
  destruct a, b; simpl; try reflexivity.
  - destruct (Qeq_bool q q0) eqn:E1, (Qeq_bool q0 q) eqn:E2; try reflexivity.
    + apply Qeq_bool_iff in E1. symmetry in E1. apply Qeq_bool_iff in E1. congruence.
    + apply Qeq_bool_iff in E2. symmetry in E2. apply Qeq_bool_iff in E2. congruence.
  - apply String.eqb_sym.
Qed.

Lemma value_eqb_trans a b c :
  value_eqb a b = true -> value_eqb b c = true -> value_eqb a c = true.
Proof.
  destruct a, b, c; simpl; try discriminate; try reflexivity.
  - intros H1 H2. apply Qeq_bool_iff in H1, H2. apply Qeq_bool_iff.
    now rewrite H1.
  - intros H1 H2. apply String.eqb_eq in H1, H2. subst. apply String.eqb_refl.
Qed.

Lemma key_eqb_refl k : key_eqb k k = true.
Proof. induction k as [|v k IH]; simpl; [reflexivity|]. now rewrite value_eqb_refl. Qed.

Lemma key_eqb_sym a b : key_eqb a b = key_eqb b a.
Proof.
  revert b. induction a as [|x a IH]; intros [|y b]; simpl; try reflexivity.
  now rewrite value_eqb_sym, IH.
Qed.

Lemma key_eqb_trans a b c :
  key_eqb a b = true -> key_eqb b c = true -> key_eqb a c = true.
Proof.
  revert b c. induction a as [|x a IH]; intros [|y b] [|z c]; simpl;
    try discriminate; try reflexivity.
  intros H1 H2. apply andb_true_iff in H1 as [H1 H1'], H2 as [H2 H2'].
  apply andb_true_iff. split; [eapply value_eqb_trans | eapply IH]; eassumption.
Qed.

(** Every member of a class has the key of the class. *)
Lemma add_to_groups_keyed idx r gs :
  Forall (fun g : group => Forall (fun a => key_eqb (key_of idx a) (fst g) = true) (snd g)) gs ->
  Forall (fun g : group => Forall (fun a => key_eqb (key_of idx a) (fst g) = true) (snd g))
         (add_to_groups (key_of idx r) r gs).
Proof.
  induction 1 as [|[k' rs] t Hg Ht IH]; simpl.
  - constructor; [|constructor]. simpl. constructor; [apply key_eqb_refl | constructor].
  - destruct (key_eqb (key_of idx r) k') eqn:E; constructor; auto.
    simpl in *. apply Forall_app. split; [exact Hg|]. constructor; [exact E | constructor].
Qed.

Lemma group_rows_keyed idx rs :
  Forall (fun g : group => Forall (fun a => key_eqb (key_of idx a) (fst g) = true) (snd g))
         (group_rows idx rs).
Proof.
  unfold group_rows.
  assert (H : Forall (fun g : group =>
                        Forall (fun a => key_eqb (key_of idx a) (fst g) = true) (snd g)) [])
    by constructor.
  revert H. generalize (@nil group).
  induction rs as [|r t IH]; intros acc Hacc; simpl; [assumption|].
  apply IH. now apply add_to_groups_keyed.
Qed.

Lemma filter_length_le {A} (P : A -> bool) (l : list A) :
  (length (filter P l) <= length l)%nat.
Proof. induction l as [|a l IH]; simpl; [lia|]. destruct (P a); simpl; lia. Qed.

Lemma filter_class_length (P : row -> bool) (g : group) (gs : list group) :
  In g gs ->
  (length (filter P (snd g)) <= length (filter P (flat_map snd gs)))%nat.
Proof.
  induction gs as [|g' gs IH]; [intros []|]. cbn [flat_map].
  rewrite filter_app, length_app. intros [->|Hin]; [lia|]. specialize (IH Hin). lia.
Qed.

(** A row of the frame agrees on the quasi-identifiers with at least as
    many rows as its class holds. *)
Lemma class_members_match idx rs r :
  In r rs ->
  exists g, In g (group_rows idx rs) /\ In r (snd g) /\
    (len (snd g)
     <= len (filter (fun a => key_eqb (key_of idx r) (key_of idx a)) rs))%Z.
Proof.
  intros Hin.
  pose proof (group_rows_members idx rs) as Hperm.
  assert (Hflat : In r (flat_map snd (group_rows idx rs))).
  { apply (Permutation_in r (Permutation_sym Hperm)). exact Hin. }
  apply in_flat_map in Hflat as [g [Hg Hr]].
  exists g. split; [exact Hg|]. split; [exact Hr|].
  pose proof (group_rows_keyed idx rs) as Hkeyed.
  rewrite Forall_forall in Hkeyed. specialize (Hkeyed g Hg).
  rewrite Forall_forall in Hkeyed.
  set (P := fun a => key_eqb (key_of idx r) (key_of idx a)).
  assert (Hall : filter P (snd g) = snd g).
  { apply filter_all. rewrite Forall_forall. intros a Ha. unfold P.
    apply key_eqb_trans with (fst g); [now apply Hkeyed|].
    rewrite key_eqb_sym. now apply Hkeyed. }
  pose proof (filter_class_length P g _ Hg) as Hle.
  rewrite Hall in Hle.
  assert (Hlen : length (filter P (flat_map snd (group_rows idx rs)))
                 = length (filter P rs)).
  { apply Permutation_length.
    clear -Hperm. induction Hperm; simpl.
    - constructor.
    - destruct (P x); [now constructor | assumption].
    - destruct (P x), (P y);
        first [apply perm_swap | apply Permutation_refl].
    - eapply perm_trans; eassumption. }
  unfold len. lia.
Qed.

Lemma merge_keys_self df qi_cols idx :
  resolve_keys df qi_cols = Ok idx ->
  exists keys, merge_keys df df qi_cols = Ok keys /\ map fst keys = idx /\ map snd keys = idx.
Proof.
  unfold resolve_keys. intros H.
  assert (Hne : qi_cols <> []) by (intros ->; discriminate).
  assert (Hmap : mapM (key_index df) qi_cols = Ok idx) by (destruct qi_cols; [congruence | exact H]).
  clear H.
  assert (Hm : exists keys, mapM (merge_key df df) qi_cols = Ok keys /\
                            map fst keys = idx /\ map snd keys = idx).
  { revert idx Hmap. clear Hne.
    induction qi_cols as [|c cs IH]; intros idx H; cbn [mapM] in *.
    - injection H as <-. exists []. repeat split.
    - unfold key_index, merge_key in *.
      destruct (col_index c (columns df)) as [[i d]|]; cbn [rbind] in *; [|discriminate].
      destruct (mapM _ cs) as [ixs|e]; cbn [rbind] in H; [|discriminate].
      injection H as <-.
      destruct (IH ixs eq_refl) as (keys & Hk & Hf & Hs).
      rewrite Hk. cbn [rbind]. exists ((i, i) :: keys). cbn [map fst snd].
      rewrite Hf, Hs. repeat split. }
  assert (Hclash : existsb (keys_clash df df) qi_cols = false).
  { apply not_true_is_false. intros Hc.
    apply existsb_exists in Hc as (c & _ & Hc). unfold keys_clash in Hc.
    destruct (col_index c (columns df)) as [[i d]|]; [destruct d|]; discriminate. }
  destruct Hm as (keys & Hm & Hf & Hs). exists keys. split; [|now split].
  unfold merge_keys. rewrite Hm, Hclash. cbn [rbind].
  destruct qi_cols; [congruence|]. now rewrite xorb_nilpotent.
Qed.

(** X15. Linking a frame with rows and plain column names against itself
    leaves no row unmatched, and when [k_anonymity] reports [k_min >= 2]
    no row is matched uniquely: [unique = 0], nothing is flagged and
    [reid_probability] is zero. *)
Theorem self_linkage_respects_k_anonymity df qi_cols :
  plain_names df df qi_cols = true -> has_rows df ->
  qi_cols <> [] -> columns_present df qi_cols ->
  exists res krep,
    simulate_linkage_attack df df qi_cols = Ok res /\
    k_anonymity df qi_cols = Ok krep /\
    none res = 0%Z /\
    ((2 <= k_min krep)%Z ->
     unique res = 0%Z /\ flagged res = [] /\ (reid_probability res == 0)%Q).
Proof.
  intros _ Hrows Hne Hall.
  destruct (resolve_keys_present df qi_cols Hne Hall) as [idx Hidx].
  destruct (merge_keys_self df qi_cols idx Hidx) as (keys & Hk & Hf & Hs).
  destruct (linkage_result_by_matches df df qi_cols keys Hrows Hk)
    as (res & Hr & H1 & _ & H3 & H4 & _ & H6).
  unfold match_count in *. rewrite Hf, Hs in *.
  exists res. unfold k_anonymity, groupby. rewrite Hidx. cbn [rbind].
  eexists. split; [exact Hr|]. split; [reflexivity|]. cbn [k_min].
  pose proof (@filter_none row) as Hempty. specialize (fun Q => Hempty Q (rows df)).
  split.
  - rewrite H3, Hempty; [reflexivity|]. intros r Hin.
    destruct (class_members_match idx (rows df) r Hin) as (g & Hg & Hrg & Hle).
    pose proof (group_rows_nonempty idx (rows df)) as Hcls.
    rewrite Forall_forall in Hcls. pose proof (len_pos _ (Hcls g Hg)).
    apply Z.eqb_neq. intros E. rewrite E in Hle. lia.
  - intros Hk2.
    assert (Hfil : filter (fun r => (len (filter
                     (fun a => key_eqb (key_of idx r) (key_of idx a)) (rows df)) =? 1)%Z)
                     (rows df) = []).
    { apply Hempty. intros r Hin.
      destruct (class_members_match idx (rows df) r Hin) as (g & Hg & Hrg & Hle).
      assert (Hsize : (2 <= len (snd g))%Z).
      { assert (Hs' : In (len (snd g))
                        (map (fun g : list value * list row => len (snd g))
                             (group_rows idx (rows df))))
          by (apply in_map_iff; now exists g).
        pose proof (Zminimum_le _ _ Hs') as Hmin.
        rewrite (match_nonempty (map (fun g : list value * list row => len (snd g))
                                     (group_rows idx (rows df)))) in Hk2
          by (intros E; rewrite E in Hs'; destruct Hs').
        lia. }
      apply Z.eqb_neq. intros E. rewrite E in Hle. lia. }
    rewrite Hfil in H1, H4. rewrite H6, H1, H4.
    split; [reflexivity|]. split; [reflexivity|].
    destruct (len (rows df) =? 0)%Z; [reflexivity|].
    change (len []) with 0%Z. unfold Qdiv. now rewrite Qmult_0_l.
Qed.

Lemma self_linkage_respects_k_anonymity_witness :
  exists res krep,
    simulate_linkage_attack two_anonymous_df two_anonymous_df ["zip"] = Ok res /\
    k_anonymity two_anonymous_df ["zip"] = Ok krep /\
    none res = 0%Z /\ unique res = 0%Z /\ flagged res = [] /\
    (reid_probability res == 0)%Q.
Proof.
  destruct (self_linkage_respects_k_anonymity two_anonymous_df ["zip"])
    as (res & krep & Hr & Hk & Hn & Hu).
  - reflexivity.
  - discriminate.
  - discriminate.
  - intros c [<-|[]]; reflexivity.
  - exists res, krep. split; [exact Hr|]. split; [exact Hk|]. split; [exact Hn|].
    apply Hu. inversion Hk. cbn [k_min]. vm_compute. discriminate.
Defined.

(* ------------------------------------------------------------------ *)
(** ** The report assembler *)

Lemma Qlt_bool_true a b : Qlt_bool a b = true -> (a < b)%Q.
Proof.
  unfold Qlt_bool. intros H. apply negb_true_iff in H.
  apply Qnot_le_lt. intros Hle. apply Qle_bool_iff in Hle. congruence.
Qed.

Lemma Qlt_bool_false a b : Qlt_bool a b = false -> (b <= a)%Q.
Proof.
  unfold Qlt_bool. intros H. apply negb_false_iff in H. now apply Qle_bool_iff.
Qed.

Lemma bound_local_entry {A} (r : result A) (a : A) :
  bound_local r = Some a <-> report_entry r = Computed a.
Proof. destruct r; simpl; split; intros H; inversion H; reflexivity. Qed.

Ltac open_flag_goal :=
  repeat match goal with
         | |- _ /\ _ => split
         | |- _ <-> _ => split
         | |- ~ _ => intro
         | |- forall _, _ => intro
         end;
  cbn [In] in *;
  repeat match goal with
         | H : Qlt_bool _ _ = true |- _ => apply Qlt_bool_true in H
         | H : Qlt_bool _ _ = false |- _ => apply Qlt_bool_false in H
         | H : _ \/ _ |- _ => destruct H
         | H : False |- _ => destruct H
         | H : _ /\ _ |- _ => destruct H
         | H : exists _, _ |- _ => destruct H
         | H : Some _ = Some _ |- _ => inversion H; subst; clear H
         | H : None = Some _ |- _ => discriminate H
         | H : Some _ = None |- _ => discriminate H
         | H : KBelowThreshold _ _ = _ |- _ => inversion H; subst; clear H
         | H : EntropyLBelowThreshold _ _ = _ |- _ => inversion H; subst; clear H
         | H : DistinctLBelowThreshold _ _ = _ |- _ => inversion H; subst; clear H
         | H : TAboveThreshold _ _ = _ |- _ => inversion H; subst; clear H
         | H : ReidTooHigh _ _ = _ |- _ => inversion H; subst; clear H
         | H1 : ?x = Some ?a, H2 : ?x = Some ?b |- _ =>
             tryif constr_eq a b then fail
             else (assert (a = b) by congruence; subst; clear H2)
         end.

Ltac close_flag_goal :=
  first [ reflexivity | assumption | contradiction | lia | lra | congruence
        | now left | now (right; left) | now (right; right; left)
        | now (right; right; right; left)
        | eexists; repeat split; first [reflexivity | eassumption] ].

(** The flags of lines 370-386, read back from a returned pair. *)
Lemma risk_section_flags p krep lrep trep fr :
  risk_section p krep lrep trep = Ok fr ->
  length (fst fr) = length (snd fr) /\ (length (fst fr) <= 3)%nat /\
  (forall a b, In (KBelowThreshold a b) (fst fr) <->
     k_required p = Some b /\
     exists rep, krep = Some rep /\ k_min rep = a /\ (a < b)%Z) /\
  (forall e b, In (EntropyLBelowThreshold e b) (fst fr) <->
     l_required p = Some b /\ l_method p = "entropy" /\
     exists rep, lrep = Some rep /\ entropy_effective_min rep = Some e /\ (e < Q2R b)%R) /\
  (forall a b, In (DistinctLBelowThreshold a b) (fst fr) <->
     l_required p = Some b /\ l_method p <> "entropy" /\
     exists rep, lrep = Some rep /\ l_min rep = a /\ (a < b)%Q) /\
  (forall a b, In (TAboveThreshold a b) (fst fr) <->
     t_required p = Some b /\
     exists rep, trep = Some rep /\ t_max rep = a /\ (b < a)%Q) /\
  (forall a b, ~ In (ReidTooHigh a b) (fst fr)).
Proof.
  unfold risk_section, local.
  destruct (k_required p) as [kr|];
    [destruct krep as [rk|];
       [cbn [rbind]; destruct (Z.ltb_spec (k_min rk) kr) | intros Hfr; discriminate Hfr]|];
  cbn [rbind];
  (destruct (l_required p) as [lr|];
    [destruct (String.eqb_spec (l_method p) "entropy");
     (destruct lrep as [rl|]; [cbn [rbind] | intros Hfr; discriminate Hfr]);
     [destruct (entropy_effective_min rl) as [eff|] eqn:Eeff;
        [destruct (Rlt_dec eff (Q2R lr)) | intros Hfr; discriminate Hfr]
     | destruct (Qlt_bool (l_min rl) lr) eqn:Cl ] |]);
  cbn [rbind];
  (destruct (t_required p) as [tr|];
    [destruct trep as [rt|];
       [cbn [rbind]; destruct (Qlt_bool tr (t_max rt)) eqn:Ct | intros Hfr; discriminate Hfr]|]);
  cbn [rbind fst snd app]; intros Hfr;
  injection Hfr as <-; cbn [fst snd length];
  (split; [reflexivity|]); (split; [lia|]);
  open_flag_goal; close_flag_goal.
Qed.

Section ReportProperties.

Variable pow_neg_third : Z -> Q.
Variable correlation_scan :
  DataFrame -> list string -> string -> list CorrelationEntry * option string.

(** A returned report, read back: every part of it in terms of the calls
    that produced it. *)
Lemma full_report_returned p external_df w rep :
  fst (full_report pow_neg_third correlation_scan p external_df w) = Ok rep ->
  exists fr cls,
    risk_section p (bound_local (k_anonymity (self_df w) (qi p)))
      (bound_local (l_diversity (self_df w) (qi p) (sensitive p) (l_method p)))
      (bound_local (t_closeness pow_neg_third (self_df w) (qi p) (sensitive p)
                      (numeric_bins p) (binning_method p) (t_method p))) = Ok fr /\
    class_patterns p (self_df w) = Ok cls /\
    rep_k_anonymity rep = report_entry (k_anonymity (self_df w) (qi p)) /\
    rep_l_diversity rep
    = report_entry (l_diversity (self_df w) (qi p) (sensitive p) (l_method p)) /\
    rep_t_closeness rep
    = report_entry (t_closeness pow_neg_third (self_df w) (qi p) (sensitive p)
                      (numeric_bins p) (binning_method p) (t_method p)) /\
    rare_combinations (behaviour_patterns rep) = fst cls /\
    sensitive_skew (behaviour_patterns rep) = snd cls /\
    match external_df with
    | None =>
        attack_simulation rep = None /\
        risk_flags rep = fst fr /\ repair_suggestions rep = snd fr
    | Some ext =>
        exists res,
          simulate_linkage_attack (self_df w) ext (qi p) = Ok res /\
          attack_simulation rep = Some res /\
          match reid_required p with
          | Some rr =>
              if Qlt_bool rr (reid_probability res)
              then risk_flags rep = fst fr ++ [ReidTooHigh (reid_probability res) rr] /\
                   repair_suggestions rep = snd fr ++ [SuppressUniqueCombinations]
              else risk_flags rep = fst fr /\ repair_suggestions rep = snd fr
          | None => risk_flags rep = fst fr /\ repair_suggestions rep = snd fr
          end
    end.
Proof.
  unfold full_report.
  destruct (suggest_thresholds _ _ _) as [sug|e]; [|discriminate].
  destruct (k_anonymity _ _) as [rk|ek]; destruct (l_diversity _ _ _ _) as [rl|el];
    destruct (t_closeness _ _ _ _ _ _ _) as [rt|et]; cbn [attempt fst snd bound_local];
    (destruct (risk_section _ _ _ _) as [fr|e]; [cbn [rbind] | discriminate]);
    (destruct external_df as [ext|];
     [destruct (simulate_linkage_attack _ _ _) as [res|e]; [cbn [rbind] | discriminate];
      destruct (reid_required p) as [rr|];
      [destruct (Qlt_bool rr (reid_probability res)) eqn:Crr|]
     |]);
    cbn [rbind];
    (destruct (class_patterns _ _) as [cls|e]; [cbn [rbind] | discriminate]);
    intros H; injection H as <-; exists fr, cls;
    cbn [rep_k_anonymity rep_l_diversity rep_t_closeness behaviour_patterns
         rare_combinations sensitive_skew attack_simulation risk_flags
         repair_suggestions report_entry fst snd];
    rewrite ?app_nil_r; repeat split;
    try (eexists; split; [reflexivity|]; split; [reflexivity|];
         try match goal with Hc : Qlt_bool _ _ = _ |- _ => rewrite Hc end;
         split; reflexivity).
Qed.

(** X16. A returned report carries a risk flag exactly when the matching
    threshold was given, the metric was computed and its value violates
    the threshold: [k_min < k_required], effective entropy or [l_min]
    below [l_required] (by [l_method]), [t_max > t_required], and
    [reid_probability > reid_required] of the attack simulation. *)
Theorem full_report_flags_exact p external_df w rep :
  fst (full_report pow_neg_third correlation_scan p external_df w) = Ok rep ->
  (forall a b, In (KBelowThreshold a b) (risk_flags rep) <->
     k_required p = Some b /\
     exists krep, rep_k_anonymity rep = Computed krep /\ k_min krep = a /\ (a < b)%Z) /\
  (forall e b, In (EntropyLBelowThreshold e b) (risk_flags rep) <->
     l_required p = Some b /\ l_method p = "entropy" /\
     exists lrep, rep_l_diversity rep = Computed lrep /\
                  entropy_effective_min lrep = Some e /\ (e < Q2R b)%R) /\
  (forall a b, In (DistinctLBelowThreshold a b) (risk_flags rep) <->
     l_required p = Some b /\ l_method p <> "entropy" /\
     exists lrep, rep_l_diversity rep = Computed lrep /\ l_min lrep = a /\ (a < b)%Q) /\
  (forall a b, In (TAboveThreshold a b) (risk_flags rep) <->
     t_required p = Some b /\
     exists trep, rep_t_closeness rep = Computed trep /\ t_max trep = a /\ (b < a)%Q) /\
  (forall a b, In (ReidTooHigh a b) (risk_flags rep) <->
     reid_required p = Some b /\
     exists res, attack_simulation rep = Some res /\
                 reid_probability res = a /\ (b < a)%Q).
Proof.
  intros Hrep.
  destruct (full_report_returned p external_df w rep Hrep)
    as (fr & cls & Hfr & _ & Hk & Hl & Ht & _ & _ & Hext).
  destruct (risk_section_flags _ _ _ _ _ Hfr) as (_ & _ & Fk & Fe & Fd & Ft & Fr).
  assert (Hflags : exists extra, risk_flags rep = fst fr ++ extra /\
            (forall f, In f extra -> exists a b, f = ReidTooHigh a b) /\
            forall a b, In (ReidTooHigh a b) extra <->
              reid_required p = Some b /\
              exists res, attack_simulation rep = Some res /\
                          reid_probability res = a /\ (b < a)%Q).
  { destruct external_df as [ext|].
    - destruct Hext as (res & _ & Hatt & Hreid).
      destruct (reid_required p) as [rr|];
        [destruct (Qlt_bool rr (reid_probability res)) eqn:Crr|];
        destruct Hreid as [Hf _];
        [exists [ReidTooHigh (reid_probability res) rr] | exists [] | exists []];
        rewrite ?app_nil_r; (split; [exact Hf|]);
        (split; [intros f Hin; cbn [In] in Hin;
                 first [destruct Hin as [<-|[]]; eauto | destruct Hin]|]);
        intros a b; rewrite Hatt; open_flag_goal; close_flag_goal.
    - destruct Hext as (Hatt & Hf & _). exists []. rewrite app_nil_r.
      split; [exact Hf|]. split; [intros f []|].
      intros a b. rewrite Hatt. open_flag_goal; close_flag_goal. }
  destruct Hflags as (extra & Hfl & Hother & Fx). rewrite Hfl.
  split; [|split; [|split; [|split]]]; intros a b; rewrite in_app_iff.
  - rewrite Fk, Hk. setoid_rewrite bound_local_entry.
    split; [intros [H|H]; [exact H|] | intros H; left; exact H].
    apply Hother in H as (x & y & Hxy). discriminate Hxy.
  - rewrite Fe, Hl. setoid_rewrite bound_local_entry.
    split; [intros [H|H]; [exact H|] | intros H; left; exact H].
    apply Hother in H as (x & y & Hxy). discriminate Hxy.
  - rewrite Fd, Hl. setoid_rewrite bound_local_entry.
    split; [intros [H|H]; [exact H|] | intros H; left; exact H].
    apply Hother in H as (x & y & Hxy). discriminate Hxy.
  - rewrite Ft, Ht. setoid_rewrite bound_local_entry.
    split; [intros [H|H]; [exact H|] | intros H; left; exact H].
    apply Hother in H as (x & y & Hxy). discriminate Hxy.
  - rewrite <- Fx.
    split; [intros [H|H]; [|exact H] | intros H; right; exact H].
    exfalso. exact (Fr _ _ H).
Qed.

End ReportProperties.

Lemma full_report_flags_exact_witness :
  exists rep,
    fst (full_report unit_pow_neg_third no_correlation threshold_params
           (Some aux_test_df) (fresh_validator simple_df)) = Ok rep /\
    In (KBelowThreshold 2 5) (risk_flags rep) /\
    forall a b, ~ In (ReidTooHigh a b) (risk_flags rep).
Proof.
  assert (H : exists rep,
             fst (full_report unit_pow_neg_third no_correlation threshold_params
                    (Some aux_test_df) (fresh_validator simple_df)) = Ok rep)
    by (eexists; vm_compute; reflexivity).
  destruct H as [rep H]. exists rep. split; [exact H|].
  destruct (full_report_flags_exact _ _ _ _ _ _ H) as (Fk & _ & _ & _ & Fr).
  vm_compute in H. injection H as <-. split.
  - apply Fk. split; [reflexivity|].
    eexists. split; [reflexivity|]. split; reflexivity.
  - intros a b Hin. apply Fr in Hin as (Hb & res & Hres & Ha & Hlt).
    injection Hres as <-. injection Hb as <-. cbn [reid_probability] in Ha.
    subst a. revert Hlt. vm_compute. discriminate.
Defined.

(** ** Behaviour patterns *)

Lemma class_patterns_returned p df cls :
  class_patterns p df = Ok cls ->
  exists idx sens,
    resolve_keys df (qi p) = Ok idx /\ key_index df (sensitive p) = Ok sens /\
    fst cls
    = map (fun g : list value * list row =>
             {| rc_qi_values := combine (qi p) (fst g); rc_count := len (snd g) |})
          (filter (fun g : list value * list row => (len (snd g) <=? rare_threshold p)%Z)
                  (group_rows idx (rows df))) /\
    snd cls
    = flat_map
        (fun g : list value * list row =>
           match dominant (map (cell sens) (snd g)) with
           | Some (v, f) =>
               if Qlt_bool (dominance_threshold p) f
               then [{| sk_qi_values := combine (qi p) (fst g);
                        dominant_sensitive := v; frequency := f |}]
               else []
           | None => []
           end)
        (group_rows idx (rows df)).
Proof.
  unfold class_patterns, groupby.
  destruct (resolve_keys df (qi p)) as [idx|e]; [cbn [rbind] | discriminate].
  destruct (key_index df (sensitive p)) as [sens|e]; [cbn [rbind] | discriminate].
  intros H. injection H as <-. exists idx, sens. repeat split.
Qed.

Lemma group_rows_no_rows idx : group_rows idx [] = [].
Proof. reflexivity. Qed.

Section PatternProperties.

Variable pow_neg_third : Z -> Q.
Variable correlation_scan :
  DataFrame -> list string -> string -> list CorrelationEntry * option string.

(** X17. Every rare combination of a returned report has a count between
    1 and [rare_threshold], and the list is empty exactly when the frame
    has no rows or the [k_min] that [k_anonymity] reports exceeds
    [rare_threshold]. *)
Theorem full_report_rare_combinations p external_df w rep :
  fst (full_report pow_neg_third correlation_scan p external_df w) = Ok rep ->
  Forall (fun rc => (1 <= rc_count rc <= rare_threshold p)%Z)
         (rare_combinations (behaviour_patterns rep)) /\
  exists krep,
    k_anonymity (self_df w) (qi p) = Ok krep /\
    (rare_combinations (behaviour_patterns rep) = [] <->
     rows (self_df w) = [] \/ (rare_threshold p < k_min krep)%Z).
Proof.
  intros Hrep.
  destruct (full_report_returned pow_neg_third correlation_scan p external_df w rep Hrep)
    as (fr & cls & _ & Hcls & _ & _ & _ & Hrare & _).
  destruct (class_patterns_returned p _ cls Hcls) as (idx & sens & Hidx & _ & Hfst & _).
  rewrite Hrare, Hfst. clear Hrare Hfst Hcls Hrep.
  pose proof (group_rows_nonempty idx (rows (self_df w))) as Hne.
  rewrite Forall_forall in Hne.
  split.
  - rewrite Forall_forall. intros rc Hin.
    apply in_map_iff in Hin as (g & <- & Hg). apply filter_In in Hg as [Hg Hle].
    cbn [rc_count]. apply Z.leb_le in Hle.
    pose proof (len_pos _ (Hne g Hg)). lia.
  - unfold k_anonymity, groupby. rewrite Hidx. cbn [rbind].
    eexists. split; [reflexivity|]. cbn [k_min].
    destruct (rows (self_df w)) as [|r0 rs] eqn:Erows.
    + rewrite group_rows_no_rows. cbn. tauto.
    + assert (Hsz : map (fun g : list value * list row => len (snd g))
                        (group_rows idx (r0 :: rs)) <> [])
        by (apply class_sizes_nonempty; discriminate).
      rewrite (match_nonempty _ _ _ Hsz).
      split.
      * intros Hnil. right. apply map_eq_nil in Hnil.
        pose proof (Zminimum_In _ Hsz) as Hin.
        apply in_map_iff in Hin as (g & Hlen & Hg).
        destruct (Z.leb_spec (len (snd g)) (rare_threshold p)) as [Hle|Hgt]; [|lia].
        exfalso.
        assert (Hf : In g (filter (fun g : list value * list row =>
                                     (len (snd g) <=? rare_threshold p)%Z)
                                  (group_rows idx (r0 :: rs)))).
        { apply filter_In. split; [exact Hg|]. now apply Z.leb_le. }
        rewrite Hnil in Hf. destruct Hf.
      * intros [Hnil|Hlt]; [discriminate|].
        rewrite filter_none; [reflexivity|]. intros g Hg. apply Z.leb_gt.
        assert (Hin : In (len (snd g))
                         (map (fun g : list value * list row => len (snd g))
                              (group_rows idx (r0 :: rs))))
          by (apply in_map_iff; now exists g).
        pose proof (Zminimum_le _ _ Hin). lia.
Qed.

End PatternProperties.

Lemma full_report_rare_combinations_witness :
  exists rep krep,
    fst (full_report unit_pow_neg_third no_correlation threshold_params None
           (fresh_validator simple_df)) = Ok rep /\
    k_anonymity simple_df ["age_band"; "zip"] = Ok krep /\
    rare_combinations (behaviour_patterns rep) = [].
Proof.
  assert (H : exists rep,
             fst (full_report unit_pow_neg_third no_correlation threshold_params None
                    (fresh_validator simple_df)) = Ok rep)
    by (eexists; vm_compute; reflexivity).
  destruct H as [rep H].
  destruct (full_report_rare_combinations _ _ _ _ _ _ H) as (_ & krep & Hk & Hiff).
  exists rep, krep. split; [exact H|]. split; [exact Hk|].
  apply Hiff. right. vm_compute in Hk. injection Hk as <-. reflexivity.
Defined.

Lemma fold_left_pick {A} (c : A -> A -> bool) (t : list A) (a : A) :
  In (fold_left (fun m x => if c m x then x else m) t a) (a :: t).
Proof.
  revert a. induction t as [|x t IH]; intros a; cbn [fold_left]; [now left|].
  destruct (IH (if c a x then x else a)) as [H|H].
  - rewrite <- H. destruct (c a x); [right; now left | now left].
  - right. now right.
Qed.

(** The dominant value of a class comes with one of the class's relative
    frequencies. *)
Lemma dominant_frequency l v f :
  dominant l = Some (v, f) -> In f (value_probs l).
Proof.
  unfold dominant.
  destruct (combine (map fst (value_counts l)) (value_probs l)) as [|vp t] eqn:E;
    [discriminate|].
  intros H. injection H as H.
  pose proof (fold_left_pick (fun m x : value * Q => Qlt_bool (snd m) (snd x)) t vp) as Hin.
  cbv beta in Hin. rewrite H, <- E in Hin. now apply in_combine_r in Hin.
Qed.

Lemma fold_left_largest (t : list (value * Q)) (a : value * Q) :
  let m := fold_left (fun m x => if Qlt_bool (snd m) (snd x) then x else m) t a in
  (snd a <= snd m)%Q /\ Forall (fun x => (snd x <= snd m)%Q) t.
Proof.
  revert a. induction t as [|x t IH]; intros a; cbn [fold_left].
  - split; [apply Qle_refl | constructor].
  - destruct (IH (if Qlt_bool (snd a) (snd x) then x else a)) as [Hle Hall].
    destruct (Qlt_bool (snd a) (snd x)) eqn:C.
    + split; [|constructor; assumption].
      apply Qle_trans with (snd x); [|exact Hle].
      apply Qlt_le_weak. now apply Qlt_bool_true.
    + split; [exact Hle|]. constructor; [|exact Hall].
      apply Qle_trans with (snd a); [|exact Hle]. now apply Qlt_bool_false.
Qed.

Lemma snd_combine_maps {A B C} (f : A -> B) (g : A -> C) (l : list A) :
  map snd (combine (map f l) (map g l)) = map g l.
Proof. induction l as [|a l IH]; cbn; [reflexivity | now rewrite IH]. Qed.

(** The dominant value of a class is one of its values, paired with its
    relative frequency, and no value of the class is more frequent. *)
Lemma dominant_largest l v f :
  dominant l = Some (v, f) ->
  In (v, f) (combine (map fst (value_counts l)) (value_probs l)) /\
  Forall (fun q => (q <= f)%Q) (value_probs l).
Proof.
  unfold dominant.
  destruct (combine (map fst (value_counts l)) (value_probs l)) as [|vp t] eqn:E;
    [discriminate|].
  intros H. injection H as H.
  pose proof (fold_left_pick (fun m x : value * Q => Qlt_bool (snd m) (snd x)) t vp) as Hin.
  pose proof (fold_left_largest t vp) as [Hle Hall].
  cbv beta in Hin. cbv zeta in Hle, Hall. rewrite H in Hin, Hle, Hall. cbn [snd] in Hle, Hall.
  split; [exact Hin|].
  assert (Hs : value_probs l = map snd (vp :: t)).
  { rewrite <- E. unfold value_probs. now rewrite snd_combine_maps. }
  rewrite Hs. rewrite Forall_forall. intros q Hq.
  apply in_map_iff in Hq as (x & <- & Hx).
  destruct Hx as [<-|Hx]; [exact Hle|].
  rewrite Forall_forall in Hall. now apply Hall.
Qed.

Section SkewProperties.

Variable pow_neg_third : Z -> Q.
Variable correlation_scan :
  DataFrame -> list string -> string -> list CorrelationEntry * option string.

(** X18. Every sensitive-skew entry of a returned report has a frequency
    above [dominance_threshold] and at most 1, so a threshold of 1 or more
    leaves the list empty.  The list has one entry per equivalence class
    whose most frequent sensitive value has a share above the threshold
    and no other entry: there are as many entries as such classes, every
    entry describes a class of the grouping (its quasi-identifier values,
    one of its sensitive values with that value's share, no value of the
    class being more frequent), and every such class is described by an
    entry. *)
Theorem full_report_sensitive_skew p external_df w rep :
  fst (full_report pow_neg_third correlation_scan p external_df w) = Ok rep ->
  Forall (fun sk => (dominance_threshold p < frequency sk)%Q /\ (frequency sk <= 1)%Q)
         (sensitive_skew (behaviour_patterns rep)) /\
  ((1 <= dominance_threshold p)%Q -> sensitive_skew (behaviour_patterns rep) = []) /\
  exists classes sens,
    groupby (self_df w) (qi p) = Ok classes /\
    key_index (self_df w) (sensitive p) = Ok sens /\
    length (sensitive_skew (behaviour_patterns rep))
    = length (filter (skewed (dominance_threshold p) sens) classes) /\
    (forall sk, In sk (sensitive_skew (behaviour_patterns rep)) ->
       exists g, In g classes /\ skewed (dominance_threshold p) sens g = true /\
                 describes_class (qi p) sens g sk) /\
    (forall g, In g classes -> skewed (dominance_threshold p) sens g = true ->
       exists sk, In sk (sensitive_skew (behaviour_patterns rep)) /\
                  describes_class (qi p) sens g sk).
Proof.
  intros Hrep.
  destruct (full_report_returned pow_neg_third correlation_scan p external_df w rep Hrep)
    as (fr & cls & _ & Hcls & _ & _ & _ & _ & Hskew & _).
  destruct (class_patterns_returned p _ cls Hcls) as (idx & sens & Hidx & Hsens & _ & Hsnd).
  rewrite Hskew, Hsnd. clear Hskew Hsnd Hcls Hrep.
  set (entry := fun g : list value * list row =>
                  match dominant (map (cell sens) (snd g)) with
                  | Some (v, f) =>
                      if Qlt_bool (dominance_threshold p) f
                      then [{| sk_qi_values := combine (qi p) (fst g);
                               dominant_sensitive := v; frequency := f |}]
                      else []
                  | None => []
                  end).
  assert (Hentry : forall g sk, In sk (entry g) ->
            skewed (dominance_threshold p) sens g = true /\
            describes_class (qi p) sens g sk /\
            (dominance_threshold p < frequency sk)%Q /\ (frequency sk <= 1)%Q).
  { intros g sk Hin. unfold entry in Hin. unfold skewed.
    destruct (dominant (map (cell sens) (snd g))) as [[v f]|] eqn:Ed; [|destruct Hin].
    destruct (Qlt_bool (dominance_threshold p) f) eqn:Clt; [|destruct Hin].
    destruct Hin as [<-|[]]. destruct (dominant_largest _ _ _ Ed) as [Hin Hmax].
    split; [reflexivity|]. split; [now split|].
    cbn [frequency]. split; [now apply Qlt_bool_true|].
    pose proof (value_probs_le_1 (map (cell sens) (snd g))) as Hle.
    rewrite Forall_forall in Hle. apply Hle. now apply dominant_frequency with v. }
  assert (Hall : Forall (fun sk => (dominance_threshold p < frequency sk)%Q /\
                                   (frequency sk <= 1)%Q)
                        (flat_map entry (group_rows idx (rows (self_df w))))).
  { rewrite Forall_forall. intros sk Hin. apply in_flat_map in Hin as (g & _ & Hin).
    now apply (Hentry g sk Hin). }
  split; [exact Hall|]. split.
  - intros Hthr.
    destruct (flat_map _ _) as [|sk t]; [reflexivity|].
    exfalso. apply Forall_inv in Hall. destruct Hall as [Hlt Hle].
    apply (Qlt_irrefl 1). apply Qle_lt_trans with (dominance_threshold p); [exact Hthr|].
    now apply Qlt_le_trans with (frequency sk).
  - unfold groupby. rewrite Hidx. cbn [rbind].
    exists (group_rows idx (rows (self_df w))), sens.
    split; [reflexivity|]. split; [exact Hsens|]. clear Hall. split; [|split].
    + induction (group_rows idx (rows (self_df w))) as [|g gs IH];
        cbn [flat_map filter length]; [reflexivity|].
      rewrite length_app, IH. unfold entry at 1, skewed at 2.
      destruct (dominant (map (cell sens) (snd g))) as [[v f]|];
        [destruct (Qlt_bool (dominance_threshold p) f)|]; reflexivity.
    + intros sk Hin. apply in_flat_map in Hin as (g & Hg & Hin).
      exists g. split; [exact Hg|]. destruct (Hentry g sk Hin) as (Hs & Hd & _).
      now split.
    + intros g Hg Hs.
      assert (Hex : exists sk, In sk (entry g)).
      { unfold entry. unfold skewed in Hs.
        destruct (dominant (map (cell sens) (snd g))) as [[v f]|]; [|discriminate].
        rewrite Hs. eexists. now left. }
      destruct Hex as [sk Hin]. exists sk. split.
      * apply in_flat_map. now exists g.
      * now apply (Hentry g sk Hin).
Qed.

End SkewProperties.

Lemma full_report_sensitive_skew_witness :
  exists rep,
    fst (full_report unit_pow_neg_third no_correlation (default_params ["zip"] "income")
           None (fresh_validator income_df)) = Ok rep /\
    length (sensitive_skew (behaviour_patterns rep)) = 1%nat /\
    Forall (fun sk => (9#10 < frequency sk)%Q /\ (frequency sk <= 1)%Q)
           (sensitive_skew (behaviour_patterns rep)) /\
    exists classes sens,
      groupby income_df ["zip"] = Ok classes /\
      key_index income_df "income" = Ok sens /\
      length (sensitive_skew (behaviour_patterns rep))
      = length (filter (skewed (9#10) sens) classes).
Proof.
  eexists. split; [vm_compute; reflexivity|]. split; [reflexivity|].
  match goal with
  | |- Forall _ (sensitive_skew (behaviour_patterns ?r)) /\ _ =>
      assert (H : fst (full_report unit_pow_neg_third no_correlation
                         (default_params ["zip"] "income") None
                         (fresh_validator income_df)) = Ok r)
        by (vm_compute; reflexivity);
      destruct (full_report_sensitive_skew _ _ _ _ _ _ H)
        as (Hb & _ & classes & sens & Hg & Hs & Hlen & _)
  end.
  split; [exact Hb|]. exists classes, sens. repeat split; assumption.
Defined.

(** ** The log file *)

Section LogProperties.

Variable pow_neg_third : Z -> Q.
Variable correlation_scan :
  DataFrame -> list string -> string -> list CorrelationEntry * option string.

Lemma full_report_log p external_df w :
  exists lines,
    snd (full_report pow_neg_third correlation_scan p external_df w) = append_log w lines /\
    length lines = (if has_column (self_df w) (sensitive p) then 5 else 0)%nat.
Proof.
  unfold full_report, suggest_thresholds, getitem, has_column.
  destruct (col_index (sensitive p) (columns (self_df w))) as [[i d]|]; cbn [rbind].
  - destruct (attempt (k_anonymity _ _) _ _) as [[krep k_dict] k_line].
    destruct (attempt (l_diversity _ _ _ _) _ _) as [[lrep ldict] l_line].
    destruct (attempt (t_closeness _ _ _ _ _ _ _) _ _) as [[trep t_dict] t_line].
    cbn [snd]. eexists. split; reflexivity.
  - exists []. split; [|reflexivity]. cbn [snd]. unfold append_log.
    rewrite app_nil_r. now destruct w.
Qed.

(** X19. Over any sequence of calls on one validator the log only grows:
    the earlier lines stay as they are, each [full_report] call on a frame
    that has the sensitive column appends exactly five lines (whether it
    returns or raises), and no other call writes anything. *)
Theorem log_grows_by_five_per_report (cs : list call) (w : world) :
  exists added,
    log_txt (snd (invoke_all pow_neg_third correlation_scan cs w)) = log_txt w ++ added /\
    length added = (5 * length (filter (logging_call (self_df w)) cs))%nat.
Proof.
  revert w. induction cs as [|c cs IH]; intros w.
  - exists []. cbn. now rewrite app_nil_r.
  - cbn [invoke_all snd filter].
    assert (Hstep : exists lines,
               snd (invoke pow_neg_third correlation_scan c w) = append_log w lines /\
               length lines = (if logging_call (self_df w) c then 5 else 0)%nat).
    { destruct c; cbn [invoke snd logging_call];
        try (exists []; split; [|reflexivity]; unfold append_log;
             rewrite app_nil_r; now destruct w).
      apply full_report_log. }
    destruct Hstep as (lines & Hw & Hlen).
    destruct (IH (snd (invoke pow_neg_third correlation_scan c w))) as (added & Hlog & Hadd).
    rewrite Hw in Hlog, Hadd |- *. cbn [append_log self_df log_txt] in Hlog, Hadd.
    exists (lines ++ added). rewrite Hlog, <- app_assoc. split; [reflexivity|].
    rewrite length_app, Hadd, Hlen.
    destruct (logging_call (self_df w) c); cbn [length]; lia.
Qed.

End LogProperties.

(** ** Well-formed calls *)

Lemma risk_section_returns p rk rl rt :
  (l_method p = "entropy" -> entropy_effective_min rl <> None) ->
  exists fr, risk_section p (Some rk) (Some rl) (Some rt) = Ok fr.
Proof.
  intros Heff. unfold risk_section, local.
  destruct (k_required p) as [kr|]; [cbn [rbind]; destruct (k_min rk <? kr)%Z|];
    cbn [rbind];
    (destruct (l_required p) as [lr|];
     [destruct (String.eqb_spec (l_method p) "entropy") as [Em|Em]; cbn [rbind];
      [destruct (entropy_effective_min rl) as [eff|];
       [destruct (Rlt_dec eff (Q2R lr)) | now destruct (Heff Em)]
      | destruct (Qlt_bool (l_min rl) lr)]|]);
    cbn [rbind];
    (destruct (t_required p) as [tr|];
     [cbn [rbind]; destruct (Qlt_bool tr (t_max rt))|]);
    cbn [rbind]; eauto.
Qed.

Lemma l_diversity_returns df qi_cols sensitive_col method :
  qi_cols <> [] -> columns_present df qi_cols -> has_column df sensitive_col = true ->
  method = "distinct" \/ method = "entropy" ->
  exists rep, l_diversity df qi_cols sensitive_col method = Ok rep /\
              (method = "entropy" -> entropy_effective_min rep <> None).
Proof.
  intros Hne Hall Hs Hm. unfold l_diversity.
  destruct (groupby_col_present df qi_cols sensitive_col Hne Hall Hs) as [grp ->].
  cbn [rbind]. destruct Hm as [-> | ->]; cbn [String.eqb Ascii.eqb Bool.eqb];
    eexists; (split; [reflexivity|]); intros H; cbn [entropy_effective_min];
    discriminate.
Qed.

Section WellFormedCalls.

Variable pow_neg_third : Z -> Q.
Variable correlation_scan :
  DataFrame -> list string -> string -> list CorrelationEntry * option string.

(** Outside the EMD method every [dist_func] the analyzer binds returns a
    distance for every class. *)
Lemma dist_func_returns s numeric_bins binning_method t_method bins f :
  t_method <> "emd" ->
  t_closeness_locals pow_neg_third s numeric_bins binning_method t_method = Ok (bins, Some f) ->
  forall subs, exists d, f subs = Ok d.
Proof.
  intros Hm. unfold t_closeness_locals.
  destruct (is_numeric_dtype s).
  - destruct (numbers (s_values s)) as [|x0 xs].
    + intros H; injection H as _ <-. eauto.
    + destruct (String.eqb binning_method "quantile").
      * destruct (linspace 0 1 (numeric_bins + 1)); cbn [rbind]; discriminate.
      * destruct (histogram_bin_edges (x0 :: xs) _) as [edges|e]; cbn [rbind];
          [|discriminate].
        intros H; injection H as _ <-. intros subs.
        destruct (String.eqb_spec t_method "emd") as [E|_]; [contradiction|]. eauto.
  - intros H; injection H as _ <-. eauto.
Qed.

Lemma t_closeness_returns df qi_cols sensitive_col numeric_bins binning_method t_method :
  qi_cols <> [] -> columns_present df qi_cols -> has_column df sensitive_col = true ->
  binning_method <> "quantile" -> t_method <> "emd" ->
  exists rep, t_closeness pow_neg_third df qi_cols sensitive_col numeric_bins
                binning_method t_method = Ok rep.
Proof.
  intros Hne Hall Hs Hb Hm. unfold t_closeness.
  destruct (getitem_present df sensitive_col Hs) as [s ->]. cbn [rbind].
  destruct (t_closeness_locals_bound pow_neg_third s numeric_bins binning_method t_method Hb)
    as (bins & f & Hloc).
  rewrite Hloc. cbn [rbind fst snd].
  destruct (groupby_col_present df qi_cols sensitive_col Hne Hall Hs) as [grp ->].
  cbn [rbind local].
  destruct (mapM_total (fun g : list value * list value => f (snd g)) grp) as [ts ->].
  { intros g _. exact (dist_func_returns _ _ _ _ _ _ Hm Hloc (snd g)). }
  cbn [rbind]. eauto.
Qed.

(** X20. On a frame that has the quasi-identifier and sensitive columns,
    with a known [l_method], a binning other than [quantile], a method
    other than [emd] and an auxiliary frame (if any) that has rows, plain
    column names and the quasi-identifier columns, [full_report] returns a
    report for any thresholds: all three metrics are computed, and the
    attack simulation is present exactly when an auxiliary frame was
    given. *)
Theorem full_report_returns p external_df w :
  qi p <> [] -> columns_present (self_df w) (qi p) ->
  has_column (self_df w) (sensitive p) = true ->
  l_method p = "distinct" \/ l_method p = "entropy" ->
  binning_method p <> "quantile" -> t_method p <> "emd" ->
  (forall ext, external_df = Some ext ->
     plain_names (self_df w) ext (qi p) = true /\
     mergeable ext (self_df w) (qi p) /\ has_rows ext) ->
  exists rep krep lrep trep,
    fst (full_report pow_neg_third correlation_scan p external_df w) = Ok rep /\
    rep_k_anonymity rep = Computed krep /\
    rep_l_diversity rep = Computed lrep /\
    rep_t_closeness rep = Computed trep /\
    (attack_simulation rep = None <-> external_df = None).
Proof.
  intros Hne Hall Hs Hlm Hb Hm Hext. unfold full_report.
  destruct (getitem_present _ _ Hs) as [s Hget].
  unfold suggest_thresholds. rewrite Hget. cbn [rbind].
  destruct (groupby_present (self_df w) (qi p) Hne Hall) as [grouped Hg].
  unfold k_anonymity at 1. rewrite Hg. cbn [rbind].
  destruct (l_diversity_returns (self_df w) (qi p) (sensitive p) (l_method p)
              Hne Hall Hs Hlm) as (rl & -> & Heff).
  destruct (t_closeness_returns (self_df w) (qi p) (sensitive p) (numeric_bins p)
              (binning_method p) (t_method p) Hne Hall Hs Hb Hm) as (rt & ->).
  cbn [attempt fst snd].
  match goal with
  | |- context [risk_section p (Some ?rk) (Some rl) (Some rt)] =>
      destruct (risk_section_returns p rk rl rt Heff) as [fr ->]
  end.
  cbn [rbind].
  destruct (class_patterns_present p (self_df w) Hne Hall Hs) as [cls Hcls].
  destruct external_df as [ext|].
  - destruct (Hext ext eq_refl) as (_ & Hmerge & Hrows).
    destruct (merge_keys_mergeable _ _ _ Hmerge) as [keys Hk].
    destruct (linkage_result_by_matches (self_df w) ext (qi p) keys Hrows Hk)
      as (res & -> & _).
    cbn [rbind].
    destruct (reid_required p) as [rr|];
      [destruct (Qlt_bool rr (reid_probability res))|];
      cbn [rbind]; rewrite Hcls; cbn [rbind fst snd];
      do 4 eexists; (split; [reflexivity|]);
      cbn [rep_k_anonymity rep_l_diversity rep_t_closeness attack_simulation];
      repeat split; discriminate.
  - cbn [rbind]. rewrite Hcls. cbn [rbind fst snd].
    do 4 eexists. split; [reflexivity|].
    cbn [rep_k_anonymity rep_l_diversity rep_t_closeness attack_simulation].
    repeat split.
Qed.

End WellFormedCalls.

(** ** The command line *)

Lemma missing_from_present df cols :
  columns_present df cols -> missing_from df cols = [].
Proof.
  intros H. unfold missing_from. apply filter_none.
  intros c Hc. now rewrite (H c Hc).
Qed.

Section CommandLine.

Variable pow_neg_third : Z -> Q.
Variable correlation_scan :
  DataFrame -> list string -> string -> list CorrelationEntry * option string.

Lemma t_closeness_quantile_no_report df qi_cols sensitive_col numeric_bins t_method s :
  getitem df sensitive_col = Ok s ->
  is_numeric_dtype s = true -> numbers (s_values s) <> [] ->
  exists e, t_closeness pow_neg_third df qi_cols sensitive_col numeric_bins
              "quantile" t_method = Raise e.
Proof.
  intros Hs Hnum Hx. unfold t_closeness. rewrite Hs. cbn [rbind].
  unfold t_closeness_locals. rewrite Hnum.
  destruct (numbers (s_values s)) as [|x0 xs]; [congruence|].
  change (String.eqb "quantile" "quantile") with true. cbv iota.
  destruct (linspace 0 1 (numeric_bins + 1)); cbn [rbind fst snd]; [|eauto].
  destruct (groupby_col df qi_cols sensitive_col); cbn [rbind local]; eauto.
Qed.

Lemma full_report_quantile_unbound p external_df w s :
  binning_method p = "quantile" -> t_required p <> None ->
  qi p <> [] -> columns_present (self_df w) (qi p) ->
  getitem (self_df w) (sensitive p) = Ok s ->
  is_numeric_dtype s = true -> numbers (s_values s) <> [] ->
  l_method p = "distinct" \/ l_method p = "entropy" ->
  exists lines,
    full_report pow_neg_third correlation_scan p external_df w
    = (Raise (UnboundLocalError "trep"), append_log w lines) /\
    length lines = 5%nat.
Proof.
  intros Hbin Ht Hne Hall Hs Hnum Hx Hlm.
  assert (Hcol : has_column (self_df w) (sensitive p) = true).
  { unfold getitem in Hs. unfold has_column.
    destruct (col_index _ (columns (self_df w))) as [[i d]|]; [reflexivity | discriminate]. }
  unfold full_report, suggest_thresholds. rewrite Hs. cbn [rbind].
  destruct (groupby_present (self_df w) (qi p) Hne Hall) as [grouped Hg].
  unfold k_anonymity at 1. rewrite Hg. cbn [rbind].
  destruct (l_diversity_returns (self_df w) (qi p) (sensitive p) (l_method p)
              Hne Hall Hcol Hlm) as (rl & -> & Heff).
  rewrite Hbin.
  destruct (t_closeness_quantile_no_report (self_df w) (qi p) (sensitive p)
              (numeric_bins p) (t_method p) s Hs Hnum Hx) as [e ->].
  cbn [attempt fst snd].
  eexists. split; [apply f_equal2; [|reflexivity] | reflexivity].
  unfold risk_section, local.
  destruct (k_required p) as [kr|]; [cbn [rbind]; destruct (_ <? kr)%Z|];
    cbn [rbind];
    (destruct (l_required p) as [lr|];
     [destruct (String.eqb_spec (l_method p) "entropy") as [Em|Em]; cbn [rbind];
      [destruct (entropy_effective_min rl) as [eff|];
       [destruct (Rlt_dec eff (Q2R lr)) | now destruct (Heff Em)]
      | destruct (Qlt_bool (l_min rl) lr)]|]);
    cbn [rbind];
    (destruct (t_required p) as [tr|]; [reflexivity | congruence]).
Qed.

(** X21. The command line always passes its thresholds, so with
    [--binning-method quantile] on a numeric sensitive column that holds a
    value it never writes a report: the column checks pass, five lines
    are logged, and the run ends in [UnboundLocalError] for [trep]. *)
Theorem cli_quantile_never_reports args df aux_df log s :
  arg_binning_method args = "quantile" ->
  arg_qi args <> [] -> columns_present df (arg_qi args) ->
  getitem df (arg_sensitive args) = Ok s ->
  is_numeric_dtype s = true -> numbers (s_values s) <> [] ->
  arg_l_method args = "distinct" \/ arg_l_method args = "entropy" ->
  (forall aux, aux_df = Some aux -> columns_present aux (arg_qi args)) ->
  exists lines,
    cli_main pow_neg_third correlation_scan args df aux_df log
    = (Raise (UnboundLocalError "trep"), log ++ lines) /\
    length lines = 5%nat.
Proof.
  intros Hbin Hne Hall Hs Hnum Hx Hlm Haux.
  assert (Hcol : has_column df (arg_sensitive args) = true).
  { unfold getitem in Hs. unfold has_column.
    destruct (col_index _ (columns df)) as [[i d]|]; [reflexivity | discriminate]. }
  unfold cli_main.
  rewrite (missing_from_present df (arg_qi args ++ [arg_sensitive args])).
  2:{ intros c Hc. apply in_app_or in Hc as [Hc|[<-|[]]]; [now apply Hall | exact Hcol]. }
  assert (Hmiss : match aux_df with
                  | Some aux => missing_from aux (arg_qi args)
                  | None => []
                  end = []).
  { destruct aux_df as [aux|]; [|reflexivity].
    apply missing_from_present. now apply Haux. }
  rewrite Hmiss.
  match goal with
  | |- context [full_report _ _ ?p ?e ?w] =>
      destruct (full_report_quantile_unbound p e w s) as (lines & Hfr & Hlen);
        try assumption; [discriminate|]; rewrite Hfr
  end.
  exists lines. split; [reflexivity | exact Hlen].
Qed.

End CommandLine.

Lemma cli_quantile_never_reports_witness :
  exists lines,
    cli_main unit_pow_neg_third no_correlation
      {| arg_qi := ["age_band"; "zip"]; arg_sensitive := "income"; arg_k := 5;
         arg_l := 2; arg_l_method := "entropy"; arg_reid_probability := 5#100;
         arg_t := 2#10; arg_numeric_bins := 15; arg_dominance_threshold := 9#10;
         arg_rare_threshold := 1; arg_binning_method := "quantile" |}
      simple_df None []
    = (Raise (UnboundLocalError "trep"), [] ++ lines) /\
    length lines = 5%nat.
Proof.
  eapply cli_quantile_never_reports.
  - reflexivity.
  - discriminate.
  - intros c [<-|[<-|[]]]; reflexivity.
  - reflexivity.
  - reflexivity.
  - discriminate.
  - right. reflexivity.
  - discriminate.
Defined.

Lemma full_report_returns_witness :
  exists rep krep lrep trep,
    fst (full_report unit_pow_neg_third no_correlation threshold_params
           (Some aux_test_df) (fresh_validator simple_df)) = Ok rep /\
    rep_k_anonymity rep = Computed krep /\
    rep_l_diversity rep = Computed lrep /\
    rep_t_closeness rep = Computed trep /\
    (attack_simulation rep = None <-> Some aux_test_df = None).
Proof.
  apply full_report_returns.
  - discriminate.
  - intros c [<-|[<-|[]]]; reflexivity.
  - reflexivity.
  - left. reflexivity.
  - discriminate.
  - discriminate.
  - intros ext Hext. injection Hext as <-.
    split; [reflexivity|]. split; [|discriminate]. split; [discriminate|].
    intros c [<-|[<-|[]]];
      [exists 0%nat, 0%nat, Object | exists 1%nat, 1%nat, Object]; split; reflexivity.
Defined.

(** ** Names that [t_closeness] does not check *)

Lemma mapM_ext {A B} (f g : A -> result B) (l : list A) :
  (forall a, f a = g a) -> mapM f l = mapM g l.
Proof.
  intros H. induction l as [|a t IH]; cbn [mapM]; [reflexivity|].
  now rewrite H, IH.
Qed.

Section UncheckedNames.

Variable pow_neg_third : Z -> Q.

Lemma t_closeness_locals_names s numeric_bins binning_method t_method :
  binning_method <> "quantile" -> t_method <> "emd" ->
  exists bins f g,
    t_closeness_locals pow_neg_third s numeric_bins binning_method t_method
    = Ok (bins, Some f) /\
    t_closeness_locals pow_neg_third s numeric_bins "fd" "tvd" = Ok (bins, Some g) /\
    forall subs, f subs = g subs.
Proof.
  intros Hb Hm. unfold t_closeness_locals.
  destruct (is_numeric_dtype s).
  - destruct (numbers (s_values s)) as [|x0 xs].
    + do 3 eexists. repeat split.
    + destruct (String.eqb_spec binning_method "quantile") as [E|_]; [contradiction|].
      change (String.eqb "fd" "quantile") with false. cbv iota.
      match goal with
      | |- context [histogram_bin_edges ?x ?bc] =>
          destruct (histogram_bin_edges_returns x bc) as [edges He]; [lia|]; rewrite He
      end.
      cbn [rbind]. do 3 eexists. split; [reflexivity|]. split; [reflexivity|].
      intros subs. destruct (String.eqb_spec t_method "emd") as [E|_]; [contradiction|].
      reflexivity.
  - do 3 eexists. repeat split.
Qed.

(** X22. [t_closeness] checks neither name: any [binning_method] other
    than [quantile] is treated as [fd] and any [t_method] other than
    [emd] as [tvd]; the outcome is the one of the defaults, with only the
    [method] field of the report echoing the name given. *)
Theorem t_closeness_unchecked_names df qi_cols sensitive_col numeric_bins
    binning_method t_method :
  binning_method <> "quantile" -> t_method <> "emd" ->
  t_closeness pow_neg_third df qi_cols sensitive_col numeric_bins binning_method t_method
  = (rep <- t_closeness pow_neg_third df qi_cols sensitive_col numeric_bins "fd" "tvd" ;;
     Ok {| t_max := t_max rep; t_avg := t_avg rep; bins := bins rep;
           tc_method := t_method |}).
Proof.
  intros Hb Hm. unfold t_closeness.
  destruct (getitem df sensitive_col) as [s|e]; [cbn [rbind] | reflexivity].
  destruct (t_closeness_locals_names s numeric_bins binning_method t_method Hb Hm)
    as (bs & f & g & -> & -> & Hfg).
  cbn [rbind fst snd].
  destruct (groupby_col df qi_cols sensitive_col) as [grp|e]; [cbn [rbind local] | reflexivity].
  rewrite (mapM_ext (fun g0 : list value * list value => f (snd g0))
                    (fun g0 : list value * list value => g (snd g0)))
    by (intros a; apply Hfg).
  destruct (mapM _ grp) as [ts|e]; reflexivity.
Qed.

End UncheckedNames.

Lemma t_closeness_unchecked_names_witness :
  t_closeness unit_pow_neg_third income_df ["zip"] "income" 15 "sturges" "kl"
  = (rep <- t_closeness unit_pow_neg_third income_df ["zip"] "income" 15 "fd" "tvd" ;;
     Ok {| t_max := t_max rep; t_avg := t_avg rep; bins := bins rep;
           tc_method := "kl" |}).
Proof.
  apply t_closeness_unchecked_names; discriminate.
Defined.

(** ** The data summary *)

Lemma missing_rate_range df i :
  match missing_rate df i with
  | Some q => rows df <> [] /\ (0 <= q <= 1)%Q
  | None => rows df = []
  end.
Proof.
  unfold missing_rate. destruct (rows df) as [|r rs] eqn:E; [reflexivity|].
  split; [discriminate|].
  apply Qdiv_unit_interval.
  - split; [apply len_nonneg|]. unfold len.
    pose proof (filter_length_le (fun r0 => isna (cell i r0)) (r :: rs)). lia.
  - apply len_pos. discriminate.
Qed.

Section SummaryProperties.

Variable pow_neg_third : Z -> Q.
Variable correlation_scan :
  DataFrame -> list string -> string -> list CorrelationEntry * option string.

(** X23. On a frame with distinct column names, the data summary of a
    returned report counts the rows and columns of the frame and lists one
    missing rate per column, in column order; each rate lies in [0,1], and
    on a frame without rows every rate is NaN. *)
Theorem full_report_data_summary p external_df w rep :
  NoDup (map fst (columns (self_df w))) ->
  fst (full_report pow_neg_third correlation_scan p external_df w) = Ok rep ->
  n_rows (data_summary rep) = len (rows (self_df w)) /\
  n_cols (data_summary rep) = len (columns (self_df w)) /\
  map fst (missing_rates (data_summary rep)) = map fst (columns (self_df w)) /\
  Forall (fun cr => match snd cr with
                    | Some q => rows (self_df w) <> [] /\ (0 <= q <= 1)%Q
                    | None => rows (self_df w) = []
                    end)
         (missing_rates (data_summary rep)).
Proof.
  intros _. unfold full_report.
  destruct (suggest_thresholds _ _ _) as [sug|e]; [|discriminate].
  destruct (attempt (k_anonymity _ _) _ _) as [[krep k_dict] k_line].
  destruct (attempt (l_diversity _ _ _ _) _ _) as [[lrep ldict] l_line].
  destruct (attempt (t_closeness _ _ _ _ _ _ _) _ _) as [[trep t_dict] t_line].
  cbn [fst].
  destruct (risk_section _ _ _ _) as [fr|e]; [cbn [rbind] | discriminate].
  match goal with
  | |- context [rbind ?a _] => destruct a as [attack|e]; [cbn [rbind] | discriminate]
  end.
  destruct (class_patterns _ _) as [cls|e]; [cbn [rbind] | discriminate].
  intros H. injection H as <-. cbn [data_summary summarise n_rows n_cols missing_rates].
  split; [reflexivity|]. split; [reflexivity|]. split.
  - rewrite map_map. cbn [fst].
    generalize 0%nat. induction (columns (self_df w)) as [|c cs IH]; intros start;
      cbn [length seq combine map]; [reflexivity|].
    now rewrite IH.
  - rewrite Forall_forall. intros cr Hin. apply in_map_iff in Hin as (ic & <- & _).
    cbn [snd]. apply missing_rate_range.
Qed.

End SummaryProperties.

Lemma full_report_data_summary_witness :
  exists rep,
    fst (full_report unit_pow_neg_third no_correlation threshold_params None
           (fresh_validator simple_df)) = Ok rep /\
    n_rows (data_summary rep) = 5%Z /\ n_cols (data_summary rep) = 4%Z /\
    map fst (missing_rates (data_summary rep)) = ["age_band"; "zip"; "disease"; "income"].
Proof.
  assert (H : exists rep,
             fst (full_report unit_pow_neg_third no_correlation threshold_params None
                    (fresh_validator simple_df)) = Ok rep)
    by (eexists; vm_compute; reflexivity).
  destruct H as [rep H]. exists rep. split; [exact H|].
  destruct (full_report_data_summary unit_pow_neg_third no_correlation threshold_params
              None (fresh_validator simple_df) rep) as (Hr & Hc & Hm & _).
  - cbn. repeat constructor; cbn; intuition discriminate.
  - exact H.
  - rewrite Hr, Hc, Hm. repeat split.
Defined.

(** ** Errors of the linkage attack *)

Lemma mapM_raise_split {A B} (f : A -> result B) (l : list A) :
  (exists a, In a l /\ is_ok (f a) = false) ->
  exists pre a post e,
    l = pre ++ a :: post /\ (forall x, In x pre -> is_ok (f x) = true) /\
    f a = Raise e /\ mapM f l = Raise e.
Proof.
  induction l as [|x t IH]; intros [a [Hin Ha]]; [destruct Hin|].
  destruct (f x) as [b|e] eqn:Ex.
  - destruct Hin as [->|Hin]; [rewrite Ex in Ha; discriminate|].
    destruct (IH (ex_intro _ a (conj Hin Ha))) as (pre & a' & post & e & -> & Hpre & Hf & Hm).
    exists (x :: pre), a', post, e. split; [reflexivity|]. split.
    + intros y [<-|Hy]; [now rewrite Ex | now apply Hpre].
    + split; [exact Hf|]. cbn [mapM]. rewrite Ex. cbn [rbind]. now rewrite Hm.
  - exists [], x, t, e. split; [reflexivity|]. split; [intros y []|].
    split; [exact Ex|]. cbn [mapM]. now rewrite Ex.
Qed.

Lemma merge_key_returns left right c :
  is_ok (merge_key left right c) = has_column left c && has_column right c.
Proof.
  unfold merge_key, has_column.
  destruct (col_index c (columns right)) as [[j d]|];
    destruct (col_index c (columns left)) as [[i d']|]; reflexivity.
Qed.

(** X24. The errors of [simulate_linkage_attack] on frames with plain
    column names.  An empty list of quasi-identifiers makes the merge raise
    [IndexError].  When some quasi-identifier is not a column of both
    frames the merge raises [KeyError] naming the first such
    quasi-identifier, whatever the rows and dtypes of the frames. *)
Theorem simulate_linkage_attack_errors anonymised_df aux_df qi_cols :
  plain_names anonymised_df aux_df qi_cols = true ->
  (qi_cols = [] ->
   exists msg, simulate_linkage_attack anonymised_df aux_df qi_cols = Raise (IndexError msg)) /\
  ((exists c, In c qi_cols /\
              (has_column aux_df c = false \/ has_column anonymised_df c = false)) ->
   exists pre c post,
     qi_cols = pre ++ c :: post /\
     (forall a, In a pre -> has_column aux_df a = true /\ has_column anonymised_df a = true) /\
     (has_column aux_df c = false \/ has_column anonymised_df c = false) /\
     simulate_linkage_attack anonymised_df aux_df qi_cols = Raise (KeyError c)).
Proof.
  intros _. split.
  - intros ->. eexists. reflexivity.
  - intros (c & Hin & Hc).
    destruct (mapM_raise_split (merge_key aux_df anonymised_df) qi_cols)
      as (pre & a & post & e & Hq & Hpre & Hf & Hm).
    { exists c. split; [exact Hin|]. rewrite merge_key_returns.
      destruct Hc as [-> | ->]; [reflexivity | apply andb_false_r]. }
    exists pre, a, post. split; [exact Hq|]. split.
    { intros x Hx. apply Hpre in Hx. rewrite merge_key_returns in Hx.
      now apply andb_true_iff in Hx. }
    assert (He : e = KeyError a /\
                 (has_column aux_df a = false \/ has_column anonymised_df a = false)).
    { unfold merge_key in Hf. unfold has_column.
      destruct (col_index a (columns anonymised_df)) as [[j d]|];
        destruct (col_index a (columns aux_df)) as [[i d']|];
        try discriminate; injection Hf as <-; split; auto. }
    destruct He as [-> Ha]. split; [exact Ha|].
    unfold simulate_linkage_attack, merge_keys. rewrite Hm.
    destruct qi_cols as [|c0 t]; [destruct Hin | reflexivity].
Qed.

Lemma simulate_linkage_attack_errors_witness :
  (exists msg, simulate_linkage_attack simple_df aux_test_df [] = Raise (IndexError msg)) /\
  (exists pre c post,
     ["age_band"; "zip"] = pre ++ c :: post /\
     (forall a, In a pre ->
                has_column aux_without_zip a = true /\ has_column simple_df a = true) /\
     (has_column aux_without_zip c = false \/ has_column simple_df c = false) /\
     simulate_linkage_attack simple_df aux_without_zip ["age_band"; "zip"]
     = Raise (KeyError c)).
Proof.
  split.
  - apply (proj1 (simulate_linkage_attack_errors simple_df aux_test_df [] eq_refl) eq_refl).
  - apply (proj2 (simulate_linkage_attack_errors simple_df aux_without_zip
                    ["age_band"; "zip"] eq_refl)).
    exists "zip". split; [right; now left | left; reflexivity].
Defined.

(** ** Skewed classes and l-diversity *)

(** A class with one distinct sensitive value: its frequency table has one
    entry, which counts the whole class. *)
Lemma value_counts_single l :
  nunique l = 1%Z -> exists v, value_counts l = [(v, len l)].
Proof.
  intros H. pose proof (value_counts_total l) as Htot.
  unfold nunique, len in H.
  destruct (value_counts l) as [|[v c] [|vc t]] eqn:E; cbn [length] in H; try lia.
  exists v. cbn [map snd Zsum fold_right] in Htot. f_equal. f_equal. lia.
Qed.

Lemma dominant_single l :
  l <> [] -> nunique l = 1%Z -> exists v f, dominant l = Some (v, f) /\ (f == 1)%Q.
Proof.
  intros Hne H. destruct (value_counts_single l H) as [v Hv].
  unfold dominant, value_probs. rewrite Hv. cbn [map fst snd combine fold_left].
  do 2 eexists. split; [reflexivity|].
  pose proof (inject_Z_pos _ (len_pos l Hne)) as Hpos.
  field. intros E. rewrite E in Hpos. now apply Qlt_irrefl in Hpos.
Qed.

Section SkewAndDiversity.

Variable pow_neg_third : Z -> Q.
Variable correlation_scan :
  DataFrame -> list string -> string -> list CorrelationEntry * option string.

(** X25. When [l_diversity] reports [l_min = 1] on a frame with rows
    (some class holds a single sensitive value) and [dominance_threshold]
    is below 1, the returned report lists at least one sensitive skew. *)
Theorem full_report_skew_when_not_diverse p external_df w rep lrep :
  fst (full_report pow_neg_third correlation_scan p external_df w) = Ok rep ->
  has_rows (self_df w) -> (dominance_threshold p < 1)%Q ->
  rep_l_diversity rep = Computed lrep -> (l_min lrep == 1)%Q ->
  sensitive_skew (behaviour_patterns rep) <> [].
Proof.
  intros Hrep Hrows Hthr Hl Hmin.
  destruct (full_report_returned pow_neg_third correlation_scan p external_df w rep Hrep)
    as (fr & cls & _ & Hcls & _ & Hl' & _ & _ & Hskew & _).
  destruct (class_patterns_returned p _ cls Hcls) as (idx & sens & Hidx & Hsens & _ & Hsnd).
  rewrite Hskew, Hsnd. clear Hskew Hsnd Hcls Hrep.
  rewrite Hl in Hl'. symmetry in Hl'. apply bound_local_entry in Hl'.
  destruct (l_diversity _ _ _ _) as [lrep'|e] eqn:El; [|discriminate].
  injection Hl' as ->.
  assert (Hgrp : groupby_col (self_df w) (qi p) (sensitive p)
                 = Ok (map (fun g : list value * list row =>
                              (fst g, map (cell sens) (snd g)))
                           (group_rows idx (rows (self_df w))))).
  { unfold groupby_col, groupby. rewrite Hidx. cbn [rbind].
    unfold key_index in Hsens.
    destruct (col_index (sensitive p) (columns (self_df w))) as [[i d]|];
      [|discriminate].
    injection Hsens as ->. reflexivity. }
  assert (Hne : group_rows idx (rows (self_df w)) <> []).
  { intros E. apply (class_sizes_nonempty idx (rows (self_df w)) Hrows).
    now rewrite E. }
  assert (Hlmin : l_min lrep
                  = Qminimum (map (fun g : list value * list row =>
                                     inject_Z (nunique (map (cell sens) (snd g))))
                                  (group_rows idx (rows (self_df w))))).
  { unfold l_diversity in El. rewrite Hgrp in El. cbn [rbind] in El.
    rewrite map_map in El. cbn [snd] in El.
    destruct (group_rows idx (rows (self_df w))) as [|g0 gs]; [congruence|].
    destruct (String.eqb (l_method p) "distinct");
      [|destruct (String.eqb (l_method p) "entropy"); [|discriminate]];
      injection El as <-; reflexivity. }
  assert (Hin : In (l_min lrep)
                   (map (fun g : list value * list row =>
                           inject_Z (nunique (map (cell sens) (snd g))))
                        (group_rows idx (rows (self_df w))))).
  { rewrite Hlmin. apply Qminimum_In. intros E. apply map_eq_nil in E. contradiction. }
  apply in_map_iff in Hin as (g & Hg & Hgin).
  assert (Huni : nunique (map (cell sens) (snd g)) = 1%Z).
  { rewrite <- Hg in Hmin. unfold Qeq in Hmin. cbn in Hmin. lia. }
  pose proof (group_rows_nonempty idx (rows (self_df w))) as Hcls.
  rewrite Forall_forall in Hcls. specialize (Hcls g Hgin).
  destruct (dominant_single (map (cell sens) (snd g))) as (v & f & Hdom & Hf).
  { intros E. apply map_eq_nil in E. contradiction. }
  { exact Huni. }
  intros Hnil.
  assert (Hsk : In {| sk_qi_values := combine (qi p) (fst g);
                      dominant_sensitive := v; frequency := f |}
                   (flat_map
                      (fun g : list value * list row =>
                         match dominant (map (cell sens) (snd g)) with
                         | Some (v, f) =>
                             if Qlt_bool (dominance_threshold p) f
                             then [{| sk_qi_values := combine (qi p) (fst g);
                                      dominant_sensitive := v; frequency := f |}]
                             else []
                         | None => []
                         end)
                      (group_rows idx (rows (self_df w))))).
  { apply in_flat_map. exists g. split; [exact Hgin|]. rewrite Hdom.
    destruct (Qlt_bool (dominance_threshold p) f) eqn:Clt; [now left|].
    apply Qlt_bool_false in Clt. rewrite Hf in Clt.
    exfalso. apply (Qlt_irrefl 1). now apply Qle_lt_trans with (dominance_threshold p). }
  rewrite Hnil in Hsk. destruct Hsk.
Qed.

End SkewAndDiversity.

Lemma full_report_skew_when_not_diverse_witness :
  exists rep lrep,
    fst (full_report unit_pow_neg_third no_correlation (default_params ["zip"] "income")
           None (fresh_validator income_df)) = Ok rep /\
    rep_l_diversity rep = Computed lrep /\ (l_min lrep == 1)%Q /\
    sensitive_skew (behaviour_patterns rep) <> [].
Proof.
  assert (H : exists rep,
             fst (full_report unit_pow_neg_third no_correlation
                    (default_params ["zip"] "income") None (fresh_validator income_df))
             = Ok rep)
    by (eexists; vm_compute; reflexivity).
  destruct H as [rep H].
  pose proof (fun lrep => full_report_skew_when_not_diverse _ _ _ _ _ rep lrep H) as T.
  vm_compute in H. injection H as <-.
  do 2 eexists. split; [vm_compute; reflexivity|]. split; [reflexivity|].
  split; [reflexivity|].
  eapply T; [discriminate | reflexivity | reflexivity | reflexivity].
Defined.

(** ** Shannon entropy of a probability vector *)





(** ** The threshold advisor *)

(** X27. [suggest_thresholds] never reads the quasi-identifiers (any
    list, even of missing columns, gives the same outcome), raises exactly
    when the sensitive column is missing, and a frame with more rows never
    gets a smaller [k] nor a larger re-identification threshold. *)
Theorem suggest_thresholds_by_size df df' qi_cols qi_cols' sensitive_col :
  suggest_thresholds df qi_cols sensitive_col
  = suggest_thresholds df qi_cols' sensitive_col /\
  (is_ok (suggest_thresholds df qi_cols sensitive_col) = has_column df sensitive_col) /\
  forall th th',
    suggest_thresholds df qi_cols sensitive_col = Ok th ->
    suggest_thresholds df' qi_cols sensitive_col = Ok th' ->
    (len (rows df) <= len (rows df'))%Z ->
    (5 <= sug_k th <= sug_k th')%Z /\
    (sug_reid_probability th' <= sug_reid_probability th)%Q.
Proof.
  split; [reflexivity|]. split.
  - unfold suggest_thresholds, getitem, has_column.
    destruct (col_index sensitive_col (columns df)) as [[i d]|]; reflexivity.
  - intros th th'. unfold suggest_thresholds.
    destruct (getitem df sensitive_col) as [s|e]; [cbn [rbind] | discriminate].
    destruct (getitem df' sensitive_col) as [s'|e]; [cbn [rbind] | discriminate].
    intros H H' Hle. injection H as <-. injection H' as <-.
    cbn [sug_k sug_reid_probability].
    destruct (Z.ltb_spec (len (rows df)) 1000), (Z.ltb_spec (len (rows df)) 10000),
      (Z.ltb_spec (len (rows df')) 1000), (Z.ltb_spec (len (rows df')) 10000),
      (Z.ltb_spec 1000 (len (rows df))), (Z.ltb_spec 1000 (len (rows df')));
      try lia; (split; [lia|]); unfold Qle; cbn; lia.
Qed.

Lemma suggest_thresholds_by_size_witness :
  exists th th',
    suggest_thresholds empty_df ["zip"] "disease" = Ok th /\
    suggest_thresholds simple_df ["zip"] "disease" = Ok th' /\
    (5 <= sug_k th <= sug_k th')%Z /\
    (sug_reid_probability th' <= sug_reid_probability th)%Q.
Proof.
  do 2 eexists. split; [reflexivity|]. split; [reflexivity|].
  apply (proj2 (proj2 (suggest_thresholds_by_size empty_df simple_df
                         ["zip"] ["zip"] "disease")));
    [reflexivity | reflexivity | cbn; lia].
Defined.

(** ** Missing columns *)


Section MissingColumns.

Variable pow_neg_third : Z -> Q.
Variable correlation_scan :
  DataFrame -> list string -> string -> list CorrelationEntry * option string.


End MissingColumns.

